(** * Dancing Links (wbyoung/dance): a shallow embedding of [src/index.js]

    The JavaScript objects of the program (nodes, column headers, the root)
    live in a heap made of two arenas addressed by natural numbers.  Every
    property of an object is optional, as in JavaScript, where a fresh [{}]
    has no property at all.  Functions that mutate objects take the heap and
    return the new heap; a property access on [undefined] is a thrown
    [TypeError]; the [for] loops that follow links until they come back to
    their starting object are driven by a fuel argument. *)

From Stdlib Require Import ZArith Lia.
From stdpp Require Import base option list sets.

Set Default Proof Using "Type".
Set Warnings "-clear-no-such-hyp,-unused-intro-pattern".
Local Open Scope Z_scope.
Local Open Scope nat_scope.

(** ** Objects and heap *)

Abbreviation addr := nat (only parsing).

(** A [node] of the source: [up], [down], [left], [right], [header],
    [rowNumber]. *)
Record node := Node {
  n_up : option addr;
  n_down : option addr;
  n_left : option addr;
  n_right : option addr;
  n_header : option addr;
  n_rowNumber : option nat
}.

(** A column [header] of the source: [head], [length], [prev], [next].  The
    root is an object of the same arena that only ever gets [prev] and
    [next].  [h_length = None] stands for a [length] that is not a number
    ([undefined] or [NaN]). *)
Record hdr := Hdr {
  h_head : option addr;
  h_length : option Z;
  h_prev : option addr;
  h_next : option addr
}.

Record heap := Heap {
  nodes : list node;
  hdrs : list hdr
}.

Definition empty_node : node := Node None None None None None None.
Definition empty_hdr : hdr := Hdr None None None None.
Definition empty_heap : heap := Heap [] [].

Inductive dir := Up | Down | Left | Right.
Inductive hdir := Prev | Next.

#[global] Instance dir_eq_dec : EqDecision dir.
Proof. solve_decision. Defined.
#[global] Instance hdir_eq_dec : EqDecision hdir.
Proof. solve_decision. Defined.

Definition node_field (d : dir) (nd : node) : option addr :=
  match d with
  | Up => n_up nd
  | Down => n_down nd
  | Left => n_left nd
  | Right => n_right nd
  end.

Definition node_with (d : dir) (v : addr) (nd : node) : node :=
  match d with
  | Up => Node (Some v) (n_down nd) (n_left nd) (n_right nd) (n_header nd) (n_rowNumber nd)
  | Down => Node (n_up nd) (Some v) (n_left nd) (n_right nd) (n_header nd) (n_rowNumber nd)
  | Left => Node (n_up nd) (n_down nd) (Some v) (n_right nd) (n_header nd) (n_rowNumber nd)
  | Right => Node (n_up nd) (n_down nd) (n_left nd) (Some v) (n_header nd) (n_rowNumber nd)
  end.

Definition hdr_field (d : hdir) (h : hdr) : option addr :=
  match d with
  | Prev => h_prev h
  | Next => h_next h
  end.

Definition hdr_with (d : hdir) (v : addr) (h : hdr) : hdr :=
  match d with
  | Prev => Hdr (h_head h) (h_length h) (Some v) (h_next h)
  | Next => Hdr (h_head h) (h_length h) (h_prev h) (Some v)
  end.

(** ** Outcomes *)

Inductive error :=
  | UndefinedRow0                (* [matrix[0]] is undefined *)
  | UndefinedColumn (col : nat)  (* [columns[col]] is undefined *)
  | UndefinedRef.                (* a link that is undefined is dereferenced *)

Inductive outcome (A : Type) :=
  | Ok (a : A)
  | Throw (e : error)
  | OutOfFuel.
Arguments Ok {A} a.
Arguments Throw {A} e.
Arguments OutOfFuel {A}.

Definition obind {A B} (m : outcome A) (f : A → outcome B) : outcome B :=
  match m with
  | Ok a => f a
  | Throw e => Throw e
  | OutOfFuel => OutOfFuel
  end.

Notation "'do' x <- m ; k" := (obind m (fun x => k))
  (at level 10, x name, m at level 100, k at level 200,
   format "'[v' 'do'  x  <-  m ; '/' k ']'").

Definition deref {A} (o : option A) : outcome A :=
  match o with
  | Some a => Ok a
  | None => Throw UndefinedRef
  end.

(** ** Property reads and writes *)

(** [link d s n] is [n[d]], [None] when it is undefined. *)
Definition link (d : dir) (s : heap) (n : addr) : option addr :=
  nodes s !! n ≫= node_field d.
Definition hlink (d : hdir) (s : heap) (h : addr) : option addr :=
  hdrs s !! h ≫= hdr_field d.
Definition header_of (s : heap) (n : addr) : option addr :=
  nodes s !! n ≫= n_header.
Definition head_of (s : heap) (h : addr) : option addr :=
  hdrs s !! h ≫= h_head.
Definition length_of (s : heap) (h : addr) : option Z :=
  hdrs s !! h ≫= h_length.
Definition rowNumber_of (s : heap) (n : addr) : option nat :=
  nodes s !! n ≫= n_rowNumber.

(** A property write [x.p = v]: the object [x] must exist. *)
Definition put_node (n : addr) (f : node → node) (s : heap) : heap :=
  Heap (alter f n (nodes s)) (hdrs s).
Definition put_hdr (h : addr) (f : hdr → hdr) (s : heap) : heap :=
  Heap (nodes s) (alter f h (hdrs s)).

Definition upd_node (n : addr) (f : node → node) (s : heap) : outcome heap :=
  match nodes s !! n with
  | Some _ => Ok (put_node n f s)
  | None => Throw UndefinedRef
  end.
Definition upd_hdr (h : addr) (f : hdr → hdr) (s : heap) : outcome heap :=
  match hdrs s !! h with
  | Some _ => Ok (put_hdr h f s)
  | None => Throw UndefinedRef
  end.

Definition set_link (d : dir) (n v : addr) (s : heap) : outcome heap :=
  upd_node n (node_with d v) s.
Definition set_hlink (d : hdir) (h v : addr) (s : heap) : outcome heap :=
  upd_hdr h (hdr_with d v) s.
Definition node_with_header (v : addr) (nd : node) : node :=
  Node (n_up nd) (n_down nd) (n_left nd) (n_right nd) (Some v) (n_rowNumber nd).
Definition node_with_rowNumber (v : nat) (nd : node) : node :=
  Node (n_up nd) (n_down nd) (n_left nd) (n_right nd) (n_header nd) (Some v).
Definition hdr_with_head (v : addr) (hd : hdr) : hdr :=
  Hdr (Some v) (h_length hd) (h_prev hd) (h_next hd).
Definition hdr_with_length (v : option Z) (hd : hdr) : hdr :=
  Hdr (h_head hd) v (h_prev hd) (h_next hd).

Definition set_header (n v : addr) (s : heap) : outcome heap :=
  upd_node n (node_with_header v) s.
Definition set_rowNumber (n : addr) (v : nat) (s : heap) : outcome heap :=
  upd_node n (node_with_rowNumber v) s.
Definition set_head (h v : addr) (s : heap) : outcome heap :=
  upd_hdr h (hdr_with_head v) s.
Definition set_length (h : addr) (v : option Z) (s : heap) : outcome heap :=
  upd_hdr h (hdr_with_length v) s.

(** [x.length += z]: arithmetic on a [length] that is not a number gives
    not-a-number. *)
Definition add_length (h : addr) (z : Z) (s : heap) : outcome heap :=
  upd_hdr h (λ hd, hdr_with_length ((λ l, l + z)%Z <$> h_length hd) hd) s.

(** ** [eachNode] and [eachHeader]

    [for (var n = node[direction]; n !== node; n = n[direction]) fn(n)].
    The callback may mutate the heap (and the other variables it closes
    over, gathered in the state [σ]); the next link is read after the
    callback has run. *)
Section loops.
Context {σ : Type} (hp : σ → heap).

Fixpoint eachNode_from (fuel : nat) (node : addr) (direction : dir)
    (fn : addr → σ → outcome σ) (n : addr) (st : σ) : outcome σ :=
  match fuel with
  | 0 => OutOfFuel
  | S fuel' =>
      if decide (n = node) then Ok st
      else
        do st' <- fn n st;
        do n' <- deref (link direction (hp st') n);
        eachNode_from fuel' node direction fn n' st'
  end.

Definition eachNode (fuel : nat) (node : addr) (direction : dir)
    (fn : addr → σ → outcome σ) (st : σ) : outcome σ :=
  do n <- deref (link direction (hp st) node);
  eachNode_from fuel node direction fn n st.

Fixpoint eachHeader_from (fuel : nat) (header : addr) (direction : hdir)
    (fn : addr → σ → outcome σ) (h : addr) (st : σ) : outcome σ :=
  match fuel with
  | 0 => OutOfFuel
  | S fuel' =>
      if decide (h = header) then Ok st
      else
        do st' <- fn h st;
        do h' <- deref (hlink direction (hp st') h);
        eachHeader_from fuel' header direction fn h' st'
  end.

Definition eachHeader (fuel : nat) (header : addr) (direction : hdir)
    (fn : addr → σ → outcome σ) (st : σ) : outcome σ :=
  do h <- deref (hlink direction (hp st) header);
  eachHeader_from fuel header direction fn h st.
End loops.

(** ** [cover] and [uncover] *)

(** The body of the inner loop of [cover]:
    [colNode.up.down = colNode.down; colNode.down.up = colNode.up;
     colNode.header.length -= 1]. *)
Definition cover_node (colNode : addr) (s : heap) : outcome heap :=
  do u <- deref (link Up s colNode);
  do d <- deref (link Down s colNode);
  do s <- set_link Down u d s;
  do d <- deref (link Down s colNode);
  do u <- deref (link Up s colNode);
  do s <- set_link Up d u s;
  do h <- deref (header_of s colNode);
  add_length h (-1) s.

Definition cover (fuel : nat) (column : addr) (s : heap) : outcome heap :=
  do nx <- deref (hlink Next s column);
  do pv <- deref (hlink Prev s column);
  do s <- set_hlink Prev nx pv s;
  do pv <- deref (hlink Prev s column);
  do nx <- deref (hlink Next s column);
  do s <- set_hlink Next pv nx s;
  do hd <- deref (head_of s column);
  eachNode id fuel hd Down (λ rowNode s,
    eachNode id fuel rowNode Right cover_node s) s.

(** The body of the inner loop of [uncover]:
    [colNode.header.length += 1; colNode.up.down = colNode;
     colNode.down.up = colNode]. *)
Definition uncover_node (colNode : addr) (s : heap) : outcome heap :=
  do h <- deref (header_of s colNode);
  do s <- add_length h 1 s;
  do u <- deref (link Up s colNode);
  do s <- set_link Down u colNode s;
  do d <- deref (link Down s colNode);
  set_link Up d colNode s.

Definition uncover (fuel : nat) (column : addr) (s : heap) : outcome heap :=
  do hd <- deref (head_of s column);
  do s <- eachNode id fuel hd Up (λ rowNode s,
            eachNode id fuel rowNode Left uncover_node s) s;
  do nx <- deref (hlink Next s column);
  do s <- set_hlink Prev nx column s;
  do pv <- deref (hlink Prev s column);
  set_hlink Next pv column s.

(** ** [recurse] *)

(** A solution is an array of row numbers; an entry can be [undefined]. *)
Abbreviation solution := (list (option nat)).

(** [a[k] = v] on a JavaScript array: overwrite in range, extend (leaving
    holes) out of range. *)
Definition array_set {A} (k : nat) (v : option A) (a : list (option A)) : list (option A) :=
  if decide (k < length a) then <[k := v]> a
  else a ++ replicate (k - length a) None ++ [v].

(** The heap together with the two arrays [solutions] and [partials] that
    every invocation of [recurse] shares. *)
Record search := Search {
  s_heap : heap;
  s_solutions : list solution;
  s_partials : list (option nat)
}.

Definition with_heap (st : search) (s : heap) : search :=
  Search s (s_solutions st) (s_partials st).

(** [a < b] and [a > 0] on numbers that may be not-a-number. *)
Definition num_lt (a b : option Z) : bool :=
  match a, b with
  | Some x, Some y => bool_decide (x < y)%Z
  | _, _ => false
  end.

(** The variables [best] and [smallest] of [recurse], updated by the
    callback given to [eachHeader]. *)
Abbreviation choice := (heap * option nat * option Z)%type.

Definition choose_step (h : addr) (c : choice) : outcome choice :=
  let '(s, best, smallest) := c in
  if match best with None => true | Some _ => num_lt (length_of s h) smallest end
  then Ok (s, Some h, length_of s h)
  else Ok c.

Definition choose_best (fuel : nat) (root : addr) (s : heap) : outcome (option addr) :=
  do c <- eachHeader (λ c : choice, c.1.1) fuel root Next choose_step (s, None, None);
  Ok c.1.2.

Fixpoint recurse (fuel : nat) (root : addr) (max : nat) (k : nat) (st : search)
    : outcome search :=
  match fuel with
  | 0 => OutOfFuel
  | S fuel' =>
      if bool_decide (max ≠ 0) && bool_decide (length (s_solutions st) = max) then Ok st
      else
        do nx <- deref (hlink Next (s_heap st) root);
        if decide (nx = root) then
          Ok (Search (s_heap st) (s_solutions st ++ [s_partials st]) (s_partials st))
        else
          do best <- choose_best fuel' root (s_heap st);
          match best with
          | Some best =>
              if num_lt (Some 0%Z) (length_of (s_heap st) best) then
                do s <- cover fuel' best (s_heap st);
                do hd <- deref (head_of s best);
                do st <- eachNode s_heap fuel' hd Down (λ rowNode st,
                    let st := Search (s_heap st) (s_solutions st)
                                (array_set k (rowNumber_of (s_heap st) rowNode) (s_partials st)) in
                    do st <- eachNode s_heap fuel' rowNode Right (λ colNode st,
                        do h <- deref (header_of (s_heap st) colNode);
                        do s <- cover fuel' h (s_heap st);
                        Ok (with_heap st s)) st;
                    do st <- recurse fuel' root max (k + 1) st;
                    eachNode s_heap fuel' rowNode Left (λ colNode st,
                        do h <- deref (header_of (s_heap st) colNode);
                        do s <- uncover fuel' h (s_heap st);
                        Ok (with_heap st s)) st)
                  (with_heap st s);
                do s <- uncover fuel' best (s_heap st);
                Ok (with_heap st s)
              else Ok st
          | None => Ok st
          end
  end.

(** ** [createNode] *)

Definition alloc_node (s : heap) : addr * heap :=
  (length (nodes s), Heap (nodes s ++ [empty_node]) (hdrs s)).
Definition alloc_hdr (s : heap) : addr * heap :=
  (length (hdrs s), Heap (nodes s) (hdrs s ++ [empty_hdr])).

Definition createNode (column : addr) (left up : option addr) (s : heap)
    : outcome (addr * heap) :=
  let '(node, s) := alloc_node s in
  (* var left = opts.left || (node.left = node.right = node); *)
  do ls <- match left with
           | Some l => Ok (l, s)
           | None => do s <- set_link Right node node s;
                     do s <- set_link Left node node s;
                     Ok (node, s)
           end;
  let '(left', s) := ls in
  (* var up = opts.up || (node.up = node.down = node); *)
  do us <- match up with
           | Some u => Ok (u, s)
           | None => do s <- set_link Down node node s;
                     do s <- set_link Up node node s;
                     Ok (node, s)
           end;
  let '(up', s) := us in
  do s <- set_header node column s;
  do s <- set_link Left node left' s;
  do r <- deref (link Right s left');
  do s <- set_link Right node r s;
  do r <- deref (link Right s left');
  do s <- set_link Left r node s;
  do s <- set_link Right left' node s;
  do s <- set_link Up node up' s;
  do d <- deref (link Down s up');
  do s <- set_link Down node d s;
  do d <- deref (link Down s up');
  do s <- set_link Up d node s;
  do s <- set_link Down up' node s;
  Ok (node, s).

(** ** [solve] *)

Abbreviation matrix := (list (list Z)).

(** A cell is present when its value is truthy. *)
Definition truthy (v : Z) : bool := negb (v =? 0)%Z.

(** The state of the first loop of [solve]: heap, [prev], [columns]. *)
Definition make_column (st : heap * option addr * list addr)
    : outcome (heap * option addr * list addr) :=
  let '(s, prev, columns) := st in
  let '(column, s) := alloc_hdr s in
  (* if (!prev) { prev = column.prev = column.next = column; } *)
  do ps <- match prev with
           | Some p => Ok (p, s)
           | None => do s <- set_hlink Next column column s;
                     do s <- set_hlink Prev column column s;
                     Ok (column, s)
           end;
  let '(prev, s) := ps in
  do s <- set_length column (Some 0%Z) s;
  do s <- set_hlink Prev column prev s;
  do nx <- deref (hlink Next s prev);
  do s <- set_hlink Next column nx s;
  do ns <- createNode column (head_of s prev) None s;
  let '(node, s) := ns in
  do s <- set_head column node s;
  do nx <- deref (hlink Next s prev);
  do s <- set_hlink Prev nx column s;
  do s <- set_hlink Next prev column s;
  Ok (s, Some column, columns ++ [column]).

Fixpoint make_columns (n : nat) (st : heap * option addr * list addr)
    : outcome (heap * option addr * list addr) :=
  match n with
  | 0 => Ok st
  | S n' => do st <- make_column st; make_columns n' st
  end.

(** The callback of [row.forEach]; its state is the heap and [left]. *)
Definition add_cell (columns : list addr) (rowIndex : nat) (value : Z) (col : nat)
    (st : heap * option addr) : outcome (heap * option addr) :=
  let '(s, left') := st in
  if truthy value then
    match columns !! col with
    | None => Throw (UndefinedColumn col)
    | Some column =>
        do hd <- deref (head_of s column);
        do ns <- createNode column left' (link Up s hd) s;
        let '(node, s) := ns in
        do s <- set_rowNumber node rowIndex s;
        do s <- add_length column 1 s;
        Ok (s, Some node)
    end
  else Ok st.

Fixpoint add_cells (columns : list addr) (rowIndex : nat) (row : list Z) (col : nat)
    (st : heap * option addr) : outcome (heap * option addr) :=
  match row with
  | [] => Ok st
  | value :: row' =>
      do st <- add_cell columns rowIndex value col st;
      add_cells columns rowIndex row' (S col) st
  end.

Fixpoint add_rows (columns : list addr) (rows : list (list Z)) (rowIndex : nat)
    (s : heap) : outcome heap :=
  match rows with
  | [] => Ok s
  | row :: rows' =>
      do st <- add_cells columns rowIndex row 0 (s, None);
      add_rows columns rows' (S rowIndex) st.1
  end.

Definition make_root (columns : list addr) (s : heap) : outcome (addr * heap) :=
  let '(root, s) := alloc_hdr s in
  match columns !! 0 with
  | None => Throw (UndefinedColumn 0)
  | Some c0 =>
      do p <- deref (hlink Prev s c0);
      do s <- set_hlink Prev root p s;
      do s <- set_hlink Next root c0 s;
      do p <- deref (hlink Prev s c0);
      do s <- set_hlink Next p root s;
      do s <- set_hlink Prev c0 root s;
      Ok (root, s)
  end.

(** Everything [solve] does before it calls [recurse]. *)
Definition build (m : matrix) (s : heap) : outcome (addr * heap) :=
  match m !! 0 with
  | None => Throw UndefinedRow0
  | Some row0 =>
      do st <- make_columns (length row0) (s, None, []);
      let '(s, _, columns) := st in
      do s <- add_rows columns m 0 s;
      make_root columns s
  end.

(** [options]: [None] is an absent argument, [maxSolutions = None] an
    absent property. *)
Record options := Options { maxSolutions : option nat }.

Definition max_of (o : option options) : nat :=
  match o with
  | Some (Options (Some m)) => m
  | _ => 0
  end.

(** [solve] run on a heap that may already hold objects; it returns the
    array of solutions. *)
Definition solve_in (fuel : nat) (s : heap) (m : matrix) (o : option options)
    : outcome (list solution) :=
  do rs <- build m s;
  let '(root, s) := rs in
  do st <- recurse fuel root (max_of o) 0 (Search s [] []);
  Ok (s_solutions st).

Definition solve (fuel : nat) (m : matrix) (o : option options) : outcome (list solution) :=
  solve_in fuel empty_heap m o.

(** * Part II: reading and writing the heap *)

(** The pure effect of each property write. *)
Definition put_link (d : dir) (n v : addr) (s : heap) : heap :=
  put_node n (node_with d v) s.
Definition put_hlink (d : hdir) (h v : addr) (s : heap) : heap :=
  put_hdr h (hdr_with d v) s.
Definition put_length (h : addr) (z : Z) (s : heap) : heap :=
  put_hdr h (λ hd, hdr_with_length ((λ l, l + z)%Z <$> h_length hd) hd) s.

Definition valid_node (s : heap) (n : addr) : Prop := n < length (nodes s).
Definition valid_hdr (s : heap) (h : addr) : Prop := h < length (hdrs s).

Lemma obind_ok {A B} (m : outcome A) (f : A → outcome B) b :
  obind m f = Ok b ↔ ∃ a, m = Ok a ∧ f a = Ok b.
Proof.
  destruct m; simpl; split; try (intros [a [? ?]]; congruence); try discriminate; eauto.
  intros [a' [[= ->] ?]]; done.
Qed.

Lemma deref_ok {A} (o : option A) a : deref o = Ok a ↔ o = Some a.
Proof. destruct o; simpl; split; congruence. Qed.

Lemma valid_node_lookup s n : valid_node s n ↔ is_Some (nodes s !! n).
Proof. unfold valid_node. by rewrite lookup_lt_is_Some. Qed.
Lemma valid_hdr_lookup s h : valid_hdr s h ↔ is_Some (hdrs s !! h).
Proof. unfold valid_hdr. by rewrite lookup_lt_is_Some. Qed.

Lemma link_valid d s n a : link d s n = Some a → valid_node s n.
Proof.
  unfold link. intros H. apply valid_node_lookup.
  destruct (nodes s !! n); [eauto | discriminate].
Qed.
Lemma header_of_valid s n a : header_of s n = Some a → valid_node s n.
Proof.
  unfold header_of. intros H. apply valid_node_lookup.
  destruct (nodes s !! n); [eauto | discriminate].
Qed.
Lemma hlink_valid d s h a : hlink d s h = Some a → valid_hdr s h.
Proof.
  unfold hlink. intros H. apply valid_hdr_lookup.
  destruct (hdrs s !! h); [eauto | discriminate].
Qed.
Lemma head_of_valid s h a : head_of s h = Some a → valid_hdr s h.
Proof.
  unfold head_of. intros H. apply valid_hdr_lookup.
  destruct (hdrs s !! h); [eauto | discriminate].
Qed.
Lemma length_of_valid s h a : length_of s h = Some a → valid_hdr s h.
Proof.
  unfold length_of. intros H. apply valid_hdr_lookup.
  destruct (hdrs s !! h); [eauto | discriminate].
Qed.

Lemma upd_node_ok n f s : valid_node s n → upd_node n f s = Ok (put_node n f s).
Proof.
  intros [x Hx]%valid_node_lookup. unfold upd_node. by rewrite Hx.
Qed.
Lemma upd_hdr_ok h f s : valid_hdr s h → upd_hdr h f s = Ok (put_hdr h f s).
Proof.
  intros [x Hx]%valid_hdr_lookup. unfold upd_hdr. by rewrite Hx.
Qed.

Lemma set_link_ok d n v s : valid_node s n → set_link d n v s = Ok (put_link d n v s).
Proof. apply upd_node_ok. Qed.
Lemma set_hlink_ok d h v s : valid_hdr s h → set_hlink d h v s = Ok (put_hlink d h v s).
Proof. apply upd_hdr_ok. Qed.
Lemma add_length_ok h z s : valid_hdr s h → add_length h z s = Ok (put_length h z s).
Proof. apply upd_hdr_ok. Qed.

Lemma upd_node_inv n f s s' : upd_node n f s = Ok s' → valid_node s n ∧ s' = put_node n f s.
Proof.
  unfold upd_node. destruct (nodes s !! n) eqn:E; [|discriminate].
  intros [= <-]. split; [|done]. apply valid_node_lookup; eauto.
Qed.
Lemma upd_hdr_inv h f s s' : upd_hdr h f s = Ok s' → valid_hdr s h ∧ s' = put_hdr h f s.
Proof.
  unfold upd_hdr. destruct (hdrs s !! h) eqn:E; [|discriminate].
  intros [= <-]. split; [|done]. apply valid_hdr_lookup; eauto.
Qed.

(** Sizes of the arenas never change by a write. *)
Lemma length_nodes_put_node n f s : length (nodes (put_node n f s)) = length (nodes s).
Proof. simpl. apply length_alter. Qed.
Lemma length_hdrs_put_node n f s : length (hdrs (put_node n f s)) = length (hdrs s).
Proof. done. Qed.
Lemma length_nodes_put_hdr h f s : length (nodes (put_hdr h f s)) = length (nodes s).
Proof. done. Qed.
Lemma length_hdrs_put_hdr h f s : length (hdrs (put_hdr h f s)) = length (hdrs s).
Proof. simpl. apply length_alter. Qed.

Lemma valid_node_put_node n f s x : valid_node (put_node n f s) x ↔ valid_node s x.
Proof. unfold valid_node. by rewrite length_nodes_put_node. Qed.
Lemma valid_node_put_hdr h f s x : valid_node (put_hdr h f s) x ↔ valid_node s x.
Proof. done. Qed.
Lemma valid_hdr_put_node n f s x : valid_hdr (put_node n f s) x ↔ valid_hdr s x.
Proof. done. Qed.
Lemma valid_hdr_put_hdr h f s x : valid_hdr (put_hdr h f s) x ↔ valid_hdr s x.
Proof. unfold valid_hdr. by rewrite length_hdrs_put_hdr. Qed.

(** Reading after writing. *)
Lemma lookup_put_node n f s x :
  nodes (put_node n f s) !! x = if decide (x = n) then f <$> nodes s !! n else nodes s !! x.
Proof.
  simpl. rewrite list_lookup_alter.
  destruct (decide (x = n)) as [->|Hne].
  - by rewrite decide_True.
  - by rewrite decide_False.
Qed.
Lemma lookup_put_hdr h f s x :
  hdrs (put_hdr h f s) !! x = if decide (x = h) then f <$> hdrs s !! h else hdrs s !! x.
Proof.
  simpl. rewrite list_lookup_alter.
  destruct (decide (x = h)) as [->|Hne].
  - by rewrite decide_True.
  - by rewrite decide_False.
Qed.

Lemma node_field_with d d0 v nd :
  node_field d (node_with d0 v nd) = if decide (d = d0) then Some v else node_field d nd.
Proof. by destruct d, d0. Qed.
Lemma hdr_field_with d d0 v h :
  hdr_field d (hdr_with d0 v h) = if decide (d = d0) then Some v else hdr_field d h.
Proof. by destruct d, d0. Qed.

Lemma link_put_link d d0 n v s x :
  valid_node s n →
  link d (put_link d0 n v s) x =
    if decide (x = n ∧ d = d0) then Some v else link d s x.
Proof.
  intros [nd Hnd]%valid_node_lookup. unfold link, put_link.
  rewrite lookup_put_node. destruct (decide (x = n)) as [->|Hne].
  - rewrite Hnd. simpl. rewrite node_field_with.
    destruct (decide (d = d0)) as [->|?].
    + by rewrite decide_True.
    + by rewrite decide_False by (intros [? ?]; done).
  - by rewrite decide_False by (intros [? ?]; done).
Qed.

Lemma hlink_put_hlink d d0 h v s x :
  valid_hdr s h →
  hlink d (put_hlink d0 h v s) x =
    if decide (x = h ∧ d = d0) then Some v else hlink d s x.
Proof.
  intros [hd Hhd]%valid_hdr_lookup. unfold hlink, put_hlink.
  rewrite lookup_put_hdr. destruct (decide (x = h)) as [->|Hne].
  - rewrite Hhd. simpl. rewrite hdr_field_with.
    destruct (decide (d = d0)) as [->|?].
    + by rewrite decide_True.
    + by rewrite decide_False by (intros [? ?]; done).
  - by rewrite decide_False by (intros [? ?]; done).
Qed.

Lemma header_of_put_link d n v s x : header_of (put_link d n v s) x = header_of s x.
Proof.
  unfold header_of, put_link. rewrite lookup_put_node.
  destruct (decide (x = n)) as [->|]; [|done].
  destruct (nodes s !! n); [|done]. by destruct d.
Qed.
Lemma rowNumber_of_put_link d n v s x : rowNumber_of (put_link d n v s) x = rowNumber_of s x.
Proof.
  unfold rowNumber_of, put_link. rewrite lookup_put_node.
  destruct (decide (x = n)) as [->|]; [|done].
  destruct (nodes s !! n); [|done]. by destruct d.
Qed.
Lemma hlink_put_node d n f s x : hlink d (put_node n f s) x = hlink d s x.
Proof. done. Qed.
Lemma head_of_put_node n f s x : head_of (put_node n f s) x = head_of s x.
Proof. done. Qed.
Lemma length_of_put_node n f s x : length_of (put_node n f s) x = length_of s x.
Proof. done. Qed.
Lemma link_put_hdr d h f s x : link d (put_hdr h f s) x = link d s x.
Proof. done. Qed.
Lemma header_of_put_hdr h f s x : header_of (put_hdr h f s) x = header_of s x.
Proof. done. Qed.
Lemma rowNumber_of_put_hdr h f s x : rowNumber_of (put_hdr h f s) x = rowNumber_of s x.
Proof. done. Qed.

Lemma head_of_put_hlink d h v s x : head_of (put_hlink d h v s) x = head_of s x.
Proof.
  unfold head_of, put_hlink. rewrite lookup_put_hdr.
  destruct (decide (x = h)) as [->|]; [|done].
  destruct (hdrs s !! h); [|done]. by destruct d.
Qed.
Lemma length_of_put_hlink d h v s x : length_of (put_hlink d h v s) x = length_of s x.
Proof.
  unfold length_of, put_hlink. rewrite lookup_put_hdr.
  destruct (decide (x = h)) as [->|]; [|done].
  destruct (hdrs s !! h); [|done]. by destruct d.
Qed.
Lemma hlink_put_length d h z s x : hlink d (put_length h z s) x = hlink d s x.
Proof.
  unfold hlink, put_length. rewrite lookup_put_hdr.
  destruct (decide (x = h)) as [->|]; [|done].
  destruct (hdrs s !! h); [|done]. by destruct d.
Qed.
Lemma head_of_put_length h z s x : head_of (put_length h z s) x = head_of s x.
Proof.
  unfold head_of, put_length. rewrite lookup_put_hdr.
  destruct (decide (x = h)) as [->|]; [|done].
  by destruct (hdrs s !! h).
Qed.
Lemma length_of_put_length h z s x :
  length_of (put_length h z s) x =
    if decide (x = h) then (λ l, l + z)%Z <$> length_of s h else length_of s x.
Proof.
  unfold length_of, put_length. rewrite lookup_put_hdr.
  destruct (decide (x = h)) as [->|]; [|done].
  by destruct (hdrs s !! h).
Qed.

(** Two heaps that have the same objects with the same properties are
    equal. *)
Lemma node_ext (a b : node) :
  (∀ d, node_field d a = node_field d b) →
  n_header a = n_header b → n_rowNumber a = n_rowNumber b → a = b.
Proof.
  intros H Hh Hr. destruct a, b. simpl in *.
  pose proof (H Up). pose proof (H Down). pose proof (H Left). pose proof (H Right).
  simpl in *. congruence.
Qed.
Lemma hdr_ext (a b : hdr) :
  (∀ d, hdr_field d a = hdr_field d b) →
  h_head a = h_head b → h_length a = h_length b → a = b.
Proof.
  intros H Hh Hr. destruct a, b. simpl in *.
  pose proof (H Prev). pose proof (H Next). simpl in *. congruence.
Qed.

Lemma heap_ext (s s' : heap) :
  length (nodes s) = length (nodes s') →
  length (hdrs s) = length (hdrs s') →
  (∀ d x, link d s x = link d s' x) →
  (∀ x, header_of s x = header_of s' x) →
  (∀ x, rowNumber_of s x = rowNumber_of s' x) →
  (∀ d x, hlink d s x = hlink d s' x) →
  (∀ x, head_of s x = head_of s' x) →
  (∀ x, length_of s x = length_of s' x) →
  s = s'.
Proof.
  intros Hn Hh Hl Hhd Hrn Hhl Hhe Hle. destruct s as [ns hs], s' as [ns' hs'].
  cbn [nodes hdrs] in *. f_equal.
  - apply list_eq. intros x.
    destruct (ns !! x) as [a|] eqn:Ea, (ns' !! x) as [b|] eqn:Eb.
    + f_equal. apply node_ext.
      * intros d. specialize (Hl d x). unfold link in Hl. cbn [nodes hdrs] in Hl.
        rewrite Ea, Eb in Hl. done.
      * specialize (Hhd x). unfold header_of in Hhd. cbn [nodes hdrs] in Hhd.
        by rewrite Ea, Eb in Hhd.
      * specialize (Hrn x). unfold rowNumber_of in Hrn. cbn [nodes hdrs] in Hrn.
        by rewrite Ea, Eb in Hrn.
    + apply lookup_lt_Some in Ea. apply lookup_ge_None in Eb. lia.
    + apply lookup_lt_Some in Eb. apply lookup_ge_None in Ea. lia.
    + done.
  - apply list_eq. intros x.
    destruct (hs !! x) as [a|] eqn:Ea, (hs' !! x) as [b|] eqn:Eb.
    + f_equal. apply hdr_ext.
      * intros d. specialize (Hhl d x). unfold hlink in Hhl. cbn [nodes hdrs] in Hhl.
        rewrite Ea, Eb in Hhl. done.
      * specialize (Hhe x). unfold head_of in Hhe. cbn [nodes hdrs] in Hhe.
        by rewrite Ea, Eb in Hhe.
      * specialize (Hle x). unfold length_of in Hle. cbn [nodes hdrs] in Hle.
        by rewrite Ea, Eb in Hle.
    + apply lookup_lt_Some in Ea. apply lookup_ge_None in Eb. lia.
    + apply lookup_lt_Some in Eb. apply lookup_ge_None in Ea. lia.
    + done.
Qed.

(** The same facts for the three named writes. *)
Lemma link_put_length d h z s x : link d (put_length h z s) x = link d s x.
Proof. done. Qed.
Lemma header_of_put_length h z s x : header_of (put_length h z s) x = header_of s x.
Proof. done. Qed.
Lemma rowNumber_of_put_length h z s x : rowNumber_of (put_length h z s) x = rowNumber_of s x.
Proof. done. Qed.
Lemma link_put_hlink d d0 h v s x : link d (put_hlink d0 h v s) x = link d s x.
Proof. done. Qed.
Lemma header_of_put_hlink d0 h v s x : header_of (put_hlink d0 h v s) x = header_of s x.
Proof. done. Qed.
Lemma rowNumber_of_put_hlink d0 h v s x : rowNumber_of (put_hlink d0 h v s) x = rowNumber_of s x.
Proof. done. Qed.
Lemma hlink_put_link d d0 n v s x : hlink d (put_link d0 n v s) x = hlink d s x.
Proof. done. Qed.
Lemma head_of_put_link d0 n v s x : head_of (put_link d0 n v s) x = head_of s x.
Proof. done. Qed.
Lemma length_of_put_link d0 n v s x : length_of (put_link d0 n v s) x = length_of s x.
Proof. done. Qed.

Lemma valid_node_put_link d n v s x : valid_node (put_link d n v s) x ↔ valid_node s x.
Proof. apply valid_node_put_node. Qed.
Lemma valid_node_put_hlink d h v s x : valid_node (put_hlink d h v s) x ↔ valid_node s x.
Proof. done. Qed.
Lemma valid_node_put_length h z s x : valid_node (put_length h z s) x ↔ valid_node s x.
Proof. done. Qed.
Lemma valid_hdr_put_link d n v s x : valid_hdr (put_link d n v s) x ↔ valid_hdr s x.
Proof. done. Qed.
Lemma valid_hdr_put_hlink d h v s x : valid_hdr (put_hlink d h v s) x ↔ valid_hdr s x.
Proof. apply valid_hdr_put_hdr. Qed.
Lemma valid_hdr_put_length h z s x : valid_hdr (put_length h z s) x ↔ valid_hdr s x.
Proof. apply valid_hdr_put_hdr. Qed.

Lemma length_nodes_put_link d n v s : length (nodes (put_link d n v s)) = length (nodes s).
Proof. apply length_nodes_put_node. Qed.
Lemma length_nodes_put_hlink d h v s : length (nodes (put_hlink d h v s)) = length (nodes s).
Proof. done. Qed.
Lemma length_nodes_put_length h z s : length (nodes (put_length h z s)) = length (nodes s).
Proof. done. Qed.
Lemma length_hdrs_put_link d n v s : length (hdrs (put_link d n v s)) = length (hdrs s).
Proof. done. Qed.
Lemma length_hdrs_put_hlink d h v s : length (hdrs (put_hlink d h v s)) = length (hdrs s).
Proof. apply length_hdrs_put_hdr. Qed.
Lemma length_hdrs_put_length h z s : length (hdrs (put_length h z s)) = length (hdrs s).
Proof. apply length_hdrs_put_hdr. Qed.

(** Rewriting with these lemmas computes what a heap built from writes
    holds. *)
Ltac heap_simpl :=
  repeat first
    [ rewrite link_put_length | rewrite header_of_put_length | rewrite rowNumber_of_put_length
    | rewrite link_put_hlink | rewrite header_of_put_hlink | rewrite rowNumber_of_put_hlink
    | rewrite hlink_put_link | rewrite head_of_put_link | rewrite length_of_put_link
    | rewrite header_of_put_link | rewrite rowNumber_of_put_link
    | rewrite head_of_put_hlink | rewrite length_of_put_hlink
    | rewrite hlink_put_length | rewrite head_of_put_length
    | rewrite length_nodes_put_link | rewrite length_nodes_put_hlink
    | rewrite length_nodes_put_length | rewrite length_hdrs_put_link
    | rewrite length_hdrs_put_hlink | rewrite length_hdrs_put_length
    | rewrite valid_node_put_link | rewrite valid_node_put_hlink
    | rewrite valid_node_put_length | rewrite valid_hdr_put_link
    | rewrite valid_hdr_put_hlink | rewrite valid_hdr_put_length ].

(** * Part III: doubly linked rings and the loops that walk them *)

Lemma last_cons_cons {A} (y a : A) l : List.last (y :: l) a = List.last l y.
Proof.
  revert y a. induction l as [|z l IH]; intros y a; [done|].
  change (List.last (y :: z :: l) a) with (List.last (z :: l) a).
  by rewrite !IH.
Qed.

Lemma last_elem_of {A} (a : A) l : List.last l a ∈ a :: l.
Proof.
  revert a. induction l as [|z l IH]; intros a; [set_solver|].
  rewrite last_cons_cons. pose proof (IH z). set_solver.
Qed.

Section chains.
Context (F B : nat → option nat).

(** [chain a l b]: following [F] from [a] one visits [l] and then reaches
    [b]; [B] is the inverse link on every step. *)
Fixpoint chain (a : nat) (l : list nat) (b : nat) : Prop :=
  match l with
  | [] => F a = Some b ∧ B b = Some a
  | x :: l' => F a = Some x ∧ B x = Some a ∧ chain x l' b
  end.

(** A ring anchored at [hd]: the walk from [hd] comes back to [hd] after
    visiting the pairwise different objects [l]. *)
Definition ring (hd : nat) (l : list nat) : Prop :=
  chain hd l hd ∧ NoDup (hd :: l).

Lemma chain_app a l1 x l2 b :
  chain a (l1 ++ x :: l2) b ↔ chain a l1 x ∧ chain x l2 b.
Proof.
  revert a. induction l1 as [|y l1 IH]; intros a; simpl.
  - tauto.
  - rewrite IH. tauto.
Qed.

Lemma chain_hd a l b : chain a l b → F a = Some (hd b l) ∧ B (hd b l) = Some a.
Proof. destruct l; simpl; tauto. Qed.

Lemma chain_last a l b :
  chain a l b → F (List.last l a) = Some b ∧ B b = Some (List.last l a).
Proof.
  revert a. induction l as [|y l IH]; intros a Hc; [simpl in *; tauto|].
  destruct Hc as (_ & _ & H). rewrite last_cons_cons. by apply IH.
Qed.

Lemma chain_ext_in (F' B' : nat → option nat) a l b :
  (∀ x, x ∈ a :: l → F' x = F x) →
  (∀ x, x ∈ l ++ [b] → B' x = B x) →
  chain a l b →
  match l with [] => F' a = Some b ∧ B' b = Some a
  | x :: l' => F' a = Some x ∧ B' x = Some a end.
Proof.
  intros HF HB H. destruct l as [|x l]; simpl in *.
  - rewrite HF, HB by set_solver. done.
  - rewrite HF, HB by set_solver. tauto.
Qed.

Lemma chain_valid a l b : chain a l b → ∀ x, x ∈ a :: l → is_Some (F x).
Proof.
  revert a. induction l as [|y l IH]; intros a; simpl.
  - intros [H _] x ->%list_elem_of_singleton. eauto.
  - intros (H & _ & Hc) x [->|Hx]%elem_of_cons; eauto.
Qed.

Lemma chain_valid_back a l b : chain a l b → ∀ x, x ∈ l ++ [b] → is_Some (B x).
Proof.
  revert a. induction l as [|y l IH]; intros a; simpl.
  - intros [_ H] x ->%list_elem_of_singleton. eauto.
  - intros (_ & H & Hc) x [->|Hx]%elem_of_cons; eauto.
Qed.

(** Two walks from the same object to the same end visit the same
    objects. *)
Lemma chain_unique a l l' b :
  chain a l b → chain a l' b → b ∉ l → b ∉ l' → l = l'.
Proof.
  revert a l'. induction l as [|x l IH]; intros a [|x' l']; simpl.
  - done.
  - intros [H1 _] (H2 & _) _ Hb. rewrite H1 in H2. injection H2 as <-. set_solver.
  - intros (H1 & _) [H2 _] Hb _. rewrite H1 in H2. injection H2 as ->. set_solver.
  - intros (H1 & _ & Hc) (H2 & _ & Hc') Hb Hb'.
    rewrite H1 in H2. injection H2 as <-. f_equal.
    apply (IH x); [done|done|set_solver|set_solver].
Qed.
End chains.

Lemma chain_ext (F B F' B' : nat → option nat) a l b :
  (∀ x, x ∈ a :: l → F' x = F x) →
  (∀ x, x ∈ l ++ [b] → B' x = B x) →
  chain F B a l b → chain F' B' a l b.
Proof.
  revert a. induction l as [|y l IH]; intros a HF HB; simpl.
  - rewrite HF, HB by set_solver. done.
  - intros (H1 & H2 & H3). rewrite HF, HB by set_solver.
    split_and!; [done|done|]. apply IH; [| |done]; intros; [apply HF|apply HB]; set_solver.
Qed.

Lemma chain_rev (F B : nat → option nat) a l b :
  chain F B a l b → chain B F b (rev l) a.
Proof.
  revert a. induction l as [|y l IH]; intros a; simpl.
  - tauto.
  - intros (H1 & H2 & H3). apply chain_app. split; [by apply IH|]. simpl. done.
Qed.

(** Redirecting the last step of a walk. *)
Lemma chain_relast (F B F' B' : nat → option nat) a l x y :
  chain F B a l x → NoDup (a :: l) →
  (∀ z, z ∈ a :: l → z ≠ List.last l a → F' z = F z) →
  (∀ z, z ∈ l → B' z = B z) →
  F' (List.last l a) = Some y → B' y = Some (List.last l a) →
  chain F' B' a l y.
Proof.
  revert a. induction l as [|z l IH]; intros a Hc Hnd HF HB HF' HB'.
  - done.
  - destruct Hc as (H1 & H2 & H3).
    rewrite (last_cons_cons z a l) in *. cbn [chain].
    apply NoDup_cons in Hnd as [Ha Hnd].
    pose proof (last_elem_of z l) as Hin.
    split_and!.
    + rewrite HF; [done|set_solver|]. intros ->. done.
    + rewrite HB; [done|set_solver].
    + apply IH; try done.
      * intros w Hw Hne. apply HF; [set_solver|done].
      * intros w Hw. apply HB. set_solver.
Qed.

(** Removing [x] from a ring: its predecessor [u] and successor [d] are
    linked to each other. *)
Lemma ring_unlink (F B F' B' : nat → option nat) hd l1 x l2 :
  ring F B hd (l1 ++ x :: l2) →
  let u := List.last l1 hd in
  let d := List.hd hd l2 in
  (∀ z, z ∈ hd :: l1 ++ l2 → F' z = if decide (z = u) then Some d else F z) →
  (∀ z, z ∈ hd :: l1 ++ l2 → B' z = if decide (z = d) then Some u else B z) →
  ring F' B' hd (l1 ++ l2).
Proof.
  intros [Hc Hnd] u d HF HB.
  assert (NoDup (hd :: l1 ++ l2)) as Hnd'.
  { apply NoDup_cons in Hnd as [H1 H2]. apply NoDup_cons. split; [set_solver|].
    apply NoDup_app in H2 as (? & ? & H3). apply NoDup_cons in H3 as [? ?].
    apply NoDup_app. split_and!; [done|set_solver|done]. }
  split; [|done].
  apply chain_app in Hc as [Hc1 Hc2].
  assert (u ∈ hd :: l1) as Hu by apply last_elem_of.
  assert (NoDup (hd :: l1)) as Hnd1.
  { apply NoDup_cons in Hnd' as [H1 H2]. apply NoDup_cons. split; [set_solver|].
    by apply NoDup_app in H2 as (? & ? & ?). }
  apply NoDup_cons in Hnd' as [Hhd Hnd'].
  apply NoDup_app in Hnd' as (Hn1 & Hdisj & Hn2).
  destruct l2 as [|y l2]; simpl in *.
  - rewrite app_nil_r in *. subst d.
    eapply chain_relast; [exact Hc1|done|..].
    + intros z Hz Hne. rewrite HF by done. by rewrite decide_False.
    + intros z Hz. rewrite HB by set_solver. rewrite decide_False; [done|set_solver].
    + rewrite HF by done. by rewrite decide_True.
    + rewrite HB by set_solver. by rewrite decide_True.
  - subst d. destruct Hc2 as (H1 & H2 & H3).
    apply chain_app. split.
    + eapply chain_relast; [exact Hc1|done|..].
      * intros z Hz Hne. rewrite HF by set_solver. by rewrite decide_False.
      * intros z Hz. rewrite HB by set_solver. rewrite decide_False; [done|].
        intros ->. apply (Hdisj y); set_solver.
      * rewrite HF by set_solver. by rewrite decide_True.
      * rewrite HB by set_solver. by rewrite decide_True.
    + eapply chain_ext; [| |exact H3].
      * intros z Hz. rewrite HF by set_solver. rewrite decide_False; [done|].
        intros ->. apply elem_of_cons in Hu as [Hu|Hu].
        -- rewrite Hu in Hz. set_solver.
        -- apply (Hdisj u); set_solver.
      * intros z Hz. rewrite HB.
        -- rewrite decide_False; [done|]. intros ->.
           apply NoDup_cons in Hn2 as [? ?].
           apply elem_of_app in Hz as [Hz|Hz]; [done|]. set_solver.
        -- set_solver.
Qed.

Lemma ring_unlink_links (F B : nat → option nat) hd l1 x l2 :
  ring F B hd (l1 ++ x :: l2) →
  let u := List.last l1 hd in
  let d := List.hd hd l2 in
  F x = Some d ∧ B x = Some u ∧ F u = Some x ∧ B d = Some x ∧ u ≠ x ∧ d ≠ x.
Proof.
  intros [Hc Hnd] u d.
  apply chain_app in Hc as [Hc1 Hc2].
  apply chain_last in Hc1 as [? ?]. apply chain_hd in Hc2 as [? ?].
  split_and!; try done.
  - assert (u ∈ hd :: l1) as Hu by apply last_elem_of.
    intros E. rewrite E in Hu.
    apply NoDup_cons in Hnd as [Hn1 Hn2]. apply elem_of_cons in Hu as [->|Hu]; [set_solver|].
    apply NoDup_app in Hn2 as (_ & Hn2 & _). apply (Hn2 x); set_solver.
  - subst d. intros E. apply NoDup_cons in Hnd as [Hn1 Hn2].
    apply NoDup_app in Hn2 as (_ & _ & Hn2). apply NoDup_cons in Hn2 as [Hn2 _].
    destruct l2; simpl in *; set_solver.
Qed.

(** ** Loops *)

Section loops.
Context {σ : Type} (hp : σ → heap).

Lemma eachNode_from_stop fuel node d (fn : addr → σ → outcome σ) st :
  eachNode_from hp (S fuel) node d fn node st = Ok st.
Proof. simpl. by rewrite decide_True. Qed.

Lemma eachNode_from_step fuel node d (fn : addr → σ → outcome σ) n st st' n' :
  n ≠ node → fn n st = Ok st' → link d (hp st') n = Some n' →
  eachNode_from hp (S fuel) node d fn n st = eachNode_from hp fuel node d fn n' st'.
Proof. intros Hne Hfn Hl. simpl. rewrite decide_False by done. rewrite Hfn. simpl. by rewrite Hl. Qed.

Lemma eachHeader_from_stop fuel node d (fn : addr → σ → outcome σ) st :
  eachHeader_from hp (S fuel) node d fn node st = Ok st.
Proof. simpl. by rewrite decide_True. Qed.

Lemma eachHeader_from_step fuel node d (fn : addr → σ → outcome σ) n st st' n' :
  n ≠ node → fn n st = Ok st' → hlink d (hp st') n = Some n' →
  eachHeader_from hp (S fuel) node d fn n st = eachHeader_from hp fuel node d fn n' st'.
Proof. intros Hne Hfn Hl. simpl. rewrite decide_False by done. rewrite Hfn. simpl. by rewrite Hl. Qed.

(** A loop whose callback keeps an invariant indexed by the objects still
    to visit. *)
Lemma eachNode_from_inv (P : list addr → σ → Prop) node d (fn : addr → σ → outcome σ) :
  (∀ x todo st, P (x :: todo) st →
     x ≠ node ∧ ∃ st', fn x st = Ok st' ∧ link d (hp st') x = Some (List.hd node todo) ∧ P todo st') →
  ∀ todo fuel st, length todo < fuel → P todo st →
  ∃ st', eachNode_from hp fuel node d fn (List.hd node todo) st = Ok st' ∧ P [] st'.
Proof.
  intros Hstep todo. induction todo as [|x todo IH]; intros fuel st Hf HP.
  - destruct fuel; [simpl in Hf; lia|]. exists st. split; [apply eachNode_from_stop|done].
  - destruct fuel; [simpl in Hf; lia|].
    destruct (Hstep _ _ _ HP) as (Hne & st' & Hfn & Hl & HP').
    simpl List.hd. rewrite (eachNode_from_step _ _ _ _ _ _ _ _ Hne Hfn Hl).
    apply IH; [simpl in Hf; lia|done].
Qed.

Lemma eachHeader_from_inv (P : list addr → σ → Prop) node d (fn : addr → σ → outcome σ) :
  (∀ x todo st, P (x :: todo) st →
     x ≠ node ∧ ∃ st', fn x st = Ok st' ∧ hlink d (hp st') x = Some (List.hd node todo) ∧ P todo st') →
  ∀ todo fuel st, length todo < fuel → P todo st →
  ∃ st', eachHeader_from hp fuel node d fn (List.hd node todo) st = Ok st' ∧ P [] st'.
Proof.
  intros Hstep todo. induction todo as [|x todo IH]; intros fuel st Hf HP.
  - destruct fuel; [simpl in Hf; lia|]. exists st. split; [apply eachHeader_from_stop|done].
  - destruct fuel; [simpl in Hf; lia|].
    destruct (Hstep _ _ _ HP) as (Hne & st' & Hfn & Hl & HP').
    simpl List.hd. rewrite (eachHeader_from_step _ _ _ _ _ _ _ _ Hne Hfn Hl).
    apply IH; [simpl in Hf; lia|done].
Qed.
End loops.

(** ** A loop and the loop that undoes it

    [path p xs s s']: running [fn] on the objects [xs] in turn leads from the
    heap [s] to [s']; at every step [gn] undoes [fn] exactly, the [d] link of
    the object just handled leads to the next one and its [d'] link leads
    back to the previous one ([p] for the first). *)
Section path.
Context {σ : Type} (hp : σ → heap) (wh : σ → heap → σ).
Context (fn gn : addr → heap → outcome heap).
Context (Fn Gn : addr → σ → outcome σ).
Context (d d' : dir) (node : addr).
Hypothesis hp_wh : ∀ st s, hp (wh st s) = s.
Hypothesis wh_wh : ∀ st s s', wh (wh st s) s' = wh st s'.
Hypothesis wh_hp : ∀ st, wh st (hp st) = st.
Hypothesis Fn_fn : ∀ x st s1, fn x (hp st) = Ok s1 → Fn x st = Ok (wh st s1).
Hypothesis Gn_gn : ∀ x st s1, gn x (hp st) = Ok s1 → Gn x st = Ok (wh st s1).

Inductive path : addr → list addr → heap → heap → Prop :=
  | path_nil p s : path p [] s s
  | path_cons p x xs s s1 s' :
      x ≠ node →
      fn x s = Ok s1 → link d s1 x = Some (List.hd node xs) →
      gn x s1 = Ok s → link d' s x = Some p →
      path x xs s1 s' →
      path p (x :: xs) s s'.

Lemma path_forward p xs s s' :
  path p xs s s' →
  ∀ fuel st, length xs < fuel → hp st = s →
  eachNode_from hp fuel node d Fn (List.hd node xs) st = Ok (wh st s').
Proof using hp_wh wh_wh wh_hp Fn_fn.
  induction 1 as [p s|p x xs s s1 s' Hne Hfn Hl Hgn Hl' Hp IH]; intros fuel st Hf Hs.
  - destruct fuel; [simpl in Hf; lia|]. simpl List.hd.
    rewrite eachNode_from_stop. by rewrite <- Hs, wh_hp.
  - destruct fuel; [simpl in Hf; lia|]. simpl List.hd.
    rewrite <- Hs in Hfn. apply Fn_fn in Hfn.
    erewrite (eachNode_from_step hp); [|exact Hne|exact Hfn|by rewrite hp_wh].
    rewrite IH; [by rewrite wh_wh|simpl in Hf; lia|by rewrite hp_wh].
Qed.

Lemma path_backward p xs s s' :
  path p xs s s' →
  ∀ fuel st, hp st = s' →
  eachNode_from hp (length xs + fuel) node d' Gn (List.last xs p) st =
  eachNode_from hp fuel node d' Gn p (wh st s).
Proof using hp_wh wh_wh wh_hp Gn_gn.
  induction 1 as [p s|p x xs s s1 s' Hne Hfn Hl Hgn Hl' Hp IH]; intros fuel st Hs.
  - simpl. by rewrite <- Hs, wh_hp.
  - rewrite (last_cons_cons x p xs).
    replace (length (x :: xs) + fuel) with (length xs + S fuel) by (simpl; lia).
    rewrite IH by done.
    assert (Gn x (wh st s1) = Ok (wh st s)) as HG.
    { rewrite <- (wh_wh st s1 s). apply Gn_gn. by rewrite hp_wh. }
    erewrite (eachNode_from_step hp); [done|exact Hne|exact HG|by rewrite hp_wh].
Qed.

Lemma path_eachNode xs s s' fuel st :
  path node xs s s' → length xs < fuel → hp st = s →
  link d s node = Some (List.hd node xs) →
  eachNode hp fuel node d Fn st = Ok (wh st s').
Proof using hp_wh wh_wh wh_hp Fn_fn.
  intros Hp Hf Hs Hl. unfold eachNode. rewrite Hs, Hl. simpl.
  by eapply path_forward.
Qed.

Lemma path_eachNode_back xs s s' fuel st :
  path node xs s s' → length xs < fuel → hp st = s' →
  link d' s' node = Some (List.last xs node) →
  eachNode hp fuel node d' Gn st = Ok (wh st s).
Proof using hp_wh wh_wh wh_hp Gn_gn.
  intros Hp Hf Hs Hl. unfold eachNode. rewrite Hs, Hl. simpl.
  replace fuel with (length xs + S (fuel - length xs - 1)) by lia.
  rewrite (path_backward _ _ _ _ Hp) by done.
  apply eachNode_from_stop.
Qed.
End path.

(** * Part IV: the linked structure of a matrix *)

Definition nrows (m : matrix) : nat := length m.

(** The number of columns is the length of the first row. *)
Definition ncols (m : matrix) : nat :=
  match m !! 0 with
  | Some row0 => length row0
  | None => 0
  end.

(** [present m i j]: the cell of row [i] and column [j] is truthy and [j] is
    one of the columns that [solve] creates. *)
Definition present (m : matrix) (i j : nat) : bool :=
  bool_decide (j < ncols m) &&
  match m !! i ≫= (λ row, row !! j) with
  | Some v => truthy v
  | None => false
  end.

(** Where the objects of a structure are: the root, the header and the head
    node of every column, the node of every present cell. *)
Record layout := Layout {
  rootA : addr;
  colA : nat → addr;
  headA : nat → addr;
  cellA : nat → nat → addr
}.

Record layout_ok (m : matrix) (L : layout) : Prop := {
  lo_col : ∀ j j', j < ncols m → j' < ncols m → colA L j = colA L j' → j = j';
  lo_root : ∀ j, j < ncols m → colA L j ≠ rootA L;
  lo_head : ∀ j j', j < ncols m → j' < ncols m → headA L j = headA L j' → j = j';
  lo_cell_head : ∀ i j j', present m i j → j' < ncols m → cellA L i j ≠ headA L j';
  lo_cell : ∀ i j i' j', present m i j → present m i' j' →
      cellA L i j = cellA L i' j' → i = i' ∧ j = j'
}.

(** The columns of row [i] that hold a node, in the order in which the
    [right] links visit them from column [j]. *)
Definition sibs (m : matrix) (i j : nat) : list nat :=
  filter (λ j', present m i j') (seq (S j) (ncols m - S j)) ++
  filter (λ j', present m i j') (seq 0 j).

(** What [cover] and [uncover] never change: the header and row number of
    every node, the ring of every row, the head of every column. *)
Record static (m : matrix) (L : layout) (s : heap) : Prop := {
  st_layout : layout_ok m L;
  st_head : ∀ j, j < ncols m → head_of s (colA L j) = Some (headA L j);
  st_header : ∀ i j, present m i j → header_of s (cellA L i j) = Some (colA L j);
  st_rowNumber : ∀ i j, present m i j → rowNumber_of s (cellA L i j) = Some i;
  st_row : ∀ i j, present m i j →
      chain (link Right s) (link Left s) (cellA L i j) (cellA L i <$> sibs m i j) (cellA L i j)
}.

(** Column [j] holds the nodes of the rows [V j], top to bottom, and its
    [length] is their number. *)
Definition col_ok (m : matrix) (L : layout) (s : heap) (V : nat → list nat) (j : nat) : Prop :=
  ring (link Down s) (link Up s) (headA L j) ((λ i, cellA L i j) <$> V j) ∧
  length_of s (colA L j) = Some (Z.of_nat (length (V j))) ∧
  (∀ i, i ∈ V j → present m i j).

(** The header ring holds the columns [C]; the columns [D] hold the rows
    given by [V]. *)
Record vrep (m : matrix) (L : layout) (s : heap) (C D : list nat) (V : nat → list nat) : Prop := {
  vr_static : static m L s;
  vr_hring : ring (hlink Next s) (hlink Prev s) (rootA L) (colA L <$> C);
  vr_C : ∀ j, j ∈ C → j < ncols m;
  vr_D : ∀ j, j ∈ D → j < ncols m;
  vr_cols : ∀ j, j ∈ D → col_ok m L s V j
}.

Definition col_rows (m : matrix) (R : list nat) (j : nat) : list nat :=
  filter (λ i, present m i j) R.

(** The state of the search: the columns [C] are still to be covered, the
    rows [R] are the candidate rows left; every node of a candidate row is
    linked in its column, which is in the ring. *)
Record rep (m : matrix) (L : layout) (s : heap) (C R : list nat) : Prop := {
  rep_vrep : vrep m L s C C (col_rows m R);
  rep_R_nodup : NoDup R;
  rep_R_closed : ∀ i j, i ∈ R → present m i j → j ∈ C
}.

(** A well-formed linked structure with root [root]: it represents some
    state of the search on some matrix. *)
Definition well_formed (s : heap) (root : addr) : Prop :=
  ∃ m L C R, rootA L = root ∧ rep m L s C R.

(** The column header [c] is linked into the ring of [root]. *)
Definition linked (s : heap) (root c : addr) : Prop :=
  ∃ l, ring (hlink Next s) (hlink Prev s) root l ∧ c ∈ l.

(** ** Basic facts *)

Lemma present_lt m i j : present m i j → j < ncols m ∧ i < nrows m.
Proof.
  unfold present. intros [H1 H2]%andb_prop_elim. apply bool_decide_unpack in H1.
  split; [done|]. unfold nrows. destruct (m !! i) eqn:E; [|done].
  by apply lookup_lt_Some in E.
Qed.

Lemma elem_of_sibs m i j j' :
  j' ∈ sibs m i j ↔ present m i j' ∧ j' ≠ j.
Proof.
  unfold sibs. rewrite elem_of_app, !list_elem_of_filter, !elem_of_seq. split.
  - intros [[? ?]|[? ?]]; split; try done; lia.
  - intros [H1 H2]. pose proof (present_lt _ _ _ H1) as [? ?].
    destruct (decide (j' < j)); [right|left]; split; try done; lia.
Qed.

Lemma NoDup_sibs m i j : NoDup (sibs m i j).
Proof.
  unfold sibs. apply NoDup_app. split_and!.
  - apply NoDup_filter, NoDup_seq.
  - intros x [_ H1%elem_of_seq]%list_elem_of_filter [_ H2%elem_of_seq]%list_elem_of_filter. lia.
  - apply NoDup_filter, NoDup_seq.
Qed.

Lemma NoDup_bounded_length (l : list nat) n :
  NoDup l → (∀ x, x ∈ l → x < n) → length l ≤ n.
Proof.
  intros Hnd Hb. rewrite <- (length_seq n 0). apply submseteq_length.
  apply NoDup_submseteq; [done|]. intros x Hx. apply elem_of_seq. specialize (Hb x Hx). lia.
Qed.

Lemma length_sibs m i j : length (sibs m i j) < S (ncols m).
Proof.
  apply Nat.lt_succ_r, NoDup_bounded_length; [apply NoDup_sibs|].
  intros x [Hx _]%elem_of_sibs. by apply present_lt in Hx as [? ?].
Qed.

Lemma filter_all {A} (P : A → Prop) `{!∀ x, Decision (P x)} (l : list A) :
  Forall P l → filter P l = l.
Proof.
  induction 1 as [|x l Hx Hl IH]; [done|]. by rewrite filter_cons_True, IH.
Qed.

Lemma filter_ext_in {A} (P Q : A → Prop) `{!∀ x, Decision (P x)} `{!∀ x, Decision (Q x)}
    (l : list A) :
  (∀ x, x ∈ l → P x ↔ Q x) → filter P l = filter Q l.
Proof.
  induction l as [|x l IH]; intros Hpq; [done|].
  rewrite !filter_cons. rewrite IH by (intros; apply Hpq; set_solver).
  destruct (decide (P x)) as [HP|HP], (decide (Q x)) as [HQ|HQ]; try done.
  - apply Hpq in HP; [done|set_solver].
  - apply Hpq in HQ; [done|set_solver].
Qed.

Lemma filter_ne_split (l1 l2 : list nat) i :
  NoDup (l1 ++ i :: l2) → filter (λ i', i' ≠ i) (l1 ++ i :: l2) = l1 ++ l2.
Proof.
  intros Hnd. apply NoDup_app in Hnd as (H1 & H2 & H3). apply NoDup_cons in H3 as [H3 H4].
  rewrite filter_app, filter_cons_False by naive_solver.
  rewrite !filter_all; [done| |].
  - apply Forall_forall. intros x Hx ->. done.
  - apply Forall_forall. intros x Hx ->. apply (H2 i); set_solver.
Qed.

(** ** [cover_node] and [uncover_node] on a linked node *)

Lemma cover_node_eval s x u d h :
  link Up s x = Some u → link Down s x = Some d → x ≠ u → x ≠ d →
  header_of s x = Some h → valid_hdr s h → valid_node s u → valid_node s d →
  cover_node x s = Ok (put_length h (-1) (put_link Up d u (put_link Down u d s))).
Proof.
  intros Hu Hd Hxu Hxd Hh Vh Vu Vd. unfold cover_node.
  rewrite Hu, Hd. simpl. rewrite set_link_ok by done. simpl.
  rewrite !link_put_link by done.
  rewrite !decide_False by (intros [? ?]; done).
  rewrite Hu, Hd. simpl. rewrite set_link_ok by (by heap_simpl). simpl.
  heap_simpl. rewrite Hh. simpl.
  by rewrite add_length_ok by (by heap_simpl).
Qed.

Lemma uncover_node_eval s x u d h :
  link Up s x = Some u → link Down s x = Some d → x ≠ u →
  header_of s x = Some h → valid_hdr s h → valid_node s u → valid_node s d →
  uncover_node x s = Ok (put_link Up d x (put_link Down u x (put_length h 1 s))).
Proof.
  intros Hu Hd Hxu Hh Vh Vu Vd. unfold uncover_node.
  rewrite Hh. simpl. rewrite add_length_ok by done. simpl.
  heap_simpl. rewrite Hu. simpl.
  rewrite set_link_ok by (by heap_simpl). simpl.
  rewrite link_put_link by (by heap_simpl). rewrite decide_False by (intros [? ?]; done).
  heap_simpl. rewrite Hd. simpl.
  by rewrite set_link_ok by (by heap_simpl).
Qed.

(** What a heap holds after [cover_node] has run. *)
Lemma link_covered s u d h dd y :
  valid_node s u → valid_node s d →
  link dd (put_length h (-1) (put_link Up d u (put_link Down u d s))) y =
    if decide (y = d ∧ dd = Up) then Some u
    else if decide (y = u ∧ dd = Down) then Some d
    else link dd s y.
Proof.
  intros Vu Vd. heap_simpl. rewrite link_put_link by (by heap_simpl).
  destruct (decide (y = d ∧ dd = Up)); [done|].
  by rewrite link_put_link by done.
Qed.

Lemma cover_node_inverse s x u d h :
  link Up s x = Some u → link Down s x = Some d →
  link Down s u = Some x → link Up s d = Some x → x ≠ u → x ≠ d →
  header_of s x = Some h → valid_hdr s h →
  uncover_node x (put_length h (-1) (put_link Up d u (put_link Down u d s))) = Ok s.
Proof.
  intros Hu Hd Hux Hdx Hxu Hxd Hh Vh.
  assert (valid_node s u) as Vu by (by eapply link_valid).
  assert (valid_node s d) as Vd by (by eapply link_valid).
  rewrite (uncover_node_eval _ x u d h).
  - f_equal. apply heap_ext.
    + by heap_simpl.
    + by heap_simpl.
    + intros dd y. rewrite link_put_link by (by heap_simpl).
      destruct (decide (y = d ∧ dd = Up)) as [[-> ->]|?]; [done|].
      rewrite link_put_link by (by heap_simpl).
      destruct (decide (y = u ∧ dd = Down)) as [[-> ->]|?]; [done|].
      heap_simpl. rewrite !link_put_link by (by heap_simpl).
      by rewrite !decide_False by done.
    + intros y. by heap_simpl.
    + intros y. by heap_simpl.
    + intros dd y. by heap_simpl.
    + intros y. by heap_simpl.
    + intros y. heap_simpl. rewrite !length_of_put_length.
      destruct (decide (y = h)) as [->|?]; [|done].
      rewrite decide_True by done. heap_simpl.
      destruct (length_of s h); [|done]. simpl. f_equal. lia.
  - rewrite link_covered by done. by rewrite !decide_False by (intros [? ?]; done).
  - rewrite link_covered by done. by rewrite !decide_False by (intros [? ?]; done).
  - done.
  - by heap_simpl.
  - by heap_simpl.
  - by heap_simpl.
  - by heap_simpl.
Qed.

(** ** Frames *)

Lemma ring_ext (F B F' B' : nat → option nat) hd l :
  (∀ x, x ∈ hd :: l → F' x = F x) →
  (∀ x, x ∈ hd :: l → B' x = B x) →
  ring F B hd l → ring F' B' hd l.
Proof.
  intros HF HB [Hc Hnd]. split; [|done].
  eapply chain_ext; [exact HF| |exact Hc]. intros x Hx. apply HB. set_solver.
Qed.

Lemma static_frame m L s s' :
  (∀ x, header_of s' x = header_of s x) →
  (∀ x, rowNumber_of s' x = rowNumber_of s x) →
  (∀ x, head_of s' x = head_of s x) →
  (∀ x, link Right s' x = link Right s x) →
  (∀ x, link Left s' x = link Left s x) →
  static m L s → static m L s'.
Proof.
  intros H1 H2 H3 H4 H5 [Hl Hhd Hh Hr Hrow]. split.
  - done.
  - intros j Hj. rewrite H3. by apply Hhd.
  - intros i j Hp. rewrite H1. by apply Hh.
  - intros i j Hp. rewrite H2. by apply Hr.
  - intros i j Hp. eapply chain_ext; [| |by apply Hrow]; intros; [apply H4|apply H5].
Qed.

(** The objects of column [j]: its head and the nodes of its cells. *)
Definition col_addr (m : matrix) (L : layout) (j : nat) (z : addr) : Prop :=
  z = headA L j ∨ ∃ i, present m i j ∧ z = cellA L i j.

Lemma col_addr_inj m L j j' z :
  layout_ok m L → j < ncols m → j' < ncols m →
  col_addr m L j z → col_addr m L j' z → j = j'.
Proof.
  intros HL Hj Hj' [->|(i & Hp & ->)] [E|(i' & Hp' & E)].
  - by eapply lo_head.
  - symmetry in E. by apply (lo_cell_head _ _ HL) in E.
  - by apply (lo_cell_head _ _ HL) in E.
  - by destruct (lo_cell _ _ HL _ _ _ _ Hp Hp' E).
Qed.

Lemma col_addr_ring m L s V j z :
  col_ok m L s V j → z ∈ headA L j :: ((λ i, cellA L i j) <$> V j) → col_addr m L j z.
Proof.
  intros (_ & _ & Hp) [->|Hz]%elem_of_cons; [by left|].
  apply list_elem_of_fmap in Hz as (i & -> & Hi). right. eauto.
Qed.

Lemma hd_elem_of {A} (a : A) l : List.hd a l ∈ a :: l.
Proof. destruct l; set_solver. Qed.

Lemma vrep_ext m L s C D V V' :
  (∀ j, j ∈ D → V' j = V j) → vrep m L s C D V → vrep m L s C D V'.
Proof.
  intros HV [H1 H2 H3 H4 H5]. split; try done.
  intros j Hj. specialize (H5 j Hj). unfold col_ok in *. by rewrite HV.
Qed.

Lemma vrep_weaken m L s C D D' V :
  D' ⊆ D → vrep m L s C D V → vrep m L s C D' V.
Proof. intros HD [H1 H2 H3 H4 H5]. split; try done; intros; [apply H4|apply H5]; set_solver. Qed.

(** ** One step of [cover]: a node leaves its column *)

Lemma cover_node_step m L s C D V j i :
  vrep m L s C D V → j ∈ D → i ∈ V j →
  ∃ s', cover_node (cellA L i j) s = Ok s' ∧
        uncover_node (cellA L i j) s' = Ok s ∧
        vrep m L s' C D (λ j', if decide (j' = j) then filter (λ i', i' ≠ i) (V j) else V j').
Proof.
  intros [Hst Hhr HC HD Hcols] Hj Hi.
  pose proof (Hcols j Hj) as Hcol. destruct Hcol as (Hring & Hlen & Hpres).
  pose proof (st_layout _ _ _ Hst) as HL.
  apply list_elem_of_split in Hi as (l1 & l2 & HV).
  assert (NoDup (V j)) as Hnd.
  { destruct Hring as [_ Hnd]. apply NoDup_cons in Hnd as [_ Hnd]. by apply NoDup_fmap_1 in Hnd. }
  assert (present m i j) as Hp by (apply Hpres; rewrite HV; set_solver).
  set (x := cellA L i j). set (hd := headA L j).
  set (c1 := (λ i, cellA L i j) <$> l1). set (c2 := (λ i, cellA L i j) <$> l2).
  assert (ring (link Down s) (link Up s) hd (c1 ++ x :: c2)) as Hring'.
  { subst c1 c2 x hd. by rewrite HV, fmap_app, fmap_cons in Hring. }
  set (u := List.last c1 hd). set (d := List.hd hd c2).
  destruct (ring_unlink_links _ _ _ _ _ _ Hring') as (Hd & Hu & Hux & Hdx & Hnu & Hnd').
  fold u d in Hd, Hu, Hux, Hdx, Hnu, Hnd'.
  assert (valid_node s u) as Vu by (by eapply link_valid).
  assert (valid_node s d) as Vd by (by eapply link_valid).
  assert (header_of s x = Some (colA L j)) as Hh by (by apply (st_header _ _ _ Hst)).
  assert (valid_hdr s (colA L j)) as Vh by (by eapply length_of_valid).
  assert (u ∈ hd :: c1) as Hu_in by apply last_elem_of.
  assert (d ∈ hd :: c2) as Hd_in by apply hd_elem_of.
  assert (col_addr m L j u) as Cu.
  { eapply col_addr_ring; [exact (Hcols j Hj)|]. rewrite HV, fmap_app, fmap_cons.
    change (u ∈ hd :: c1 ++ x :: c2). set_solver. }
  assert (col_addr m L j d) as Cd.
  { eapply col_addr_ring; [exact (Hcols j Hj)|]. rewrite HV, fmap_app, fmap_cons.
    change (d ∈ hd :: c1 ++ x :: c2). set_solver. }
  eexists. split; [by apply (cover_node_eval s x u d (colA L j))|].
  split; [by apply cover_node_inverse|].
  set (s' := put_length _ _ _).
  split.
  - eapply static_frame; [..|exact Hst]; intros y; subst s'; try (by heap_simpl).
    + rewrite link_covered by done. by rewrite !decide_False by (intros [? ?]; done).
    + rewrite link_covered by done. by rewrite !decide_False by (intros [? ?]; done).
  - eapply ring_ext; [| |exact Hhr]; intros y _; subst s'; by heap_simpl.
  - done.
  - done.
  - intros j' Hj'. unfold col_ok. destruct (decide (j' = j)) as [->|Hne].
    + rewrite HV, filter_ne_split by (by rewrite <- HV). split_and!.
      * rewrite fmap_app. fold c1 c2 hd.
        eapply ring_unlink; [exact Hring'|..]; fold u d; intros z Hz; subst s';
          rewrite link_covered by done.
        -- rewrite decide_False by (intros [? ?]; done).
           destruct (decide (z = u)) as [->|?].
           ++ by rewrite decide_True.
           ++ by rewrite decide_False by (intros [? ?]; done).
        -- destruct (decide (z = d)) as [->|?].
           ++ by rewrite decide_True.
           ++ by rewrite !decide_False by (intros [? ?]; done).
      * subst s'. rewrite length_of_put_length, decide_True by done. heap_simpl.
        rewrite Hlen, HV. simpl. f_equal. rewrite !length_app. simpl. lia.
      * intros i' Hi'. apply Hpres. rewrite HV. set_solver.
    + destruct (Hcols j' Hj') as (Hring2 & Hlen2 & Hpres2). split_and!; [|  |done].
      * eapply ring_ext; [| |exact Hring2]; intros z Hz; subst s';
          rewrite link_covered by done.
        -- rewrite decide_False by (intros [? ?]; done).
           rewrite decide_False; [done|]. intros [-> _]. apply Hne.
           eapply (col_addr_inj m L j' j u); eauto using col_addr_ring.
        -- rewrite decide_False; [by rewrite decide_False by (intros [? ?]; done)|].
           intros [-> _]. apply Hne.
           eapply (col_addr_inj m L j' j d); eauto using col_addr_ring.
      * subst s'. rewrite length_of_put_length, decide_False; [by heap_simpl|].
        intros E. apply Hne. eapply lo_col; eauto.
Qed.

(** ** The inner loops of [cover] and [uncover]: one row *)

Lemma last_fmap_snoc {A} (f : A → nat) pre x d : List.last (f <$> (pre ++ [x])) d = f x.
Proof. rewrite fmap_app. simpl. apply last_last. Qed.

Lemma cell_ne m L i j j0 :
  layout_ok m L → present m i j → present m i j0 → j ≠ j0 → cellA L i j ≠ cellA L i j0.
Proof. intros HL Hp Hp0 Hne E. by destruct (lo_cell _ _ HL _ _ _ _ Hp Hp0 E). Qed.

Lemma cover_row_path m L s C D V i j0 pre todo :
  vrep m L s C D V → present m i j0 → sibs m i j0 = pre ++ todo →
  (∀ j, j ∈ todo → j ∈ D ∧ i ∈ V j) →
  ∃ s', path cover_node uncover_node Right Left (cellA L i j0)
          (List.last (cellA L i <$> pre) (cellA L i j0)) (cellA L i <$> todo) s s' ∧
        vrep m L s' C D (λ j, if decide (j ∈ todo) then filter (λ i', i' ≠ i) (V j) else V j).
Proof.
  intros Hrep Hp0. revert s V pre Hrep.
  induction todo as [|j rest IH]; intros s V pre Hrep Hsibs Htodo.
  - exists s. split; [constructor|]. eapply vrep_ext; [|exact Hrep].
    intros j _. by rewrite decide_False by set_solver.
  - destruct (Htodo j) as [HjD HiV]; [set_solver|].
    destruct (cover_node_step m L s C D V j i Hrep HjD HiV) as (s1 & Hfn & Hgn & Hrep1).
    pose proof (NoDup_sibs m i j0) as Hnd. rewrite Hsibs in Hnd.
    assert (j ∉ rest) as Hjrest.
    { apply NoDup_app in Hnd as (_ & _ & Hnd). by apply NoDup_cons in Hnd as [? _]. }
    assert (present m i j ∧ j ≠ j0) as [Hpj Hjj0].
    { apply elem_of_sibs. rewrite Hsibs. set_solver. }
    destruct (IH s1 _ (pre ++ [j]) Hrep1) as (s' & Hpath & Hrep').
    { by rewrite <- app_assoc. }
    { intros j' Hj'. destruct (Htodo j') as [? ?]; [set_solver|]. split; [done|].
      rewrite decide_False; [done|]. intros ->. done. }
    exists s'. split.
    + pose proof (st_row _ _ _ (vr_static _ _ _ _ _ _ Hrep) i j0 Hp0) as Hrow.
      pose proof (st_row _ _ _ (vr_static _ _ _ _ _ _ Hrep1) i j0 Hp0) as Hrow1.
      rewrite Hsibs, fmap_app, fmap_cons in Hrow, Hrow1.
      apply chain_app in Hrow as [Hrow _]. apply chain_app in Hrow1 as [_ Hrow1].
      rewrite fmap_cons. apply path_cons with (s1 := s1); [|exact Hfn| |exact Hgn| |].
      * apply (cell_ne m L); [by apply (vr_static _ _ _ _ _ _ Hrep)|done..].
      * by apply chain_hd in Hrow1 as [? _].
      * by apply chain_last in Hrow as [_ ?].
      * rewrite last_fmap_snoc in Hpath. exact Hpath.
    + eapply vrep_ext; [|exact Hrep']. intros j' _. simpl.
      destruct (decide (j' = j)) as [->|Hne].
      * rewrite decide_True by set_solver. by rewrite decide_False.
      * destruct (decide (j' ∈ rest)).
        -- by rewrite decide_True by set_solver.
        -- by rewrite decide_False by set_solver.
Qed.

(** ** The outer loops of [cover] and [uncover]: the rows of a column *)

Definition cover_row (fuel : nat) (rowNode : addr) (s : heap) : outcome heap :=
  eachNode id fuel rowNode Right cover_node s.
Definition uncover_row (fuel : nat) (rowNode : addr) (s : heap) : outcome heap :=
  eachNode id fuel rowNode Left uncover_node s.

Lemma cover_col_path m L s C D V j0 fuel pre todo :
  vrep m L s C D V → j0 ∈ D → ncols m < fuel → V j0 = pre ++ todo →
  (∀ i j, i ∈ todo → present m i j → j ≠ j0 → j ∈ D ∧ i ∈ V j) →
  ∃ s', path (cover_row fuel) (uncover_row fuel) Down Up (headA L j0)
          (List.last ((λ i, cellA L i j0) <$> pre) (headA L j0))
          ((λ i, cellA L i j0) <$> todo) s s' ∧
        vrep m L s' C D (λ j, if decide (j = j0) then V j else filter (λ i, i ∉ todo) (V j)).
Proof.
  intros Hrep Hj0 Hfuel. revert s V pre Hrep.
  induction todo as [|i rest IH]; intros s V pre Hrep HV Htodo.
  - exists s. split; [constructor|]. eapply vrep_ext; [|exact Hrep].
    intros j _. simpl. destruct (decide (j = j0)); [done|].
    apply filter_all, Forall_forall. set_solver.
  - pose proof (vr_static _ _ _ _ _ _ Hrep) as Hst.
    pose proof (st_layout _ _ _ Hst) as HL.
    destruct (vr_cols _ _ _ _ _ _ Hrep j0 Hj0) as (Hring & Hlen & Hpres).
    assert (present m i j0) as Hp0 by (apply Hpres; rewrite HV; set_solver).
    assert (NoDup (V j0)) as Hnd.
    { destruct Hring as [_ Hnd]. apply NoDup_cons in Hnd as [_ Hnd]. by apply NoDup_fmap_1 in Hnd. }
    assert (i ∉ rest) as Hirest.
    { rewrite HV in Hnd. apply NoDup_app in Hnd as (_ & _ & Hnd). by apply NoDup_cons in Hnd as [? _]. }
    destruct (cover_row_path m L s C D V i j0 [] (sibs m i j0) Hrep Hp0 eq_refl)
      as (s1 & Hpath1 & Hrep1).
    { intros j [Hpj Hne]%elem_of_sibs. apply Htodo; [set_solver|done..]. }
    pose proof (vr_static _ _ _ _ _ _ Hrep1) as Hst1.
    destruct (IH s1 _ (pre ++ [i]) Hrep1) as (s' & Hpath & Hrep').
    { rewrite decide_False by (by intros [_ ?]%elem_of_sibs). by rewrite HV, <- app_assoc. }
    { intros i' j Hi' Hpj Hne. destruct (Htodo i' j) as [? ?]; [set_solver|done..|].
      split; [done|]. destruct (decide (j ∈ sibs m i j0)); [|done].
      apply list_elem_of_filter. split; [|done]. intros ->. done. }
    exists s'. split.
    + rewrite fmap_cons.
      pose proof (vr_cols _ _ _ _ _ _ Hrep1 j0 Hj0) as (Hring1 & _ & _). simpl in Hring1.
      rewrite decide_False in Hring1 by (by intros [_ ?]%elem_of_sibs).
      destruct Hring as [Hc _]. destruct Hring1 as [Hc1 _].
      rewrite HV, fmap_app, fmap_cons in Hc, Hc1.
      apply chain_app in Hc as [Hc _]. apply chain_app in Hc1 as [_ Hc1].
      pose proof (st_row _ _ _ Hst i j0 Hp0) as Hrow.
      pose proof (st_row _ _ _ Hst1 i j0 Hp0) as Hrow1.
      pose proof (length_sibs m i j0) as Hlen'.
      apply path_cons with (s1 := s1).
      * apply (lo_cell_head _ _ HL); [done|by apply present_lt in Hp0 as [? ?]].
      * unfold cover_row.
        eapply (path_eachNode id (λ _ s, s) cover_node uncover_node cover_node);
          [done|done|done|done|exact Hpath1| |done|].
        -- rewrite length_fmap. lia.
        -- by apply chain_hd in Hrow as [? _].
      * by apply chain_hd in Hc1 as [? _].
      * unfold uncover_row.
        eapply (path_eachNode_back id (λ _ s, s) cover_node uncover_node uncover_node);
          [done|done|done|done|exact Hpath1| |done|].
        -- rewrite length_fmap. lia.
        -- by apply chain_last in Hrow1 as [_ ?].
      * by apply chain_last in Hc as [_ ?].
      * rewrite last_fmap_snoc in Hpath. exact Hpath.
    + eapply vrep_ext; [|exact Hrep']. intros j HjD. simpl.
      destruct (decide (j = j0)) as [->|Hne].
      * by rewrite decide_False by (by intros [_ ?]%elem_of_sibs).
      * destruct (decide (j ∈ sibs m i j0)) as [Hs|Hs].
        -- rewrite list_filter_filter. apply filter_ext_in. intros i' _.
           rewrite elem_of_cons. naive_solver.
        -- apply filter_ext_in. intros i' Hi'. rewrite elem_of_cons.
           destruct (vr_cols _ _ _ _ _ _ Hrep j HjD) as (_ & _ & Hpres').
           assert (i' ≠ i); [|naive_solver].
           intros ->. apply Hs, elem_of_sibs. split; [by apply Hpres'|done].
Qed.

(** ** The header ring *)

Lemma hlink_spliced s nx pv dd y :
  valid_hdr s nx → valid_hdr s pv →
  hlink dd (put_hlink Next pv nx (put_hlink Prev nx pv s)) y =
    if decide (y = pv ∧ dd = Next) then Some nx
    else if decide (y = nx ∧ dd = Prev) then Some pv
    else hlink dd s y.
Proof.
  intros Vn Vp. rewrite hlink_put_hlink by (by heap_simpl).
  destruct (decide (y = pv ∧ dd = Next)); [done|].
  by rewrite hlink_put_hlink by done.
Qed.

Lemma cover_unfold fuel s c nx pv hd :
  hlink Next s c = Some nx → hlink Prev s c = Some pv → c ≠ nx →
  valid_hdr s nx → valid_hdr s pv → head_of s c = Some hd →
  cover fuel c s =
    eachNode id fuel hd Down (cover_row fuel) (put_hlink Next pv nx (put_hlink Prev nx pv s)).
Proof.
  intros Hn Hp Hne Vn Vp Hh. unfold cover. rewrite Hn, Hp. simpl.
  rewrite set_hlink_ok by done. simpl.
  rewrite !hlink_put_hlink by done. rewrite !decide_False by (intros [? ?]; done).
  rewrite Hn, Hp. simpl. rewrite set_hlink_ok by (by heap_simpl). simpl.
  heap_simpl. rewrite Hh. done.
Qed.

Lemma uncover_unfold fuel s c hd :
  head_of s c = Some hd →
  uncover fuel c s =
    (do s <- eachNode id fuel hd Up (uncover_row fuel) s;
     do nx <- deref (hlink Next s c);
     do s <- set_hlink Prev nx c s;
     do pv <- deref (hlink Prev s c);
     set_hlink Next pv c s).
Proof. intros Hh. unfold uncover. by rewrite Hh. Qed.

Lemma splice_inverse s c nx pv :
  hlink Next s c = Some nx → hlink Prev s c = Some pv →
  hlink Prev s nx = Some c → hlink Next s pv = Some c → c ≠ nx → c ≠ pv →
  (do nx' <- deref (hlink Next (put_hlink Next pv nx (put_hlink Prev nx pv s)) c);
   do s1 <- set_hlink Prev nx' c (put_hlink Next pv nx (put_hlink Prev nx pv s));
   do pv' <- deref (hlink Prev s1 c);
   set_hlink Next pv' c s1) = Ok s.
Proof.
  intros Hn Hp Hnc Hpc Hcn Hcp.
  assert (valid_hdr s nx) as Vn by (by eapply hlink_valid).
  assert (valid_hdr s pv) as Vp by (by eapply hlink_valid).
  rewrite hlink_spliced by done. rewrite !decide_False by (intros [? ?]; done).
  rewrite Hn. simpl. rewrite set_hlink_ok by (by heap_simpl). simpl.
  rewrite hlink_put_hlink by (by heap_simpl). rewrite decide_False by (intros [? ?]; done).
  rewrite hlink_spliced by done. rewrite !decide_False by (intros [? ?]; done).
  rewrite Hp. simpl. rewrite set_hlink_ok by (by heap_simpl). f_equal.
  apply heap_ext.
  - by heap_simpl.
  - by heap_simpl.
  - intros dd y. by heap_simpl.
  - intros y. by heap_simpl.
  - intros y. by heap_simpl.
  - intros dd y. rewrite hlink_put_hlink by (by heap_simpl).
    destruct (decide (y = pv ∧ dd = Next)) as [[-> ->]|?]; [done|].
    rewrite hlink_put_hlink by (by heap_simpl).
    destruct (decide (y = nx ∧ dd = Prev)) as [[-> ->]|?]; [done|].
    rewrite hlink_spliced by done. by rewrite !decide_False by done.
  - intros y. by heap_simpl.
  - intros y. by heap_simpl.
Qed.

Lemma vrep_splice m L s C1 j0 C2 D V :
  vrep m L s (C1 ++ j0 :: C2) D V →
  let nx := List.hd (rootA L) (colA L <$> C2) in
  let pv := List.last (colA L <$> C1) (rootA L) in
  vrep m L (put_hlink Next pv nx (put_hlink Prev nx pv s)) (C1 ++ C2) D V.
Proof.
  intros [Hst Hhr HC HD Hcols] nx pv.
  rewrite fmap_app, fmap_cons in Hhr.
  destruct (ring_unlink_links _ _ _ _ _ _ Hhr) as (Hn & Hp & Hpc & Hnc & Hpne & Hnne).
  fold nx pv in Hn, Hp, Hpc, Hnc, Hpne, Hnne.
  assert (valid_hdr s nx) as Vn by (by eapply hlink_valid).
  assert (valid_hdr s pv) as Vp by (by eapply hlink_valid).
  split.
  - eapply static_frame; [..|exact Hst]; intros y; by heap_simpl.
  - rewrite fmap_app. eapply ring_unlink; [exact Hhr|..]; fold nx pv; intros z Hz;
      rewrite hlink_spliced by done.
    + destruct (decide (z = pv)) as [->|?].
      * by rewrite decide_True.
      * by rewrite !decide_False by (intros [? ?]; done).
    + rewrite decide_False by (intros [? ?]; done).
      destruct (decide (z = nx)) as [->|?].
      * by rewrite decide_True.
      * by rewrite !decide_False by (intros [? ?]; done).
  - intros j Hj. apply HC. set_solver.
  - done.
  - intros j Hj. destruct (Hcols j Hj) as (H1 & H2 & H3). split_and!; [|by heap_simpl|done].
    eapply ring_ext; [| |exact H1]; intros; by heap_simpl.
Qed.

(** ** [cover] on a column of the ring, and the [uncover] that undoes it *)

Lemma col_rows_length m R j :
  NoDup R → length (col_rows m R j) ≤ nrows m.
Proof.
  intros Hnd. apply NoDup_bounded_length; [by apply NoDup_filter|].
  intros i [Hp _]%list_elem_of_filter. by apply present_lt in Hp as [? ?].
Qed.

(** [cover] read on any description [V] of the columns [D], which may
    include columns that are out of the ring. *)
Lemma cover_vrep m L s C D V j0 fuel :
  vrep m L s C D V → j0 ∈ C → j0 ∈ D → length (V j0) < fuel → ncols m < fuel →
  (∀ i j, i ∈ V j0 → present m i j → j ≠ j0 → j ∈ D ∧ i ∈ V j) →
  ∃ s', cover fuel (colA L j0) s = Ok s' ∧
        uncover fuel (colA L j0) s' = Ok s ∧
        vrep m L s' (filter (λ j, j ≠ j0) C) D
          (λ j, if decide (j = j0) then V j else filter (λ i, i ∉ V j0) (V j)).
Proof.
  intros Hrep Hj0 Hj0D Hlen Hfuel Hcl.
  pose proof (vr_static _ _ _ _ _ _ Hrep) as Hst.
  pose proof (st_layout _ _ _ Hst) as HL.
  pose proof (vr_hring _ _ _ _ _ _ Hrep) as Hhr.
  assert (NoDup C) as HndC.
  { destruct Hhr as [_ Hnd]. apply NoDup_cons in Hnd as [_ Hnd]. by apply NoDup_fmap_1 in Hnd. }
  assert (j0 < ncols m) as Hlt by (by apply (vr_C _ _ _ _ _ _ Hrep)).
  pose proof Hj0 as Hj0'. apply list_elem_of_split in Hj0' as (C1 & C2 & HC).
  assert (filter (λ j, j ≠ j0) C = C1 ++ C2) as HC'.
  { rewrite HC. apply filter_ne_split. by rewrite <- HC. }
  rewrite HC'. rewrite HC in Hhr. rewrite fmap_app, fmap_cons in Hhr.
  destruct (ring_unlink_links _ _ _ _ _ _ Hhr) as (Hn & Hp & Hpc & Hnc & Hpne & Hnne).
  set (nx := List.hd (rootA L) (colA L <$> C2)) in *.
  set (pv := List.last (colA L <$> C1) (rootA L)) in *.
  assert (valid_hdr s nx) as Vn by (by eapply hlink_valid).
  assert (valid_hdr s pv) as Vp by (by eapply hlink_valid).
  pose proof (st_head _ _ _ Hst j0 Hlt) as Hhd.
  pose proof Hrep as Hrep1. rewrite HC in Hrep1 at 1. apply vrep_splice in Hrep1.
  fold nx pv in Hrep1. set (s1 := put_hlink Next pv nx (put_hlink Prev nx pv s)) in *.
  destruct (cover_col_path m L s1 (C1 ++ C2) D V j0 fuel [] (V j0))
    as (s' & Hpath & Hrep'); [done|done|lia|done|done|].
  destruct (vr_cols _ _ _ _ _ _ Hrep1 j0 Hj0D) as ([Hc1 _] & _ & _).
  pose proof (vr_cols _ _ _ _ _ _ Hrep' j0 Hj0D) as (Hring' & _ & _).
  simpl in Hring'. rewrite decide_True in Hring' by done.
  pose proof Hring' as [Hc' _].
  exists s'. split_and!.
  - rewrite (cover_unfold fuel s (colA L j0) nx pv (headA L j0)) by done.
    eapply (path_eachNode id (λ _ s, s) (cover_row fuel) (uncover_row fuel) (cover_row fuel));
      [done|done|done|done|exact Hpath| |done|].
    + rewrite length_fmap. lia.
    + by apply chain_hd in Hc1 as [? _].
  - rewrite (uncover_unfold fuel s' (colA L j0) (headA L j0)).
    2:{ apply (st_head _ _ _ (vr_static _ _ _ _ _ _ Hrep')). done. }
    erewrite (path_eachNode_back id (λ _ s, s) (cover_row fuel) (uncover_row fuel) (uncover_row fuel));
      [|done|done|done|done|exact Hpath| |done|].
    + simpl. by apply splice_inverse.
    + rewrite length_fmap. lia.
    + by apply chain_last in Hc' as [_ ?].
  - done.
Qed.

Theorem cover_spec m L s C R j0 fuel :
  rep m L s C R → j0 ∈ C → nrows m + ncols m < fuel →
  ∃ s', cover fuel (colA L j0) s = Ok s' ∧
        uncover fuel (colA L j0) s' = Ok s ∧
        rep m L s' (filter (λ j, j ≠ j0) C) (filter (λ i, ¬ present m i j0) R) ∧
        ring (link Down s') (link Up s') (headA L j0) ((λ i, cellA L i j0) <$> col_rows m R j0).
Proof.
  intros [Hrep HndR Hcl] Hj0 Hfuel.
  pose proof (vr_hring _ _ _ _ _ _ Hrep) as Hhr.
  assert (NoDup C) as HndC.
  { destruct Hhr as [_ Hnd]. apply NoDup_cons in Hnd as [_ Hnd]. by apply NoDup_fmap_1 in Hnd. }
  pose proof (col_rows_length m R j0 HndR) as Hlen.
  destruct (cover_vrep m L s C C (col_rows m R) j0 fuel) as (s' & Hcov & Hunc & Hrep');
    [done|done|done|lia|lia| |].
  { intros i j [Hpi HiR]%list_elem_of_filter Hpj Hne. split; [by eapply Hcl|].
    by apply list_elem_of_filter. }
  pose proof (vr_cols _ _ _ _ _ _ Hrep' j0 Hj0) as (Hring' & _ & _).
  simpl in Hring'. rewrite decide_True in Hring' by done.
  exists s'. split_and!; [done|done| |done].
  split.
  - eapply vrep_ext; [|eapply vrep_weaken; [|exact Hrep']].
    + intros j Hj. simpl. apply list_elem_of_filter in Hj as [Hne Hj].
      rewrite decide_False by done.
      unfold col_rows. rewrite !list_filter_filter. apply filter_ext_in.
      intros i Hi. rewrite list_elem_of_filter. naive_solver.
    + intros j [_ Hj]%list_elem_of_filter. done.
  - by apply NoDup_filter.
  - intros i j [Hnp Hi]%list_elem_of_filter Hpj.
    apply list_elem_of_filter. split; [|by eapply Hcl].
    intros ->. done.
Qed.

(** * Part V: choosing a column *)

(** What the callback of [eachHeader] in [recurse] computes: the first
    object of smallest size. *)
Definition pick {A} (sz : A → Z) (best : option A) (h : A) : option A :=
  match best with
  | None => Some h
  | Some b => if bool_decide (sz h < sz b)%Z then Some h else Some b
  end.

Definition first_min {A} (sz : A → Z) (l : list A) : option A :=
  fold_left (pick sz) l None.

Lemma first_min_snoc {A} (sz : A → Z) l h :
  first_min sz (l ++ [h]) = pick sz (first_min sz l) h.
Proof. unfold first_min. by rewrite fold_left_app. Qed.

Lemma first_min_spec {A} (sz : A → Z) (l : list A) :
  l ≠ [] →
  ∃ b l1 l2, first_min sz l = Some b ∧ l = l1 ++ b :: l2 ∧
    (∀ h, h ∈ l1 → (sz b < sz h)%Z) ∧ (∀ h, h ∈ l2 → (sz b ≤ sz h)%Z).
Proof.
  induction l as [|h l IH] using rev_ind; [done|]. intros _.
  rewrite first_min_snoc. destruct l as [|h0 l0] eqn:El.
  - exists h, [], []. split_and!; [done|done|set_solver..].
  - rewrite <- El in *. destruct IH as (b & l1 & l2 & Hb & Hl & H1 & H2); [by rewrite El|].
    rewrite Hb. simpl. case_bool_decide as Hlt.
    + exists h, l, []. split_and!; [done|done| |set_solver].
      intros x Hx. rewrite Hl in Hx.
      apply elem_of_app in Hx as [Hx|[->|Hx]%elem_of_cons].
      * specialize (H1 x Hx). lia.
      * done.
      * specialize (H2 x Hx). lia.
    + exists b, l1, (l2 ++ [h]). split_and!; [done| |done|].
      * rewrite Hl. by rewrite <- app_assoc.
      * intros x [Hx|Hx%list_elem_of_singleton]%elem_of_app; [by apply H2|subst; lia].
Qed.

Lemma first_min_fmap {A B} (f : A → B) (sz : B → Z) l :
  first_min sz (f <$> l) = f <$> first_min (λ x, sz (f x)) l.
Proof.
  induction l as [|h l IH] using rev_ind; [done|].
  rewrite fmap_app. simpl. rewrite !first_min_snoc, IH.
  destruct (first_min _ l); simpl; [|done]. by case_bool_decide.
Qed.

Lemma first_min_elem_of {A} (sz : A → Z) l b : first_min sz l = Some b → b ∈ l.
Proof.
  intros H. destruct l as [|h l]; [done|].
  destruct (first_min_spec sz (h :: l)) as (b' & l1 & l2 & Hb & Hl & _); [done|].
  rewrite Hl. rewrite Hb in H. injection H as ->. set_solver.
Qed.

Lemma choose_step_pick s (sz : addr → Z) best x :
  length_of s x = Some (sz x) →
  (∀ b, best = Some b → length_of s b = Some (sz b)) →
  choose_step x (s, best, best ≫= length_of s) =
    Ok (s, pick sz best x, pick sz best x ≫= length_of s).
Proof.
  intros Hx Hb. unfold choose_step. destruct best as [b|]; simpl.
  - rewrite Hx, (Hb b eq_refl). simpl. case_bool_decide; simpl; [by rewrite Hx|by rewrite (Hb b)].
  - by rewrite Hx.
Qed.

Lemma choose_best_first_min s root hs (sz : addr → Z) fuel :
  ring (hlink Next s) (hlink Prev s) root hs →
  (∀ h, h ∈ hs → length_of s h = Some (sz h)) →
  length hs < fuel →
  choose_best fuel root s = Ok (first_min sz hs).
Proof.
  intros [Hc Hnd] Hsz Hf. unfold choose_best, eachHeader. simpl.
  pose proof (chain_hd _ _ _ _ _ Hc) as [Hhd _]. rewrite Hhd. simpl.
  set (P := λ (todo : list addr) (c : choice),
    ∃ done, done ++ todo = hs ∧
      c = (s, first_min sz done, first_min sz done ≫= length_of s)).
  destruct (eachHeader_from_inv (λ c : choice, c.1.1) P root Next choose_step) with
    (todo := hs) (fuel := fuel) (st := (s, @None addr, @None Z)) as (c & Hc' & HP).
  - intros x todo c (done & Hd & ->).
    assert (x ∈ hs) as Hx by (rewrite <- Hd; set_solver).
    split.
    { intros ->. apply NoDup_cons in Hnd as [? _]. done. }
    eexists. split_and!.
    + apply (choose_step_pick s sz); [by apply Hsz|].
      intros b Eb. apply Hsz. apply first_min_elem_of in Eb. rewrite <- Hd. set_solver.
    + simpl. rewrite <- Hd in Hc. apply chain_app in Hc as [_ Hc].
      by apply chain_hd in Hc as [Hc _].
    + exists (done ++ [x]). split; [by rewrite <- app_assoc|].
      by rewrite first_min_snoc.
  - done.
  - exists []. done.
  - rewrite Hc'. simpl. destruct HP as (done & Hd & ->). rewrite app_nil_r in Hd. by subst.
Qed.

(** * Part VI: the search on the matrix *)

(** The effect of [cover] on the state of the search. *)
Definition acover (m : matrix) (st : list nat * list nat) (j : nat) : list nat * list nat :=
  (filter (λ j', j' ≠ j) st.1, filter (λ i, ¬ present m i j) st.2).

(** The column [recurse] chooses. *)
Definition achoose (m : matrix) (C R : list nat) : option nat :=
  first_min (λ j, Z.of_nat (length (col_rows m R j))) C.

(** [recurse] read on the matrix: [C] are the columns of the ring, [R] the
    rows that still have their nodes linked; [acc] holds the arrays
    [solutions] and [partials]. *)
Fixpoint asearch (n : nat) (m : matrix) (max : nat) (C R : list nat) (k : nat)
    (acc : list solution * list (option nat)) : list solution * list (option nat) :=
  match n with
  | 0 => acc
  | S n' =>
      if bool_decide (max ≠ 0) && bool_decide (length acc.1 = max) then acc
      else
        match C with
        | [] => (acc.1 ++ [acc.2], acc.2)
        | _ =>
            match achoose m C R with
            | Some b =>
                if bool_decide (0 < length (col_rows m R b)) then
                  fold_left (λ acc i,
                      let st := fold_left (acover m) (sibs m i b) (acover m (C, R) b) in
                      asearch n' m max st.1 st.2 (k + 1) (acc.1, array_set k (Some i) acc.2))
                    (col_rows m R b) acc
                else acc
            | None => acc
            end
        end
  end.

(** The callbacks of [recurse]. *)
Definition cover_header (fuel : nat) (colNode : addr) (s : heap) : outcome heap :=
  do h <- deref (header_of s colNode); cover fuel h s.
Definition uncover_header (fuel : nat) (colNode : addr) (s : heap) : outcome heap :=
  do h <- deref (header_of s colNode); uncover fuel h s.

Definition try_row (fuel : nat) (rec : search → outcome search) (k : nat)
    (rowNode : addr) (st : search) : outcome search :=
  let st := Search (s_heap st) (s_solutions st)
              (array_set k (rowNumber_of (s_heap st) rowNode) (s_partials st)) in
  do st <- eachNode s_heap fuel rowNode Right (λ colNode st,
      do h <- deref (header_of (s_heap st) colNode);
      do s <- cover fuel h (s_heap st);
      Ok (with_heap st s)) st;
  do st <- rec st;
  eachNode s_heap fuel rowNode Left (λ colNode st,
      do h <- deref (header_of (s_heap st) colNode);
      do s <- uncover fuel h (s_heap st);
      Ok (with_heap st s)) st.

Lemma recurse_S fuel root max k st :
  recurse (S fuel) root max k st =
    if bool_decide (max ≠ 0) && bool_decide (length (s_solutions st) = max) then Ok st
    else
      do nx <- deref (hlink Next (s_heap st) root);
      if decide (nx = root) then
        Ok (Search (s_heap st) (s_solutions st ++ [s_partials st]) (s_partials st))
      else
        do best <- choose_best fuel root (s_heap st);
        match best with
        | Some best =>
            if num_lt (Some 0%Z) (length_of (s_heap st) best) then
              do s <- cover fuel best (s_heap st);
              do hd <- deref (head_of s best);
              do st <- eachNode s_heap fuel hd Down
                         (try_row fuel (recurse fuel root max (k + 1)) k) (with_heap st s);
              do s <- uncover fuel best (s_heap st);
              Ok (with_heap st s)
            else Ok st
        | None => Ok st
        end.
Proof. reflexivity. Qed.

Lemma with_heap_heap st s : s_heap (with_heap st s) = s.
Proof. done. Qed.
Lemma with_heap_with_heap st s s' : with_heap (with_heap st s) s' = with_heap st s'.
Proof. done. Qed.
Lemma with_heap_id st : with_heap st (s_heap st) = st.
Proof. by destruct st. Qed.

Lemma acover_fst_length m st js :
  length (fold_left (acover m) js st).1 ≤ length st.1.
Proof.
  revert st. induction js as [|j js IH]; intros st; simpl; [done|].
  etrans; [apply IH|]. simpl. apply length_filter.
Qed.

(** Covering the columns of the other nodes of a row, one after the other,
    and uncovering them in the reverse order. *)
Lemma cover_sibs_path m L i b fuel todo :
  nrows m + ncols m < fuel → present m i b →
  ∀ s C R pre, rep m L s C R → sibs m i b = pre ++ todo → (∀ j, j ∈ todo → j ∈ C) →
  ∃ s', path (cover_header fuel) (uncover_header fuel) Right Left (cellA L i b)
          (List.last (cellA L i <$> pre) (cellA L i b)) (cellA L i <$> todo) s s' ∧
        rep m L s' (fold_left (acover m) todo (C, R)).1 (fold_left (acover m) todo (C, R)).2.
Proof.
  intros Hfuel Hp0. induction todo as [|j rest IH]; intros s C R pre Hrep Hsibs Htodo.
  - exists s. split; [constructor|done].
  - pose proof (NoDup_sibs m i b) as Hnd. rewrite Hsibs in Hnd.
    assert (j ∉ rest) as Hjrest.
    { apply NoDup_app in Hnd as (_ & _ & Hnd). by apply NoDup_cons in Hnd as [? _]. }
    assert (present m i j ∧ j ≠ b) as [Hpj Hjb].
    { apply elem_of_sibs. rewrite Hsibs. set_solver. }
    destruct (cover_spec m L s C R j fuel Hrep) as (s1 & Hcov & Hunc & Hrep1 & _);
      [set_solver|done|].
    destruct (IH s1 _ _ (pre ++ [j]) Hrep1) as (s' & Hpath & Hrep').
    { by rewrite <- app_assoc. }
    { intros j' Hj'. apply list_elem_of_filter. split; [by intros ->|]. apply Htodo. set_solver. }
    exists s'. split; [|exact Hrep'].
    pose proof (vr_static _ _ _ _ _ _ (rep_vrep _ _ _ _ _ Hrep)) as Hst.
    pose proof (vr_static _ _ _ _ _ _ (rep_vrep _ _ _ _ _ Hrep1)) as Hst1.
    pose proof (st_row _ _ _ Hst i b Hp0) as Hrow.
    pose proof (st_row _ _ _ Hst1 i b Hp0) as Hrow1.
    rewrite Hsibs, fmap_app, fmap_cons in Hrow, Hrow1.
    apply chain_app in Hrow as [Hrow _]. apply chain_app in Hrow1 as [_ Hrow1].
    rewrite fmap_cons. apply path_cons with (s1 := s1).
    + apply (cell_ne m L); [by apply (st_layout _ _ _ Hst)|done..].
    + unfold cover_header. by rewrite (st_header _ _ _ Hst i j Hpj).
    + by apply chain_hd in Hrow1 as [? _].
    + unfold uncover_header. by rewrite (st_header _ _ _ Hst1 i j Hpj).
    + by apply chain_last in Hrow as [_ ?].
    + rewrite last_fmap_snoc in Hpath. exact Hpath.
Qed.

Lemma first_min_ext_in {A} (f g : A → Z) l :
  (∀ x, x ∈ l → f x = g x) → first_min f l = first_min g l.
Proof.
  induction l as [|h l IH] using rev_ind; [done|]. intros Hfg.
  rewrite !first_min_snoc, IH by (intros; apply Hfg; set_solver).
  destruct (first_min g l) as [b|] eqn:Eb; simpl; [|done].
  apply first_min_elem_of in Eb. rewrite !Hfg by set_solver. done.
Qed.

Lemma choose_best_rep m L s C R fuel :
  rep m L s C R → length C < fuel →
  choose_best fuel (rootA L) s = Ok (colA L <$> achoose m C R).
Proof.
  intros Hrep Hf. pose proof (rep_vrep _ _ _ _ _ Hrep) as Hv.
  rewrite (choose_best_first_min s (rootA L) (colA L <$> C)
             (λ h, default 0%Z (length_of s h))).
  - rewrite first_min_fmap. do 2 f_equal. apply first_min_ext_in.
    intros j Hj. destruct (vr_cols _ _ _ _ _ _ Hv j Hj) as (_ & -> & _). done.
  - apply (vr_hring _ _ _ _ _ _ Hv).
  - intros h (j & -> & Hj)%list_elem_of_fmap.
    destruct (vr_cols _ _ _ _ _ _ Hv j Hj) as (_ & -> & _). done.
  - by rewrite length_fmap.
Qed.

(** ** [recurse] computes [asearch] and leaves the heap as it found it *)

Lemma asearch_S_cons n m max C R k acc :
  C ≠ [] →
  asearch (S n) m max C R k acc =
    if bool_decide (max ≠ 0) && bool_decide (length acc.1 = max) then acc
    else
      match achoose m C R with
      | Some b =>
          if bool_decide (0 < length (col_rows m R b)) then
            fold_left (λ acc i,
                let st := fold_left (acover m) (sibs m i b) (acover m (C, R) b) in
                asearch n m max st.1 st.2 (k + 1) (acc.1, array_set k (Some i) acc.2))
              (col_rows m R b) acc
          else acc
      | None => acc
      end.
Proof. by destruct C. Qed.

Theorem recurse_refines n : ∀ m L s C R max k sols parts fuel,
  rep m L s C R → length C < n → nrows m + ncols m + n < fuel →
  recurse fuel (rootA L) max k (Search s sols parts) =
    Ok (Search s (asearch n m max C R k (sols, parts)).1
                 (asearch n m max C R k (sols, parts)).2).
Proof.
  induction n as [|n IH]; intros m L s C R max k sols parts fuel Hrep HC Hfuel; [lia|].
  destruct fuel as [|fuel]; [lia|].
  rewrite recurse_S. cbn [s_heap s_solutions s_partials].
  pose proof (rep_vrep _ _ _ _ _ Hrep) as Hv.
  pose proof (vr_static _ _ _ _ _ _ Hv) as Hst.
  pose proof (st_layout _ _ _ Hst) as HL.
  pose proof (vr_hring _ _ _ _ _ _ Hv) as [Hhc Hhnd].
  pose proof (chain_hd _ _ _ _ _ Hhc) as [Hhd _]. rewrite Hhd.
  destruct (decide (C = [])) as [->|HCne].
  { simpl. destruct (bool_decide (max ≠ 0) && bool_decide (length sols = max)); [done|].
    simpl. by rewrite decide_True. }
  rewrite asearch_S_cons by done. cbn [fst snd].
  destruct (bool_decide (max ≠ 0) && bool_decide (length sols = max)); [done|].
  simpl obind. rewrite decide_False.
  2:{ destruct C as [|j1 C']; [done|]. simpl.
      apply (lo_root _ _ HL). apply (vr_C _ _ _ _ _ _ Hv). set_solver. }
  rewrite (choose_best_rep m L s C R) by (done || lia). simpl. clear Hhd.
  destruct (achoose m C R) as [b|] eqn:Eb; simpl; [|done].
  assert (b ∈ C) as HbC by (by apply first_min_elem_of in Eb).
  destruct (vr_cols _ _ _ _ _ _ Hv b HbC) as (_ & Hlen & _). rewrite Hlen. simpl.
  assert (bool_decide (0 < Z.of_nat (length (col_rows m R b)))%Z =
          bool_decide (0 < length (col_rows m R b))) as ->.
  { apply bool_decide_ext. lia. }
  case_bool_decide as Hpos; [|done].
  destruct (cover_spec m L s C R b fuel Hrep HbC) as (s1 & Hcov & Hunc & Hrep1 & Hring1); [lia|].
  rewrite Hcov. simpl.
  pose proof (rep_vrep _ _ _ _ _ Hrep1) as Hv1.
  pose proof (vr_static _ _ _ _ _ _ Hv1) as Hst1.
  assert (b < ncols m) as Hb by (by apply (vr_C _ _ _ _ _ _ Hv)).
  rewrite (st_head _ _ _ Hst1 b Hb). simpl.
  set (abody := λ (acc : list solution * list (option nat)) (i : nat),
      let st := fold_left (acover m) (sibs m i b) (acover m (C, R) b) in
      asearch n m max st.1 st.2 (k + 1) (acc.1, array_set k (Some i) acc.2)).
  set (P := λ (todo : list addr) (st : search),
    ∃ done rest, done ++ rest = col_rows m R b ∧ todo = (λ i, cellA L i b) <$> rest ∧
      s_heap st = s1 ∧ (s_solutions st, s_partials st) = fold_left abody done (sols, parts)).
  unfold eachNode, with_heap. cbn [s_heap s_solutions s_partials].
  pose proof Hring1 as [Hc1 _]. pose proof (chain_hd _ _ _ _ _ Hc1) as [Hhd1 _].
  rewrite Hhd1. simpl.
  destruct (eachNode_from_inv s_heap P (headA L b) Down
              (try_row fuel (recurse fuel (rootA L) max (k + 1)) k))
    with (todo := (λ i, cellA L i b) <$> col_rows m R b) (fuel := fuel)
         (st := Search s1 sols parts) as (st' & Hloop & HP).
  - intros x todo st (done & rest & Hdr & Htodo & Hheap & Hacc).
    destruct rest as [|i rest]; [done|]. simpl in Htodo. injection Htodo as -> ->.
    assert (i ∈ col_rows m R b) as Hi by (rewrite <- Hdr; set_solver).
    pose proof Hi as [Hpi HiR]%list_elem_of_filter.
    split; [by apply (lo_cell_head _ _ HL)|].
    destruct (cover_sibs_path m L i b fuel (sibs m i b)) with
      (s := s1) (C := filter (λ j, j ≠ b) C) (R := filter (λ i, ¬ present m i b) R)
      (pre := @nil nat) as (s2 & Hpath & Hrep2); [lia|done|done|done| |].
    { intros j [Hpj Hne]%elem_of_sibs. apply list_elem_of_filter. split; [done|].
      by apply (rep_R_closed _ _ _ _ _ Hrep i j). }
    pose proof (vr_static _ _ _ _ _ _ (rep_vrep _ _ _ _ _ Hrep2)) as Hst2.
    pose proof (st_row _ _ _ Hst1 i b Hpi) as Hrow1.
    pose proof (st_row _ _ _ Hst2 i b Hpi) as Hrow2.
    pose proof (length_sibs m i b) as Hls.
    destruct st as [sh ssol spar]. simpl in Hheap, Hacc. subst sh.
    set (st1 := Search s1 ssol (array_set k (Some i) spar)).
    set (acc2 := abody (ssol, spar) i).
    exists (Search s1 acc2.1 acc2.2). split_and!.
    + unfold try_row. cbn [s_heap s_solutions s_partials].
      rewrite (st_rowNumber _ _ _ Hst1 i b Hpi). fold st1.
      erewrite (path_eachNode s_heap with_heap (cover_header fuel) (uncover_header fuel));
        [|done|done|apply with_heap_id| |exact Hpath| |done|].
      * simpl. unfold st1, with_heap. cbn [s_solutions s_partials].
        rewrite (IH m L s2 _ _ max (k + 1) ssol (array_set k (Some i) spar) fuel Hrep2).
        -- simpl. fold acc2.
           erewrite (path_eachNode_back s_heap with_heap (cover_header fuel) (uncover_header fuel));
             [|done|done|apply with_heap_id| |exact Hpath| |done|].
           ++ done.
           ++ intros y st' s' Hy. cbn [s_heap] in Hy |- *. unfold uncover_header in Hy.
              apply obind_ok in Hy as (h & Hh & Hy). rewrite Hh. simpl. by rewrite Hy.
           ++ rewrite length_fmap. lia.
           ++ by apply chain_last in Hrow2 as [_ ?].
        -- eapply Nat.le_lt_trans; [apply acover_fst_length|]. simpl.
           eapply Nat.lt_le_trans; [apply (length_filter_lt _ _ b); [done|naive_solver]|]. lia.
        -- lia.
      * intros y st' s' Hy. unfold cover_header in Hy.
        apply obind_ok in Hy as (h & Hh & Hy). rewrite Hh. simpl. by rewrite Hy.
      * rewrite length_fmap. lia.
      * by apply chain_hd in Hrow1 as [? _].
    + cbn [s_heap]. rewrite <- Hdr, fmap_app, fmap_cons in Hc1.
      apply chain_app in Hc1 as [_ Hc1]. by apply chain_hd in Hc1 as [? _].
    + exists (done ++ [i]), rest. split_and!; [by rewrite <- app_assoc|done|done|].
      cbn [s_solutions s_partials]. rewrite fold_left_app. simpl.
      rewrite <- Hacc. fold acc2. by destruct acc2.
  - rewrite length_fmap. pose proof (col_rows_length m R b (rep_R_nodup _ _ _ _ _ Hrep)). lia.
  - exists [], (col_rows m R b). done.
  - rewrite Hloop. simpl. destruct HP as (done & rest & Hdr & Hrest & Hheap & Hacc).
    symmetry in Hrest. apply fmap_nil_inv in Hrest. subst rest. rewrite app_nil_r in Hdr. subst done.
    rewrite Hheap, Hunc. simpl. rewrite <- Hacc. done.
Qed.

(** * Part VII: building the structure *)

(** ** Allocation *)

Definition grow_nodes (s : heap) : heap := Heap (nodes s ++ [empty_node]) (hdrs s).
Definition grow_hdrs (s : heap) : heap := Heap (nodes s) (hdrs s ++ [empty_hdr]).

Lemma lookup_snoc_empty {A} (l : list A) (e : A) x :
  (l ++ [e]) !! x = if decide (x = length l) then Some e else l !! x.
Proof.
  destruct (decide (x = length l)) as [->|Hne].
  - by rewrite lookup_app_r, Nat.sub_diag by lia.
  - destruct (decide (x < length l)).
    + by rewrite lookup_app_l by lia.
    + rewrite !lookup_ge_None_2; [done|lia|]. rewrite length_app. simpl. lia.
Qed.

Lemma link_grow_nodes d s x : link d (grow_nodes s) x = link d s x.
Proof.
  unfold link, grow_nodes. cbn [nodes]. rewrite lookup_snoc_empty.
  destruct (decide (x = length (nodes s))) as [->|]; [|done].
  rewrite lookup_ge_None_2 by lia. by destruct d.
Qed.
Lemma header_of_grow_nodes s x : header_of (grow_nodes s) x = header_of s x.
Proof.
  unfold header_of, grow_nodes. cbn [nodes]. rewrite lookup_snoc_empty.
  destruct (decide (x = length (nodes s))) as [->|]; [|done].
  by rewrite lookup_ge_None_2 by lia.
Qed.
Lemma rowNumber_of_grow_nodes s x : rowNumber_of (grow_nodes s) x = rowNumber_of s x.
Proof.
  unfold rowNumber_of, grow_nodes. cbn [nodes]. rewrite lookup_snoc_empty.
  destruct (decide (x = length (nodes s))) as [->|]; [|done].
  by rewrite lookup_ge_None_2 by lia.
Qed.
Lemma hlink_grow_hdrs d s x : hlink d (grow_hdrs s) x = hlink d s x.
Proof.
  unfold hlink, grow_hdrs. cbn [hdrs]. rewrite lookup_snoc_empty.
  destruct (decide (x = length (hdrs s))) as [->|]; [|done].
  rewrite lookup_ge_None_2 by lia. by destruct d.
Qed.
Lemma head_of_grow_hdrs s x : head_of (grow_hdrs s) x = head_of s x.
Proof.
  unfold head_of, grow_hdrs. cbn [hdrs]. rewrite lookup_snoc_empty.
  destruct (decide (x = length (hdrs s))) as [->|]; [|done].
  by rewrite lookup_ge_None_2 by lia.
Qed.
Lemma length_of_grow_hdrs s x : length_of (grow_hdrs s) x = length_of s x.
Proof.
  unfold length_of, grow_hdrs. cbn [hdrs]. rewrite lookup_snoc_empty.
  destruct (decide (x = length (hdrs s))) as [->|]; [|done].
  by rewrite lookup_ge_None_2 by lia.
Qed.

Lemma length_nodes_grow_nodes s : length (nodes (grow_nodes s)) = S (length (nodes s)).
Proof. simpl. rewrite length_app. simpl. lia. Qed.
Lemma length_hdrs_grow_hdrs s : length (hdrs (grow_hdrs s)) = S (length (hdrs s)).
Proof. simpl. rewrite length_app. simpl. lia. Qed.

(** More reading after writing. *)
Lemma link_put_link_same d n v s x :
  valid_node s n →
  link d (put_link d n v s) x = if decide (x = n) then Some v else link d s x.
Proof.
  intros V. rewrite link_put_link by done. destruct (decide (x = n)) as [->|].
  - by rewrite decide_True.
  - by rewrite decide_False by (by intros [? ?]).
Qed.
Lemma link_put_link_diff d d0 n v s x :
  d ≠ d0 → link d (put_link d0 n v s) x = link d s x.
Proof.
  intros Hd. unfold link, put_link. rewrite lookup_put_node.
  destruct (decide (x = n)) as [->|]; [|done].
  destruct (nodes s !! n); [|done]. simpl. rewrite node_field_with. by rewrite decide_False.
Qed.
Lemma hlink_put_hlink_same d n v s x :
  valid_hdr s n →
  hlink d (put_hlink d n v s) x = if decide (x = n) then Some v else hlink d s x.
Proof.
  intros V. rewrite hlink_put_hlink by done. destruct (decide (x = n)) as [->|].
  - by rewrite decide_True.
  - by rewrite decide_False by (by intros [? ?]).
Qed.
Lemma hlink_put_hlink_diff d d0 n v s x :
  d ≠ d0 → hlink d (put_hlink d0 n v s) x = hlink d s x.
Proof.
  intros Hd. unfold hlink, put_hlink. rewrite lookup_put_hdr.
  destruct (decide (x = n)) as [->|]; [|done].
  destruct (hdrs s !! n); [|done]. simpl. rewrite hdr_field_with. by rewrite decide_False.
Qed.

Definition put_header (n v : addr) (s : heap) : heap := put_node n (node_with_header v) s.
Definition put_rowNumber (n : addr) (v : nat) (s : heap) : heap :=
  put_node n (node_with_rowNumber v) s.
Definition put_head (h v : addr) (s : heap) : heap := put_hdr h (hdr_with_head v) s.
Definition put_len (h : addr) (v : option Z) (s : heap) : heap :=
  put_hdr h (hdr_with_length v) s.

Lemma set_header_ok n v s : valid_node s n → set_header n v s = Ok (put_header n v s).
Proof. apply upd_node_ok. Qed.
Lemma set_rowNumber_ok n v s : valid_node s n → set_rowNumber n v s = Ok (put_rowNumber n v s).
Proof. apply upd_node_ok. Qed.
Lemma set_head_ok h v s : valid_hdr s h → set_head h v s = Ok (put_head h v s).
Proof. apply upd_hdr_ok. Qed.
Lemma set_length_ok h v s : valid_hdr s h → set_length h v s = Ok (put_len h v s).
Proof. apply upd_hdr_ok. Qed.

Lemma link_put_header d n v s x : link d (put_header n v s) x = link d s x.
Proof.
  unfold link, put_header. rewrite lookup_put_node.
  destruct (decide (x = n)) as [->|]; [|done]. destruct (nodes s !! n); [|done]. by destruct d.
Qed.
Lemma link_put_rowNumber d n v s x : link d (put_rowNumber n v s) x = link d s x.
Proof.
  unfold link, put_rowNumber. rewrite lookup_put_node.
  destruct (decide (x = n)) as [->|]; [|done]. destruct (nodes s !! n); [|done]. by destruct d.
Qed.
Lemma header_of_put_header n v s x :
  valid_node s n →
  header_of (put_header n v s) x = if decide (x = n) then Some v else header_of s x.
Proof.
  intros [nd Hnd]%valid_node_lookup. unfold header_of, put_header. rewrite lookup_put_node.
  destruct (decide (x = n)) as [->|]; [|done]. by rewrite Hnd.
Qed.
Lemma header_of_put_rowNumber n v s x : header_of (put_rowNumber n v s) x = header_of s x.
Proof.
  unfold header_of, put_rowNumber. rewrite lookup_put_node.
  destruct (decide (x = n)) as [->|]; [|done]. by destruct (nodes s !! n).
Qed.
Lemma rowNumber_of_put_header n v s x : rowNumber_of (put_header n v s) x = rowNumber_of s x.
Proof.
  unfold rowNumber_of, put_header. rewrite lookup_put_node.
  destruct (decide (x = n)) as [->|]; [|done]. by destruct (nodes s !! n).
Qed.
Lemma rowNumber_of_put_rowNumber n v s x :
  valid_node s n →
  rowNumber_of (put_rowNumber n v s) x = if decide (x = n) then Some v else rowNumber_of s x.
Proof.
  intros [nd Hnd]%valid_node_lookup. unfold rowNumber_of, put_rowNumber. rewrite lookup_put_node.
  destruct (decide (x = n)) as [->|]; [|done]. by rewrite Hnd.
Qed.
Lemma hlink_put_head d h v s x : hlink d (put_head h v s) x = hlink d s x.
Proof.
  unfold hlink, put_head. rewrite lookup_put_hdr.
  destruct (decide (x = h)) as [->|]; [|done]. destruct (hdrs s !! h); [|done]. by destruct d.
Qed.
Lemma hlink_put_len d h v s x : hlink d (put_len h v s) x = hlink d s x.
Proof.
  unfold hlink, put_len. rewrite lookup_put_hdr.
  destruct (decide (x = h)) as [->|]; [|done]. destruct (hdrs s !! h); [|done]. by destruct d.
Qed.
Lemma head_of_put_head h v s x :
  valid_hdr s h →
  head_of (put_head h v s) x = if decide (x = h) then Some v else head_of s x.
Proof.
  intros [hd Hhd]%valid_hdr_lookup. unfold head_of, put_head. rewrite lookup_put_hdr.
  destruct (decide (x = h)) as [->|]; [|done]. by rewrite Hhd.
Qed.
Lemma head_of_put_len h v s x : head_of (put_len h v s) x = head_of s x.
Proof.
  unfold head_of, put_len. rewrite lookup_put_hdr.
  destruct (decide (x = h)) as [->|]; [|done]. by destruct (hdrs s !! h).
Qed.
Lemma length_of_put_head h v s x : length_of (put_head h v s) x = length_of s x.
Proof.
  unfold length_of, put_head. rewrite lookup_put_hdr.
  destruct (decide (x = h)) as [->|]; [|done]. by destruct (hdrs s !! h).
Qed.
Lemma length_of_put_len h v s x :
  valid_hdr s h →
  length_of (put_len h v s) x = if decide (x = h) then v else length_of s x.
Proof.
  intros [hd Hhd]%valid_hdr_lookup. unfold length_of, put_len. rewrite lookup_put_hdr.
  destruct (decide (x = h)) as [->|]; [|done]. by rewrite Hhd.
Qed.

(** ** [createNode] *)

Ltac valid_tac :=
  unfold valid_node, valid_hdr, put_link, put_hlink, put_length, put_header, put_rowNumber,
    put_head, put_len, grow_nodes, grow_hdrs, put_node, put_hdr in *;
  cbn [nodes hdrs] in *;
  rewrite ?length_alter, ?length_app in *; simpl in *; lia.

Ltac dec_simpl :=
  repeat first [ rewrite decide_True by (done || lia)
               | rewrite decide_False by (done || lia) ].

Ltac read_simpl :=
  repeat first
    [ rewrite link_put_link_same by valid_tac
    | rewrite link_put_link_diff by done
    | rewrite link_put_header | rewrite link_put_rowNumber
    | rewrite link_grow_nodes
    | rewrite header_of_put_link | rewrite rowNumber_of_put_link
    | rewrite header_of_put_header by valid_tac
    | rewrite header_of_put_rowNumber
    | rewrite rowNumber_of_put_header
    | rewrite rowNumber_of_put_rowNumber by valid_tac
    | rewrite header_of_grow_nodes | rewrite rowNumber_of_grow_nodes ].

Ltac write_simpl :=
  first [ rewrite set_link_ok by valid_tac
        | rewrite set_header_ok by valid_tac
        | rewrite set_rowNumber_ok by valid_tac ];
  cbn [obind].

(** The new node is inserted after [left] in its row and after [up] in its
    column; [r] and [d] are the nodes that followed them. *)
Definition after_left (s : heap) (left : option addr) (r : addr) : Prop :=
  match left with
  | Some l => link Right s l = Some r ∧ valid_node s r
  | None => r = length (nodes s)
  end.
Definition after_up (s : heap) (up : option addr) (d : addr) : Prop :=
  match up with
  | Some u => link Down s u = Some d ∧ valid_node s d
  | None => d = length (nodes s)
  end.

Lemma createNode_spec column left up s r d :
  after_left s left r → after_up s up d →
  let node := length (nodes s) in
  let l := default node left in
  let u := default node up in
  ∃ s', createNode column left up s = Ok (node, s') ∧
    length (nodes s') = S (length (nodes s)) ∧ hdrs s' = hdrs s ∧
    (∀ x, link Right s' x =
       if decide (x = l) then Some node else if decide (x = node) then Some r
       else link Right s x) ∧
    (∀ x, link Left s' x =
       if decide (x = r) then Some node else if decide (x = node) then Some l
       else link Left s x) ∧
    (∀ x, link Down s' x =
       if decide (x = u) then Some node else if decide (x = node) then Some d
       else link Down s x) ∧
    (∀ x, link Up s' x =
       if decide (x = d) then Some node else if decide (x = node) then Some u
       else link Up s x) ∧
    (∀ x, header_of s' x = if decide (x = node) then Some column else header_of s x) ∧
    (∀ x, rowNumber_of s' x = rowNumber_of s x).
Proof.
  intros Hl Hu node l u. unfold createNode, alloc_node. fold (grow_nodes s). fold node.
  unfold after_left, after_up in *. fold node in Hl, Hu.
  assert (node = length (nodes s)) as Hnode by done. clearbody node.
  assert (match left with Some x => valid_node s x | None => True end) as Vl.
  { destruct left; [|done]. destruct Hl as [Hl _]. by eapply link_valid. }
  assert (match up with Some x => valid_node s x | None => True end) as Vu.
  { destruct up; [|done]. destruct Hu as [Hu _]. by eapply link_valid. }
  destruct left as [l0|], up as [u0|]; simpl in Hl, Hu, l, u; subst l u;
    try destruct Hl as [Hl Vr]; try destruct Hu as [Hu Vd]; try subst r; try subst d;
    unfold valid_node in *; cbn [obind].
  all: eexists; split;
    [ repeat first [ write_simpl
                   | progress (read_simpl; dec_simpl; rewrite ?Hl, ?Hu; cbn [deref obind]) ];
      reflexivity | ].
  all: split; [valid_tac|]; split; [done|].
  all: split_and!; intros x; read_simpl; repeat case_decide; subst; try done; try lia.
Qed.

(** Appending [c] to a ring. *)
Lemma chain_snoc_ring (F B F' B' : nat → option nat) a l c :
  chain F B a l a → NoDup (a :: l) →
  (∀ x, x ∈ a :: l → F' x = if decide (x = List.last l a) then Some c else F x) →
  F' c = Some a →
  (∀ x, x ∈ a :: l → B' x = if decide (x = a) then Some c else B x) →
  B' c = Some (List.last l a) →
  chain F' B' a (l ++ [c]) a.
Proof.
  intros Hc Hnd HF HFc HB HBc. apply chain_app. split.
  - eapply chain_relast; [exact Hc|done|..].
    + intros z Hz Hne. rewrite HF by done. by rewrite decide_False.
    + intros z Hz. rewrite HB by set_solver. rewrite decide_False; [done|].
      intros ->. apply NoDup_cons in Hnd as [? _]. done.
    + rewrite HF by apply last_elem_of. by rewrite decide_True.
    + done.
  - simpl. split; [done|]. rewrite HB by set_solver. by rewrite decide_True.
Qed.

(** Observations through writes to headers and through allocation. *)
Lemma link_put_head d h v s x : link d (put_head h v s) x = link d s x.
Proof. done. Qed.
Lemma link_put_len d h v s x : link d (put_len h v s) x = link d s x.
Proof. done. Qed.
Lemma link_grow_hdrs d s x : link d (grow_hdrs s) x = link d s x.
Proof. done. Qed.
Lemma header_of_put_head h v s x : header_of (put_head h v s) x = header_of s x.
Proof. done. Qed.
Lemma header_of_put_len h v s x : header_of (put_len h v s) x = header_of s x.
Proof. done. Qed.
Lemma header_of_grow_hdrs s x : header_of (grow_hdrs s) x = header_of s x.
Proof. done. Qed.
Lemma rowNumber_of_put_head h v s x : rowNumber_of (put_head h v s) x = rowNumber_of s x.
Proof. done. Qed.
Lemma rowNumber_of_put_len h v s x : rowNumber_of (put_len h v s) x = rowNumber_of s x.
Proof. done. Qed.
Lemma rowNumber_of_grow_hdrs s x : rowNumber_of (grow_hdrs s) x = rowNumber_of s x.
Proof. done. Qed.

Lemma hlink_same_hdrs d s s' x : hdrs s' = hdrs s → hlink d s' x = hlink d s x.
Proof. unfold hlink. by intros ->. Qed.
Lemma head_of_same_hdrs s s' x : hdrs s' = hdrs s → head_of s' x = head_of s x.
Proof. unfold head_of. by intros ->. Qed.
Lemma length_of_same_hdrs s s' x : hdrs s' = hdrs s → length_of s' x = length_of s x.
Proof. unfold length_of. by intros ->. Qed.

Ltac hread_simpl :=
  repeat first
    [ rewrite hlink_put_hlink_same by valid_tac
    | rewrite hlink_put_hlink_diff by done
    | rewrite hlink_put_head | rewrite hlink_put_len | rewrite hlink_put_length
    | rewrite hlink_grow_hdrs
    | rewrite head_of_put_hlink | rewrite head_of_put_len | rewrite head_of_put_length
    | rewrite head_of_put_head by valid_tac
    | rewrite head_of_grow_hdrs
    | rewrite length_of_put_hlink | rewrite length_of_put_head
    | rewrite length_of_put_len by valid_tac
    | rewrite length_of_put_length
    | rewrite length_of_grow_hdrs
    | rewrite link_put_head | rewrite link_put_len | rewrite link_put_length
    | rewrite link_put_hlink | rewrite link_grow_hdrs
    | rewrite header_of_put_head | rewrite header_of_put_len | rewrite header_of_put_length
    | rewrite header_of_put_hlink | rewrite header_of_grow_hdrs
    | rewrite rowNumber_of_put_head | rewrite rowNumber_of_put_len
    | rewrite rowNumber_of_put_length
    | rewrite rowNumber_of_put_hlink | rewrite rowNumber_of_grow_hdrs ].

Ltac hwrite_simpl :=
  first [ rewrite set_hlink_ok by valid_tac
        | rewrite set_head_ok by valid_tac
        | rewrite set_length_ok by valid_tac
        | rewrite add_length_ok by valid_tac ];
  cbn [obind].

(** ** The first loop of [solve]: one header and one head node per column *)

Lemma head_of_fresh s : head_of s (length (hdrs s)) = None.
Proof. unfold head_of. by rewrite lookup_ge_None_2. Qed.

Lemma make_column_spec s prev columns nx l r :
  match prev with
  | Some p => hlink Next s p = Some nx ∧ valid_hdr s nx ∧
              head_of s p = Some l ∧ link Right s l = Some r ∧ valid_node s r
  | None => nx = length (hdrs s) ∧ l = length (nodes s) ∧ r = length (nodes s)
  end →
  let column := length (hdrs s) in
  let node := length (nodes s) in
  let p := default column prev in
  ∃ s', make_column (s, prev, columns) = Ok (s', Some column, columns ++ [column]) ∧
    length (nodes s') = S (length (nodes s)) ∧
    length (hdrs s') = S (length (hdrs s)) ∧
    (∀ x, hlink Next s' x =
       if decide (x = p) then Some column else if decide (x = column) then Some nx
       else hlink Next s x) ∧
    (∀ x, hlink Prev s' x =
       if decide (x = nx) then Some column else if decide (x = column) then Some p
       else hlink Prev s x) ∧
    (∀ x, head_of s' x = if decide (x = column) then Some node else head_of s x) ∧
    (∀ x, length_of s' x = if decide (x = column) then Some 0%Z else length_of s x) ∧
    (∀ x, link Right s' x =
       if decide (x = l) then Some node else if decide (x = node) then Some r
       else link Right s x) ∧
    (∀ x, link Left s' x =
       if decide (x = r) then Some node else if decide (x = node) then Some l
       else link Left s x) ∧
    (∀ x, link Down s' x = if decide (x = node) then Some node else link Down s x) ∧
    (∀ x, link Up s' x = if decide (x = node) then Some node else link Up s x) ∧
    (∀ x, header_of s' x = if decide (x = node) then Some column else header_of s x) ∧
    (∀ x, rowNumber_of s' x = rowNumber_of s x).
Proof.
  intros Hprev column node p. unfold make_column, alloc_hdr. fold (grow_hdrs s). fold column.
  assert (column = length (hdrs s)) as Hcolumn by done.
  assert (node = length (nodes s)) as Hnode by done.
  pose proof (head_of_fresh s) as Hfresh. fold column in Hfresh.
  clearbody column node.
  destruct prev as [p0|]; simpl in p; subst p.
  - destruct Hprev as (Hnx & Vnx & Hhd & Hr & Vr).
    assert (valid_hdr s p0) as Vp by (by eapply hlink_valid).
    assert (valid_node s l) as Vl by (by eapply link_valid).
    unfold valid_hdr, valid_node in *.
    cbn [obind]. repeat hwrite_simpl. hread_simpl. dec_simpl. rewrite Hnx. cbn [deref obind].
    repeat hwrite_simpl. hread_simpl. dec_simpl. rewrite Hhd.
    set (s1 := put_hlink Next column nx _).
    destruct (createNode_spec column (Some l) None s1 r (length (nodes s1)))
      as (s2 & Hcn & Hn2 & Hh2 & HR & HL & HD & HU & HH & HRN).
    { split; [subst s1; hread_simpl; done|]. subst s1. valid_tac. }
    { done. }
    assert (length (nodes s1) = node) as Hn1 by (subst s1; valid_tac).
    rewrite Hn1 in *. rewrite Hcn. cbn [obind].
    assert (length (hdrs s2) = S column) as Hlh2 by (rewrite Hh2; subst s1; valid_tac).
    repeat hwrite_simpl. hread_simpl. dec_simpl.
    rewrite (hlink_same_hdrs _ s1 s2) by done. subst s1. hread_simpl. dec_simpl.
    rewrite Hnx. cbn [deref obind]. repeat hwrite_simpl.
    eexists. split; [reflexivity|].
    split; [valid_tac|]. split; [valid_tac|].
    split_and!; intros x; hread_simpl;
      rewrite ?(hlink_same_hdrs _ _ s2 _ Hh2), ?(head_of_same_hdrs _ s2 _ Hh2),
        ?(length_of_same_hdrs _ s2 _ Hh2), ?HR, ?HL, ?HD, ?HU, ?HH, ?HRN;
      hread_simpl; simpl; repeat case_decide; subst; try done; try lia.
  - destruct Hprev as (-> & -> & ->). rewrite <- Hcolumn, <- Hnode.
    unfold valid_hdr, valid_node in *.
    cbn [obind]. repeat hwrite_simpl. hread_simpl. dec_simpl. cbn [deref obind].
    repeat hwrite_simpl. hread_simpl. rewrite Hfresh.
    set (s1 := put_hlink Next column column _).
    destruct (createNode_spec column None None s1 (length (nodes s1)) (length (nodes s1)))
      as (s2 & Hcn & Hn2 & Hh2 & HR & HL & HD & HU & HH & HRN); [done|done|].
    assert (length (nodes s1) = node) as Hn1 by (subst s1; valid_tac).
    rewrite Hn1 in *. simpl in HR, HL, HD, HU. rewrite Hcn. cbn [obind].
    assert (length (hdrs s2) = S column) as Hlh2 by (rewrite Hh2; subst s1; valid_tac).
    repeat hwrite_simpl. hread_simpl. dec_simpl.
    rewrite (hlink_same_hdrs _ s1 s2) by done. subst s1. hread_simpl. dec_simpl.
    cbn [deref obind]. repeat hwrite_simpl.
    eexists. split; [reflexivity|].
    split; [valid_tac|]. split; [valid_tac|].
    split_and!; intros x; hread_simpl;
      rewrite ?(hlink_same_hdrs _ _ s2 _ Hh2), ?(head_of_same_hdrs _ s2 _ Hh2),
        ?(length_of_same_hdrs _ s2 _ Hh2), ?HR, ?HL, ?HD, ?HU, ?HH, ?HRN;
      hread_simpl; simpl; repeat case_decide; subst; try done; try lia.
Qed.

(** After [t] iterations on a heap that held [hb] headers and [nb] nodes. *)
Record cols_built (hb nb t : nat) (s : heap) : Prop := {
  cb_hdrs : length (hdrs s) = hb + t;
  cb_nodes : length (nodes s) = nb + t;
  cb_head : ∀ j, j < t → head_of s (hb + j) = Some (nb + j);
  cb_len : ∀ j, j < t → length_of s (hb + j) = Some 0%Z;
  cb_hring : 0 < t →
    chain (hlink Next s) (hlink Prev s) hb ((λ j, hb + j) <$> seq 1 (t - 1)) hb;
  cb_nring : 0 < t →
    chain (link Right s) (link Left s) nb ((λ j, nb + j) <$> seq 1 (t - 1)) nb;
  cb_self : ∀ j, j < t →
    link Down s (nb + j) = Some (nb + j) ∧ link Up s (nb + j) = Some (nb + j)
}.

Definition prev_at (hb t : nat) : option addr :=
  match t with 0 => None | S t' => Some (hb + t') end.

Lemma last_fmap_seq (f : nat → nat) t a :
  List.last (f <$> seq 1 t) (f 0) = f t ∧ (a = f 0 → List.last (f <$> seq 1 t) a = f t).
Proof.
  destruct t as [|t]; [done|].
  replace (S t) with (t + 1) at 1 3 by lia. rewrite seq_app, fmap_app. simpl.
  rewrite !last_last. replace (1 + t) with (S t) by lia. done.
Qed.

Lemma NoDup_fmap_add b l : NoDup l → NoDup ((λ j, b + j) <$> l).
Proof. intros H. apply NoDup_fmap_2; [|done]. intros x y. lia. Qed.

Lemma make_column_step hb nb t s :
  cols_built hb nb t s →
  ∃ s', make_column (s, prev_at hb t, (λ j, hb + j) <$> seq 0 t) =
          Ok (s', prev_at hb (S t), (λ j, hb + j) <$> seq 0 (S t)) ∧
        cols_built hb nb (S t) s'.
Proof.
  intros [Hh Hn Hhead Hlen Hhr Hnr Hself].
  destruct t as [|t].
  - destruct (make_column_spec s None [] (length (hdrs s)) (length (nodes s)) (length (nodes s)))
      as (s' & Hmk & Hn' & Hh' & HN & HP & HHd & HLen & HR & HL & HD & HU & HH & HRN); [done|].
    rewrite Nat.add_0_r in *. rewrite Hh, Hn in *. simpl in HN, HP.
    exists s'. split.
    { change (prev_at hb 0) with (@None nat).
      change ((λ j, hb + j) <$> seq 0 0) with (@nil nat).
      rewrite Hmk. simpl. by rewrite Nat.add_0_r. }
    split; try lia.
    + intros j Hj. replace j with 0 by lia. rewrite !Nat.add_0_r, HHd. by rewrite decide_True.
    + intros j Hj. replace j with 0 by lia. rewrite !Nat.add_0_r, HLen. by rewrite decide_True.
    + intros _. simpl. rewrite HN, HP. by rewrite !decide_True.
    + intros _. simpl. rewrite HR, HL. by rewrite !decide_True.
    + intros j Hj. replace j with 0 by lia. rewrite !Nat.add_0_r, HD, HU. by rewrite !decide_True.
  - specialize (Hhr ltac:(lia)). specialize (Hnr ltac:(lia)).
    replace (S t - 1) with t in * by lia.
    pose proof (chain_last _ _ _ _ _ Hhr) as [Hlast _].
    pose proof (chain_last _ _ _ _ _ Hnr) as [Hnlast _].
    destruct (last_fmap_seq (λ j, hb + j) t hb) as [_ Eh]. rewrite Eh in Hlast by lia.
    destruct (last_fmap_seq (λ j, nb + j) t nb) as [_ En]. rewrite En in Hnlast by lia.
    destruct (make_column_spec s (Some (hb + t)) ((λ j, hb + j) <$> seq 0 (S t)) hb (nb + t) nb)
      as (s' & Hmk & Hn' & Hh' & HN & HP & HHd & HLen & HR & HL & HD & HU & HH & HRN).
    { split_and!; [done| |by apply Hhead; lia|done|].
      - unfold valid_hdr. lia.
      - unfold valid_node. lia. }
    rewrite Hh, Hn in *. simpl in HN, HP.
    exists s'. split.
    { change (prev_at hb (S t)) with (Some (hb + t)).
      change (prev_at hb (S (S t))) with (Some (hb + S t)).
      rewrite Hmk. rewrite (seq_S (S t) 0), fmap_app. done. }
    split; try lia.
    + intros j Hj. rewrite HHd. case_decide; [f_equal; lia|]. apply Hhead. lia.
    + intros j Hj. rewrite HLen. case_decide; [done|]. apply Hlen. lia.
    + intros _. replace (S (S t) - 1) with (t + 1) by lia. rewrite seq_app, fmap_app. simpl.
      replace (hb + (1 + t)) with (hb + S t) by lia.
      eapply chain_snoc_ring; [exact Hhr|..].
      * apply NoDup_cons. split.
        -- intros (j & E & Hj%elem_of_seq)%list_elem_of_fmap. lia.
        -- apply NoDup_fmap_add, NoDup_seq.
      * intros x Hx. rewrite Eh by lia. rewrite HN.
        case_decide; [done|]. rewrite decide_False; [done|].
        intros ->. apply elem_of_cons in Hx as [Hx|Hx]; [lia|].
        apply list_elem_of_fmap in Hx as (j & E & Hj%elem_of_seq). lia.
      * rewrite HN. rewrite decide_False by lia. by rewrite decide_True.
      * intros x Hx. rewrite HP. case_decide; [done|]. rewrite decide_False; [done|].
        intros ->. apply elem_of_cons in Hx as [Hx|Hx]; [lia|].
        apply list_elem_of_fmap in Hx as (j & E & Hj%elem_of_seq). lia.
      * rewrite HP. rewrite decide_False by lia. rewrite decide_True by done.
        by rewrite Eh by lia.
    + intros _. replace (S (S t) - 1) with (t + 1) by lia. rewrite seq_app, fmap_app. simpl.
      replace (nb + (1 + t)) with (nb + S t) by lia.
      eapply chain_snoc_ring; [exact Hnr|..].
      * apply NoDup_cons. split.
        -- intros (j & E & Hj%elem_of_seq)%list_elem_of_fmap. lia.
        -- apply NoDup_fmap_add, NoDup_seq.
      * intros x Hx. rewrite En by lia. rewrite HR.
        case_decide; [done|]. rewrite decide_False; [done|].
        intros ->. apply elem_of_cons in Hx as [Hx|Hx]; [lia|].
        apply list_elem_of_fmap in Hx as (j & E & Hj%elem_of_seq). lia.
      * rewrite HR. rewrite decide_False by lia. by rewrite decide_True.
      * intros x Hx. rewrite HL. case_decide; [done|]. rewrite decide_False; [done|].
        intros ->. apply elem_of_cons in Hx as [Hx|Hx]; [lia|].
        apply list_elem_of_fmap in Hx as (j & E & Hj%elem_of_seq). lia.
      * rewrite HL. rewrite decide_False by lia. rewrite decide_True by done.
        by rewrite En by lia.
    + intros j Hj. rewrite HD, HU. case_decide as E.
      * rewrite E. done.
      * apply Hself. lia.
Qed.

Lemma make_columns_spec k : ∀ hb nb t s,
  cols_built hb nb t s →
  ∃ s', make_columns k (s, prev_at hb t, (λ j, hb + j) <$> seq 0 t) =
          Ok (s', prev_at hb (t + k), (λ j, hb + j) <$> seq 0 (t + k)) ∧
        cols_built hb nb (t + k) s'.
Proof.
  induction k as [|k IH]; intros hb nb t s Hb.
  - exists s. rewrite Nat.add_0_r. done.
  - destruct (make_column_step hb nb t s Hb) as (s1 & Hmk & Hb1).
    destruct (IH hb nb (S t) s1 Hb1) as (s' & Hmks & Hb').
    exists s'. cbn [make_columns]. rewrite Hmk. cbn [obind]. rewrite Hmks.
    replace (S t + k) with (t + S k) in * by lia. done.
Qed.

Lemma cols_built_init s : cols_built (length (hdrs s)) (length (nodes s)) 0 s.
Proof. split; try lia. Qed.

(** ** Where [solve] puts the objects *)

Definition row_cells (m : matrix) (i : nat) : list nat :=
  filter (λ j, present m i j) (seq 0 (ncols m)).

(** The number of nodes created before the cell of row [i] and column [c]. *)
Definition rank (m : matrix) (i c : nat) : nat :=
  length (flat_map (row_cells m) (seq 0 i)) + length (filter (λ j, present m i j) (seq 0 c)).

(** On a heap that holds [hb] headers and [nb] nodes, [solve] creates the
    headers, then the head nodes, then the nodes row by row, then the root. *)
Definition build_layout (m : matrix) (hb nb : nat) : layout :=
  Layout (hb + ncols m) (λ j, hb + j) (λ j, nb + j) (λ i j, nb + ncols m + rank m i j).

Lemma filter_seq_lt (P : nat → Prop) `{!∀ x, Decision (P x)} a b j :
  a ≤ j → j < a + b → P j →
  length (filter P (seq a (j - a))) < length (filter P (seq a b)).
Proof.
  intros Ha Hb HP. replace b with ((j - a) + S (b - (j - a) - 1)) by lia.
  rewrite seq_app, filter_app, length_app. simpl.
  replace (a + (j - a)) with j by lia. rewrite filter_cons_True by done. simpl. lia.
Qed.

Lemma filter_seq_le (P : nat → Prop) `{!∀ x, Decision (P x)} a b :
  a ≤ b → length (filter P (seq 0 a)) ≤ length (filter P (seq 0 b)).
Proof.
  intros Hab. replace b with (a + (b - a)) by lia.
  rewrite seq_app, filter_app, length_app. lia.
Qed.

Lemma filter_none {A} (P : A → Prop) `{!∀ x, Decision (P x)} (l : list A) :
  (∀ x, x ∈ l → ¬ P x) → filter P l = [].
Proof.
  induction l as [|x l IH]; intros Hl; [done|].
  rewrite filter_cons_False by (apply Hl; set_solver). apply IH. intros; apply Hl; set_solver.
Qed.

Lemma filter_seq_range (P : nat → Prop) `{!∀ x, Decision (P x)} a b :
  (∀ j, P j → j < a ∧ j < b) → filter P (seq 0 a) = filter P (seq 0 b).
Proof.
  intros HP.
  assert (∀ a b, a ≤ b → (∀ j, P j → j < a) → filter P (seq 0 a) = filter P (seq 0 b)) as Haux.
  { clear a b HP. intros a b Hab HP. replace b with (a + (b - a)) by lia.
    rewrite seq_app, filter_app. simpl.
    rewrite (filter_none P (seq a (b - a))); [by rewrite app_nil_r|].
    intros x Hx%elem_of_seq Hp. apply HP in Hp. lia. }
  destruct (decide (a ≤ b)).
  - apply Haux; [done|]. intros j Hj. by apply HP.
  - symmetry. apply Haux; [lia|]. intros j Hj. by apply HP.
Qed.

Lemma rank_base_le m a b : a ≤ b →
  length (flat_map (row_cells m) (seq 0 a)) ≤ length (flat_map (row_cells m) (seq 0 b)).
Proof.
  intros Hab. replace b with (a + (b - a)) by lia.
  rewrite seq_app, flat_map_app, length_app. lia.
Qed.

Lemma rank_row_end m i c :
  (∀ j, present m i j → j < c) → rank m i c = rank m (S i) 0.
Proof.
  intros Hc. unfold rank. rewrite (seq_S i 0), flat_map_app, length_app. simpl.
  rewrite app_nil_r. unfold row_cells at 3.
  rewrite (filter_seq_range (λ j, present m i j) c (ncols m)); [lia|].
  intros j Hj. split; [by apply Hc|]. by apply present_lt in Hj as [? _].
Qed.

(** Nodes are created in row-major order. *)
Lemma rank_lt m i j i' j' :
  present m i j → (i < i' ∨ (i = i' ∧ j < j')) → rank m i j < rank m i' j'.
Proof.
  intros Hp Hlt. pose proof (present_lt _ _ _ Hp) as [Hj _]. unfold rank.
  destruct Hlt as [Hlt|[<- Hlt]].
  - pose proof (rank_base_le m (S i) i' ltac:(lia)) as Hb.
    rewrite (seq_S i 0), flat_map_app, length_app in Hb. simpl in Hb. rewrite app_nil_r in Hb.
    unfold row_cells in Hb at 2.
    pose proof (filter_seq_lt (λ j, present m i j) 0 (ncols m) j ltac:(lia) ltac:(lia) Hp) as Hf.
    rewrite Nat.sub_0_r in Hf. lia.
  - pose proof (filter_seq_lt (λ j, present m i j) 0 j' j ltac:(lia) ltac:(lia) Hp) as Hf.
    rewrite Nat.sub_0_r in Hf. lia.
Qed.

Lemma rank_inj m i j i' j' :
  present m i j → present m i' j' → rank m i j = rank m i' j' → i = i' ∧ j = j'.
Proof.
  intros Hp Hp' E.
  destruct (decide (i < i' ∨ (i = i' ∧ j < j'))) as [H1|H1].
  { pose proof (rank_lt m i j i' j' Hp H1). lia. }
  destruct (decide (i' < i ∨ (i' = i ∧ j' < j))) as [H2|H2].
  { pose proof (rank_lt m i' j' i j Hp' H2). lia. }
  lia.
Qed.

Lemma build_layout_ok m hb nb : layout_ok m (build_layout m hb nb).
Proof.
  split; simpl.
  - intros. lia.
  - intros. lia.
  - intros. lia.
  - intros. lia.
  - intros i j i' j' Hp Hp' E. apply (rank_inj m); [done|done|lia].
Qed.

(** ** The second loop of [solve]: one node per present cell *)

(** The rows linked in column [j] when the rows before [i] and the cells
    of row [i] before column [c] have been handled. *)
Definition colV (m : matrix) (i c j : nat) : list nat :=
  filter (λ i', present m i' j) (seq 0 i) ++
  (if decide (j < c ∧ present m i j) then [i] else []).

(** The columns of row [i] that have their node when the cells before
    column [c] have been handled. *)
Definition rowW (m : matrix) (i c : nat) : list nat :=
  filter (λ j, present m i j) (seq 0 c).

Definition row_ring (s : heap) (f : nat → addr) (l : list nat) : Prop :=
  match l with
  | [] => True
  | j :: rest => ring (link Right s) (link Left s) (f j) (f <$> rest)
  end.

(** The variable [left] of [solve]. *)
Definition left_at (L : layout) (m : matrix) (i c : nat) : option addr :=
  match rowW m i c with
  | [] => None
  | j :: rest => Some (cellA L i (List.last rest j))
  end.

Record rows_built (m : matrix) (hb nb i c : nat) (s : heap) : Prop := {
  rb_hdrs : length (hdrs s) = hb + ncols m;
  rb_nodes : length (nodes s) = nb + ncols m + rank m i c;
  rb_head : ∀ j, j < ncols m → head_of s (hb + j) = Some (nb + j);
  rb_hring :
    chain (hlink Next s) (hlink Prev s) hb ((λ j, hb + j) <$> seq 1 (ncols m - 1)) hb;
  rb_col : ∀ j, j < ncols m →
    ring (link Down s) (link Up s) (nb + j)
      ((λ i', cellA (build_layout m hb nb) i' j) <$> colV m i c j) ∧
    length_of s (hb + j) = Some (Z.of_nat (length (colV m i c j)));
  rb_rows : ∀ i', i' < i → row_ring s (cellA (build_layout m hb nb) i') (row_cells m i');
  rb_row : row_ring s (cellA (build_layout m hb nb) i) (rowW m i c);
  rb_header : ∀ i' j', present m i' j' → (i' < i ∨ (i' = i ∧ j' < c)) →
    header_of s (cellA (build_layout m hb nb) i' j') = Some (hb + j') ∧
    rowNumber_of s (cellA (build_layout m hb nb) i' j') = Some i'
}.

Lemma rowW_S_present m i c : present m i c → rowW m i (S c) = rowW m i c ++ [c].
Proof. intros Hp. unfold rowW. rewrite (seq_S c 0), filter_app. simpl. by rewrite filter_cons_True. Qed.
Lemma rowW_S_absent m i c : ¬ present m i c → rowW m i (S c) = rowW m i c.
Proof.
  intros Hp. unfold rowW. rewrite (seq_S c 0), filter_app. simpl.
  rewrite filter_cons_False by done. by rewrite app_nil_r.
Qed.

Lemma colV_S_same m i c : present m i c → colV m i (S c) c = colV m i c c ++ [i].
Proof.
  intros Hp. unfold colV. rewrite decide_True by (split; [lia|done]).
  rewrite (decide_False (P := c < c ∧ _)) by lia. by rewrite app_nil_r.
Qed.
Lemma colV_S_other m i c j : j ≠ c ∨ ¬ present m i c → colV m i (S c) j = colV m i c j.
Proof.
  intros Hj. unfold colV. f_equal. apply decide_ext. split.
  - intros [H1 H2]. split; [|done]. destruct (decide (j = c)) as [->|]; [|lia]. naive_solver.
  - intros [H1 H2]. split; [lia|done].
Qed.

Lemma rank_S_present m i c : present m i c → rank m i (S c) = S (rank m i c).
Proof. intros Hp. unfold rank. fold (rowW m i (S c)). rewrite rowW_S_present by done.
  rewrite length_app. unfold rowW. simpl. lia. Qed.
Lemma rank_S_absent m i c : ¬ present m i c → rank m i (S c) = rank m i c.
Proof. intros Hp. unfold rank. fold (rowW m i (S c)). by rewrite rowW_S_absent. Qed.

Lemma left_at_S_present L m i c : present m i c → left_at L m i (S c) = Some (cellA L i c).
Proof.
  intros Hp. unfold left_at. rewrite rowW_S_present by done.
  destruct (rowW m i c) as [|j rest]; simpl; [done|]. by rewrite last_last.
Qed.
Lemma left_at_S_absent L m i c : ¬ present m i c → left_at L m i (S c) = left_at L m i c.
Proof. intros Hp. unfold left_at. by rewrite rowW_S_absent. Qed.

Lemma last_fmap {A B} (f : A → B) l a : List.last (f <$> l) (f a) = f (List.last l a).
Proof.
  revert a. induction l as [|x l IH]; intros a; [done|].
  rewrite fmap_cons, !last_cons_cons. apply IH.
Qed.

Lemma elem_of_colV m i c j i' : i' ∈ colV m i c j → present m i' j ∧ (i' < i ∨ (i' = i ∧ j < c)).
Proof.
  unfold colV. intros [[Hp Hi%elem_of_seq]%list_elem_of_filter|Hi]%elem_of_app.
  - split; [done|lia].
  - case_decide as H; [|set_solver]. apply list_elem_of_singleton in Hi as ->. naive_solver.
Qed.

Lemma elem_of_rowW m i c j : j ∈ rowW m i c ↔ present m i j ∧ j < c.
Proof. unfold rowW. rewrite list_elem_of_filter, elem_of_seq. naive_solver lia. Qed.

Lemma elem_of_row_cells m i j : j ∈ row_cells m i ↔ present m i j.
Proof.
  unfold row_cells. rewrite list_elem_of_filter, elem_of_seq. split; [naive_solver|].
  intros Hp. split; [done|]. apply present_lt in Hp as [? _]. lia.
Qed.

Lemma length_nodes_put_rowNumber n v s :
  length (nodes (put_rowNumber n v s)) = length (nodes s).
Proof. apply length_nodes_put_node. Qed.
Lemma length_hdrs_put_rowNumber n v s :
  length (hdrs (put_rowNumber n v s)) = length (hdrs s).
Proof. done. Qed.

Lemma ring_valid (F B : nat → option nat) hd l x :
  ring F B hd l → x ∈ hd :: l → is_Some (F x) ∧ is_Some (B x).
Proof.
  intros [Hc _] Hx. split.
  - by eapply chain_valid.
  - eapply chain_valid_back; [exact Hc|]. set_solver.
Qed.

Lemma add_cell_absent m hb nb i c s :
  ¬ present m i c → rows_built m hb nb i c s → rows_built m hb nb i (S c) s.
Proof.
  intros Hp [H1 H2 H3 H4 H5 H6 H7 H8]. split; try done.
  - by rewrite rank_S_absent.
  - intros j Hj. rewrite colV_S_other by (by right). by apply H5.
  - by rewrite rowW_S_absent.
  - intros i' j' Hp' Hlt. apply H8; [done|].
    destruct Hlt as [?|[-> ?]]; [by left|]. right. split; [done|].
    destruct (decide (j' = c)) as [->|]; [done|lia].
Qed.

Lemma add_cell_present m hb nb i c s v :
  truthy v → present m i c → rows_built m hb nb i c s →
  ∃ s', add_cell ((λ j, hb + j) <$> seq 0 (ncols m)) i v c
          (s, left_at (build_layout m hb nb) m i c) =
          Ok (s', left_at (build_layout m hb nb) m i (S c)) ∧
        rows_built m hb nb i (S c) s'.
Proof.
  intros Hv Hp [Hh Hn Hhead Hhr Hcol Hrows Hrow Hhdr].
  set (L := build_layout m hb nb) in *.
  pose proof (build_layout_ok m hb nb) as HL. fold L in HL.
  pose proof (present_lt _ _ _ Hp) as [Hc Hi].
  unfold add_cell. apply Is_true_true in Hv. rewrite Hv.
  rewrite list_lookup_fmap, lookup_seq_lt by done. cbn [fmap option_fmap option_map].
  rewrite Nat.add_0_l.
  rewrite (Hhead c Hc). cbn [deref obind].
  destruct (Hcol c Hc) as (Hring & Hlen).
  pose proof Hring as [Hchain Hnd].
  pose proof (chain_last _ _ _ _ _ Hchain) as [Hd Hu].
  set (u := List.last ((λ i', cellA L i' c) <$> colV m i c c) (nb + c)) in *.
  rewrite Hu.
  assert (valid_node s (nb + c)) as Vd by (by eapply link_valid).
  set (node := length (nodes s)).
  assert (node = cellA L i c) as Hnode by (subst node L; simpl; lia).
  (* the row ring *)
  set (r := match rowW m i c with [] => node | j :: _ => cellA L i j end).
  assert (after_left s (left_at L m i c) r) as Hleft.
  { unfold left_at, r. unfold row_ring in Hrow. destruct (rowW m i c) as [|j rest]; [done|].
    destruct Hrow as [Hrc _]. pose proof (chain_last _ _ _ _ _ Hrc) as [HF HB].
    rewrite last_fmap in HF, HB. split; [done|]. by eapply link_valid. }
  destruct (createNode_spec (hb + c) (left_at L m i c) (Some u) s r (nb + c) Hleft)
    as (s2 & Hcn & Hn2 & Hh2 & HR & HLf & HD & HU & HH & HRN); [by split|].
  fold node in Hcn, HR, HLf, HD, HU, HH. simpl in HD, HU.
  rewrite Hcn. cbn [obind].
  rewrite set_rowNumber_ok by (unfold valid_node; lia). cbn [obind].
  rewrite add_length_ok by (unfold valid_hdr; rewrite length_hdrs_put_rowNumber, Hh2; lia).
  rewrite left_at_S_present by done. rewrite <- Hnode.
  eexists. split; [reflexivity|].
  set (s' := put_length _ _ _).
  assert (∀ d x, link d s' x = link d s2 x) as Hlink.
  { intros d x. subst s'. by rewrite link_put_length, link_put_rowNumber. }
  assert (∀ x, x ∈ (nb + c) :: ((λ i', cellA L i' c) <$> colV m i c c) → x < node) as Hold_col.
  { intros x Hx. destruct (ring_valid _ _ _ _ _ Hring Hx) as [[y Hy] _].
    by apply link_valid in Hy. }
  assert (u < node) as Hu_old by (apply Hold_col, last_elem_of).
  (* the objects of the current row *)
  set (l := default node (left_at L m i c)) in *.
  assert (∀ i' j', present m i' j' → i' < i → cellA L i' j' ≠ l ∧ cellA L i' j' ≠ r ∧
            cellA L i' j' < node) as Hother_rows.
  { intros i' j' Hp' Hlt.
    assert (cellA L i' j' < node) as Hlt'.
    { rewrite Hnode. subst L. simpl. pose proof (rank_lt m i' j' i c Hp' ltac:(lia)). lia. }
    split_and!; [| |done].
    - subst l. unfold left_at. destruct (rowW m i c) as [|j rest] eqn:E; cbn [from_option id]; [lia|].
      assert (List.last rest j ∈ rowW m i c) as Hin by (rewrite E; apply last_elem_of).
      apply elem_of_rowW in Hin as [Hp2 _]. intros Heq.
      destruct (lo_cell _ _ HL _ _ _ _ Hp' Hp2 Heq). lia.
    - subst r. destruct (rowW m i c) as [|j rest] eqn:E; [lia|].
      assert (j ∈ rowW m i c) as Hin by (rewrite E; set_solver).
      apply elem_of_rowW in Hin as [Hp2 _]. intros Heq.
      destruct (lo_cell _ _ HL _ _ _ _ Hp' Hp2 Heq). lia. }
  split; fold L.
  - subst s'. rewrite length_hdrs_put_length. by rewrite length_hdrs_put_rowNumber, Hh2.
  - rewrite rank_S_present by done. subst s'.
    rewrite length_nodes_put_length, length_nodes_put_rowNumber, Hn2. lia.
  - intros j Hj. subst s'. rewrite head_of_put_length.
    rewrite (head_of_same_hdrs s2 (put_rowNumber node i s2)) by done.
    rewrite (head_of_same_hdrs s s2) by done. by apply Hhead.
  - eapply chain_ext; [| |exact Hhr]; intros x _; subst s'; rewrite hlink_put_length;
      rewrite (hlink_same_hdrs _ s2 (put_rowNumber node i s2)) by done;
      by rewrite (hlink_same_hdrs _ s s2).
  - intros j Hj. destruct (decide (j = c)) as [->|Hne].
    + rewrite colV_S_same by done. rewrite fmap_app. cbn [fmap list_fmap]. rewrite <- Hnode. split.
      * split.
        -- eapply chain_snoc_ring; [exact Hchain|exact Hnd|..]; fold u.
           ++ intros x Hx. rewrite Hlink, HD. specialize (Hold_col x Hx).
              by rewrite (decide_False (P := x = node)) by lia.
           ++ rewrite Hlink, HD. rewrite decide_False by lia. by rewrite decide_True.
           ++ intros x Hx. rewrite Hlink, HU. specialize (Hold_col x Hx).
              by rewrite (decide_False (P := x = node)) by lia.
           ++ rewrite Hlink, HU. rewrite decide_False by lia. by rewrite decide_True.
        -- rewrite app_comm_cons. apply NoDup_app. split_and!; [done| |apply NoDup_singleton].
           intros x Hx ->%list_elem_of_singleton. specialize (Hold_col _ Hx). lia.
      * subst s'. rewrite length_of_put_length, decide_True by done.
        rewrite (length_of_same_hdrs s2 (put_rowNumber node i s2)) by done.
        rewrite (length_of_same_hdrs s s2) by done. rewrite Hlen. simpl. f_equal.
        rewrite length_app. simpl. lia.
    + rewrite colV_S_other by (by left). destruct (Hcol j Hj) as (Hring' & Hlen'). split.
      * eapply ring_ext; [| |exact Hring']; intros x Hx; rewrite Hlink.
        -- rewrite HD.
           assert (x < node) as Hxn.
           { destruct (ring_valid _ _ _ _ _ Hring' Hx) as [[y Hy] _]. by apply link_valid in Hy. }
           rewrite decide_False; [by rewrite decide_False by lia|].
           intros ->. apply Hne. eapply (col_addr_inj m L j c u); [done..| |].
           ++ apply elem_of_cons in Hx as [->|Hx]; [by left|].
              apply list_elem_of_fmap in Hx as (i' & -> & [Hi' _]%elem_of_colV). right. eauto.
           ++ pose proof (last_elem_of (nb + c) ((λ i', cellA L i' c) <$> colV m i c c)) as Hin.
              fold u in Hin. apply elem_of_cons in Hin as [->|Hin]; [by left|].
              apply list_elem_of_fmap in Hin as (i' & -> & [Hi' _]%elem_of_colV). right. eauto.
        -- rewrite HU.
           assert (x < node) as Hxn.
           { destruct (ring_valid _ _ _ _ _ Hring' Hx) as [[y Hy] _]. by apply link_valid in Hy. }
           rewrite decide_False; [by rewrite decide_False by lia|].
           intros ->. apply Hne. eapply (col_addr_inj m L j c (nb + c)); [done..| |by left].
           apply elem_of_cons in Hx as [->|Hx]; [by left|].
           apply list_elem_of_fmap in Hx as (i' & -> & [Hi' _]%elem_of_colV). right. eauto.
      * subst s'. rewrite length_of_put_length, decide_False by lia.
        rewrite (length_of_same_hdrs s2 (put_rowNumber node i s2)) by done.
        by rewrite (length_of_same_hdrs s s2).
  - intros i' Hi'. specialize (Hrows i' Hi'). unfold row_ring in *.
    destruct (row_cells m i') as [|j rest] eqn:E; [done|].
    eapply ring_ext; [| |exact Hrows]; intros x Hx; rewrite Hlink.
    + assert (∃ j', present m i' j' ∧ x = cellA L i' j') as (j' & Hp' & ->).
      { rewrite <- fmap_cons in Hx. apply list_elem_of_fmap in Hx as (j' & -> & Hj').
        exists j'. split; [|done]. apply elem_of_row_cells. by rewrite E. }
      destruct (Hother_rows i' j' Hp' Hi') as (H1 & H2 & H3).
      rewrite HR. by rewrite !decide_False by (done || lia).
    + assert (∃ j', present m i' j' ∧ x = cellA L i' j') as (j' & Hp' & ->).
      { rewrite <- fmap_cons in Hx. apply list_elem_of_fmap in Hx as (j' & -> & Hj').
        exists j'. split; [|done]. apply elem_of_row_cells. by rewrite E. }
      destruct (Hother_rows i' j' Hp' Hi') as (H1 & H2 & H3).
      rewrite HLf. by rewrite !decide_False by (done || lia).
  - rewrite rowW_S_present by done. unfold row_ring in *. subst l r. unfold left_at in *.
    destruct (rowW m i c) as [|j rest] eqn:E; cbn [from_option id app fmap list_fmap] in *.
    + rewrite <- Hnode. split; [|apply NoDup_singleton].
      cbn [chain]. rewrite !Hlink, HR, HLf. by rewrite !decide_True.
    + rewrite fmap_app. cbn [fmap list_fmap]. rewrite <- Hnode.
      destruct Hrow as [Hrc Hrnd].
      assert (∀ x, x ∈ cellA L i j :: (cellA L i <$> rest) → x < node) as Hold_row.
      { intros x Hx. destruct (ring_valid _ _ _ _ _ (conj Hrc Hrnd) Hx) as [[y Hy] _].
        by apply link_valid in Hy. }
      split.
      * eapply chain_snoc_ring; [exact Hrc|exact Hrnd|..]; rewrite ?last_fmap.
        -- intros x Hx. rewrite Hlink, HR. specialize (Hold_row x Hx).
           by rewrite (decide_False (P := x = node)) by lia.
        -- rewrite Hlink, HR.
           assert (node ≠ cellA L i (List.last rest j)) as Hne.
           { pose proof (Hold_row (cellA L i (List.last rest j))) as Hlt.
             rewrite <- last_fmap in Hlt. specialize (Hlt (last_elem_of _ _)).
             rewrite last_fmap in Hlt. lia. }
           rewrite decide_False by done. by rewrite decide_True.
        -- intros x Hx. rewrite Hlink, HLf. specialize (Hold_row x Hx).
           by rewrite (decide_False (P := x = node)) by lia.
        -- rewrite Hlink, HLf.
           assert (node ≠ cellA L i j) as Hne.
           { specialize (Hold_row (cellA L i j) ltac:(set_solver)). lia. }
           rewrite decide_False by done. by rewrite decide_True.
      * rewrite app_comm_cons. apply NoDup_app. split_and!; [done| |apply NoDup_singleton].
        intros x Hx ->%list_elem_of_singleton. specialize (Hold_row _ Hx). lia.
  - intros i' j' Hp' Hlt. subst s'.
    rewrite header_of_put_length, header_of_put_rowNumber, rowNumber_of_put_length.
    rewrite rowNumber_of_put_rowNumber by (unfold valid_node; lia). rewrite HH, HRN.
    destruct (decide (i' = i ∧ j' = c)) as [[-> ->]|Hne].
    + rewrite <- Hnode. by rewrite !decide_True.
    + assert (cellA L i' j' < node) as Hlt'.
      { rewrite Hnode. subst L. simpl.
        pose proof (rank_lt m i' j' i c Hp' ltac:(lia)). lia. }
      rewrite !decide_False by lia. apply Hhdr; [done|lia].
Qed.

(** ** The matrices [solve] accepts *)

(** Every row has as many cells as the first one. *)
Definition rectangular (m : matrix) : Prop :=
  Forall (λ row, length row = ncols m) m.

(** No truthy cell lies beyond the last column of the first row. *)
Definition fits (m : matrix) : Prop :=
  ∀ i row j v, m !! i = Some row → row !! j = Some v → truthy v → j < ncols m.

Lemma rectangular_fits m : rectangular m → fits m.
Proof.
  intros Hr i row j v Hi Hj _. unfold rectangular in Hr. rewrite Forall_forall in Hr.
  rewrite <- (Hr row) by (by eapply list_elem_of_lookup_2). by eapply lookup_lt_Some.
Qed.

Lemma present_truthy m i row j v :
  fits m → m !! i = Some row → row !! j = Some v → present m i j ↔ truthy v.
Proof.
  intros Hf Hi Hj. unfold present. rewrite Hi. simpl. rewrite Hj. split.
  - by intros [_ ?]%andb_prop_elim.
  - intros Hv. apply andb_prop_intro. split; [|done]. apply bool_decide_pack. eauto.
Qed.

Lemma present_row_lt m i row j : m !! i = Some row → present m i j → j < length row.
Proof.
  intros Hi [_ Hp]%andb_prop_elim. rewrite Hi in Hp. simpl in Hp.
  destruct (row !! j) eqn:E; [|done]. by eapply lookup_lt_Some.
Qed.

Lemma add_cells_spec m hb nb i row :
  fits m → m !! i = Some row →
  ∀ rest pre s, row = pre ++ rest → rows_built m hb nb i (length pre) s →
  ∃ s', add_cells ((λ j, hb + j) <$> seq 0 (ncols m)) i rest (length pre)
          (s, left_at (build_layout m hb nb) m i (length pre)) =
          Ok (s', left_at (build_layout m hb nb) m i (length row)) ∧
        rows_built m hb nb i (length row) s'.
Proof.
  intros Hf Hi. induction rest as [|v rest IH]; intros pre s Hrow Hb.
  - rewrite app_nil_r in Hrow. subst pre. exists s. done.
  - assert (row !! length pre = Some v) as Hv.
    { rewrite Hrow. by rewrite lookup_app_r, Nat.sub_diag by lia. }
    pose proof (present_truthy m i row (length pre) v Hf Hi Hv) as Hpt.
    assert (∃ s1, add_cell ((λ j, hb + j) <$> seq 0 (ncols m)) i v (length pre)
              (s, left_at (build_layout m hb nb) m i (length pre)) =
              Ok (s1, left_at (build_layout m hb nb) m i (S (length pre))) ∧
            rows_built m hb nb i (S (length pre)) s1) as (s1 & Hadd & Hb1).
    { destruct (truthy v) eqn:Ev.
      - apply add_cell_present; [by rewrite Ev|by apply Hpt|done].
      - exists s. unfold add_cell. rewrite Ev.
        assert (¬ present m i (length pre)) as Hnp by (intros Hp; by apply Hpt in Hp).
        rewrite left_at_S_absent by done. split; [done|]. by apply add_cell_absent. }
    destruct (IH (pre ++ [v]) s1) as (s' & Hadds & Hb').
    { by rewrite <- app_assoc. }
    { rewrite length_app. simpl. by rewrite Nat.add_1_r. }
    rewrite length_app in Hadds. simpl in Hadds. rewrite Nat.add_1_r in Hadds.
    exists s'. cbn [add_cells]. rewrite Hadd. cbn [obind]. done.
Qed.

Lemma rows_built_next_row m hb nb i row s :
  m !! i = Some row → rows_built m hb nb i (length row) s → rows_built m hb nb (S i) 0 s.
Proof.
  intros Hi [H1 H2 H3 H4 H5 H6 H7 H8].
  assert (∀ j, present m i j → j < length row) as Hlt by (intros; by eapply present_row_lt).
  assert (rowW m i (length row) = row_cells m i) as HW.
  { unfold rowW, row_cells. apply filter_seq_range. intros j Hj. split; [by apply Hlt|].
    by apply present_lt in Hj as [? _]. }
  split; try done.
  - by rewrite <- (rank_row_end m i (length row)).
  - intros j Hj. assert (colV m (S i) 0 j = colV m i (length row) j) as ->; [|by apply H5].
    unfold colV. rewrite (seq_S i 0), filter_app, (decide_False (P := j < 0 ∧ _)) by lia.
    rewrite app_nil_r. f_equal. simpl. rewrite filter_cons, filter_nil.
    destruct (decide (present m i j)) as [Hp|Hp].
    + rewrite decide_True; [done|]. split; [by apply Hlt|done].
    + by rewrite decide_False by naive_solver.
  - intros i' Hi'. destruct (decide (i' = i)) as [->|]; [by rewrite <- HW|]. apply H6. lia.
  - intros i' j' Hp [Hlt'|[? ?]]; [|lia]. apply H8; [done|].
    destruct (decide (i' = i)) as [->|]; [|left; lia]. right. split; [done|by apply Hlt].
Qed.

Lemma add_rows_spec m hb nb :
  fits m →
  ∀ rows pre s, m = pre ++ rows → rows_built m hb nb (length pre) 0 s →
  ∃ s', add_rows ((λ j, hb + j) <$> seq 0 (ncols m)) rows (length pre) s = Ok s' ∧
        rows_built m hb nb (nrows m) 0 s'.
Proof.
  intros Hf. induction rows as [|row rows IH]; intros pre s Hm Hb.
  - rewrite app_nil_r in Hm. subst pre. exists s. done.
  - assert (m !! length pre = Some row) as Hi.
    { rewrite Hm. by rewrite lookup_app_r, Nat.sub_diag by lia. }
    destruct (add_cells_spec m hb nb (length pre) row Hf Hi row [] s eq_refl Hb)
      as (s1 & Hadd & Hb1).
    apply (rows_built_next_row _ _ _ _ _ _ Hi) in Hb1.
    destruct (IH (pre ++ [row]) s1) as (s' & Hadds & Hb').
    { by rewrite <- app_assoc. }
    { rewrite length_app. simpl. by rewrite Nat.add_1_r. }
    rewrite length_app in Hadds. simpl in Hadds. rewrite Nat.add_1_r in Hadds.
    exists s'. cbn [add_rows]. simpl length in Hadd. unfold left_at at 1 in Hadd.
    unfold rowW at 1 in Hadd. simpl in Hadd. rewrite Hadd. cbn [obind fst]. done.
Qed.

Lemma colV_0_0 m j : colV m 0 0 j = [].
Proof. unfold colV. by rewrite decide_False by lia. Qed.

Lemma rows_built_init m hb nb s :
  0 < ncols m → cols_built hb nb (ncols m) s → rows_built m hb nb 0 0 s.
Proof.
  intros Hn [H1 H2 H3 H4 H5 H6 H7]. split.
  - done.
  - unfold rank. simpl. lia.
  - done.
  - by apply H5.
  - intros j Hj. rewrite colV_0_0. cbn [fmap list_fmap length].
    destruct (H7 j Hj) as [Hd Hu]. split; [|by apply H4].
    split; [done|apply NoDup_singleton].
  - intros. lia.
  - done.
  - intros. lia.
Qed.

(** ** The root *)

Lemma make_root_spec s columns c0 p :
  columns !! 0 = Some c0 → hlink Prev s c0 = Some p → valid_hdr s p →
  let root := length (hdrs s) in
  ∃ s', make_root columns s = Ok (root, s') ∧
    nodes s' = nodes s ∧
    (∀ x, hlink Next s' x =
       if decide (x = p) then Some root else if decide (x = root) then Some c0
       else hlink Next s x) ∧
    (∀ x, hlink Prev s' x =
       if decide (x = c0) then Some root else if decide (x = root) then Some p
       else hlink Prev s x) ∧
    (∀ x, head_of s' x = head_of s x) ∧
    (∀ x, length_of s' x = length_of s x).
Proof.
  intros Hc0 Hp Vp root. unfold make_root, alloc_hdr. fold (grow_hdrs s). fold root.
  assert (root = length (hdrs s)) as Hroot by done. clearbody root.
  assert (valid_hdr s c0) as Vc by (by eapply hlink_valid).
  unfold valid_hdr in *. rewrite Hc0.
  hread_simpl. rewrite Hp. cbn [deref obind].
  repeat hwrite_simpl. hread_simpl. dec_simpl. rewrite Hp. cbn [deref obind].
  repeat hwrite_simpl.
  eexists. split; [reflexivity|]. split; [done|].
  split_and!; intros x; hread_simpl; repeat case_decide; subst; try done; try lia.
Qed.

Lemma ring_rotate (F B : nat → option nat) a l pre x post :
  chain F B a l a → a :: l = pre ++ x :: post → chain F B x (post ++ pre) x.
Proof.
  intros Hc E. destruct pre as [|a' pre]; simpl in E.
  - injection E as -> ->. by rewrite app_nil_r.
  - injection E as <- ->. apply chain_app in Hc as [H1 H2]. apply chain_app. done.
Qed.

Lemma row_cells_split m i j :
  present m i j →
  row_cells m i =
    filter (λ j', present m i j') (seq 0 j) ++ j ::
    filter (λ j', present m i j') (seq (S j) (ncols m - S j)).
Proof.
  intros Hp. pose proof (present_lt _ _ _ Hp) as [Hj _]. unfold row_cells.
  replace (ncols m) with (j + S (ncols m - S j)) at 1 by lia.
  rewrite seq_app, filter_app. simpl. by rewrite filter_cons_True.
Qed.

(** ** What [solve] has built when it calls [recurse] *)

Theorem build_rep m s0 :
  fits m → 0 < ncols m →
  let L := build_layout m (length (hdrs s0)) (length (nodes s0)) in
  ∃ s, build m s0 = Ok (rootA L, s) ∧ rep m L s (seq 0 (ncols m)) (seq 0 (nrows m)).
Proof.
  intros Hf Hn L. set (hb := length (hdrs s0)) in *. set (nb := length (nodes s0)) in *.
  unfold build. unfold ncols in Hn. destruct (m !! 0) as [row0|] eqn:E0; [|lia].
  assert (length row0 = ncols m) as Hrow0 by (unfold ncols; by rewrite E0).
  destruct (make_columns_spec (length row0) hb nb 0 s0 (cols_built_init s0))
    as (s1 & Hmk & Hb1).
  simpl in Hmk. rewrite Hmk. cbn [obind]. rewrite Hrow0 in *.
  apply (rows_built_init m) in Hb1; [|lia].
  destruct (add_rows_spec m hb nb Hf m [] s1 eq_refl Hb1) as (s2 & Hrows & Hb2).
  simpl in Hrows. rewrite Hrows. cbn [obind].
  destruct Hb2 as [Hh Hnn Hhead Hhr Hcol Hrws _ Hhdr].
  pose proof (chain_last _ _ _ _ _ Hhr) as [Hlast Hprev].
  set (p := List.last ((λ j, hb + j) <$> seq 1 (ncols m - 1)) hb) in *.
  assert (valid_hdr s2 p) as Vp by (by eapply hlink_valid).
  destruct (make_root_spec s2 ((λ j, hb + j) <$> seq 0 (ncols m)) hb p)
    as (s & Hroot & Hns & HN & HP & HHd & HLen); [|done|done|].
  { rewrite list_lookup_fmap, lookup_seq_lt by lia. simpl. f_equal. lia. }
  rewrite Hh in Hroot, HN, HP. rewrite Hroot. exists s. split; [done|].
  pose proof (build_layout_ok m hb nb) as HL. fold L in HL.
  assert (∀ d x, link d s x = link d s2 x) as Hlink.
  { intros d x. unfold link. by rewrite Hns. }
  assert (static m L s) as Hst.
  { split.
    - done.
    - intros j Hj. rewrite HHd. by apply Hhead.
    - intros i j Hp. unfold header_of. rewrite Hns.
      apply Hhdr; [done|]. apply present_lt in Hp as [_ ?]. by left.
    - intros i j Hp. unfold rowNumber_of. rewrite Hns.
      apply Hhdr; [done|]. apply present_lt in Hp as [_ ?]. by left.
    - intros i j Hp. pose proof (present_lt _ _ _ Hp) as [_ Hi].
      specialize (Hrws i Hi). unfold row_ring in Hrws.
      pose proof (row_cells_split m i j Hp) as Hsplit.
      destruct (row_cells m i) as [|f rest] eqn:Erc.
      { by destruct (filter _ (seq 0 j)). }
      destruct Hrws as [Hrc _].
      eapply chain_ext; [intros; apply Hlink|intros; apply Hlink|].
      unfold sibs. rewrite fmap_app.
      eapply (ring_rotate _ _ (cellA L i f) (cellA L i <$> rest)
                (cellA L i <$> filter (λ j', present m i j') (seq 0 j))); [done|].
      rewrite <- fmap_cons, Hsplit, fmap_app. done. }
  split; [split|apply NoDup_seq|].
  - done.
  - assert (seq 0 (ncols m) = 0 :: seq 1 (ncols m - 1)) as ->.
    { destruct (ncols m); [lia|]. simpl. by rewrite Nat.sub_0_r. }
    unfold L. cbn [build_layout rootA colA]. rewrite fmap_cons, Nat.add_0_r.
    assert (NoDup (hb + ncols m :: hb :: ((λ j, hb + j) <$> seq 1 (ncols m - 1)))) as Hnd.
    { apply NoDup_cons. split.
      - intros [?|(j & ? & Hj%elem_of_seq)%list_elem_of_fmap]%elem_of_cons; lia.
      - apply NoDup_cons. split.
        + intros (j & ? & Hj%elem_of_seq)%list_elem_of_fmap. lia.
        + apply NoDup_fmap_add, NoDup_seq. }
    split; [|done]. cbn [chain]. split_and!.
    + rewrite HN. rewrite decide_False, decide_True; [done|done|].
      pose proof (last_elem_of hb ((λ j, hb + j) <$> seq 1 (ncols m - 1))) as Hin.
      fold p in Hin. intros E. rewrite <- E in Hin.
      apply NoDup_cons in Hnd as [Hnd _]. done.
    + rewrite HP. by rewrite decide_True.
    + apply NoDup_cons in Hnd as [Hr Hnd].
      eapply chain_relast; [exact Hhr|done|..]; fold p.
      * intros z Hz Hne. rewrite HN. rewrite !decide_False; [done| |done].
        intros ->. apply Hr. set_solver.
      * intros z Hz. rewrite HP. rewrite !decide_False; [done|..].
        -- intros ->. apply Hr. set_solver.
        -- intros ->. apply NoDup_cons in Hnd as [? _]. done.
      * rewrite HN. by rewrite decide_True.
      * rewrite HP. rewrite decide_False.
        -- by rewrite decide_True.
        -- lia.
  - intros j Hj%elem_of_seq. lia.
  - intros j Hj%elem_of_seq. lia.
  - intros j Hj%elem_of_seq. destruct (Hcol j ltac:(lia)) as [Hring Hlen].
    assert (colV m (nrows m) 0 j = col_rows m (seq 0 (nrows m)) j) as Ecol.
    { unfold colV, col_rows. rewrite decide_False by lia. by rewrite app_nil_r. }
    rewrite Ecol in Hring, Hlen. split_and!.
    + eapply ring_ext; [intros; apply Hlink|intros; apply Hlink|done].
    + by rewrite HLen.
    + by intros i [? _]%list_elem_of_filter.
  - intros i j Hi Hp. apply elem_of_seq. apply present_lt in Hp as [? _]. lia.
Qed.

(** * Part VIII: what the search finds *)

(** The state of the search after row [i] has been chosen for column [b]. *)
Definition after_row (m : matrix) (C R : list nat) (b i : nat) : list nat * list nat :=
  fold_left (acover m) (sibs m i b) (acover m (C, R) b).

(** Algorithm X on the matrix: the rows chosen on every path of the search
    that ends with an empty ring, in the order of the search. *)
Fixpoint paths (n : nat) (m : matrix) (C R : list nat) : list (list nat) :=
  match n with
  | 0 => []
  | S n' =>
      match C with
      | [] => [[]]
      | _ =>
          match achoose m C R with
          | Some b =>
              flat_map (λ i, (λ x, i :: x) <$>
                             paths n' m (after_row m C R b i).1 (after_row m C R b i).2)
                (col_rows m R b)
          | None => []
          end
      end
  end.

Lemma array_set_take {A} k (v : option A) a :
  k ≤ length a → take k (array_set k v a) = take k a.
Proof.
  intros Hk. unfold array_set. case_decide.
  - by rewrite take_insert_ge by lia.
  - by rewrite !take_app_le by lia.
Qed.

Lemma array_set_lookup {A} k (v : option A) a :
  k ≤ length a → array_set k v a !! k = Some v.
Proof.
  intros Hk. unfold array_set. case_decide.
  - by rewrite list_lookup_insert_eq.
  - assert (k = length a) as -> by lia. rewrite Nat.sub_diag. simpl.
    by rewrite lookup_app_r, Nat.sub_diag by lia.
Qed.

Lemma array_set_length {A} k (v : option A) a :
  k ≤ length a → k < length (array_set k v a).
Proof.
  intros Hk. unfold array_set. case_decide.
  - by rewrite length_insert.
  - rewrite !length_app, length_replicate. simpl. lia.
Qed.

Lemma take_S_lookup {A} k (a : list A) v :
  a !! k = Some v → take (S k) a = take k a ++ [v].
Proof. intros H. by apply take_S_r. Qed.

(** Without a cap, every path of the search pushes one solution: the chosen
    rows, after the entries of [partials] below the depth [k] and before
    whatever [partials] holds beyond. *)
Definition pushed (k : nat) (parts : list (option nat)) (t : solution) (x : list nat) : Prop :=
  ∃ tail, t = take k parts ++ (Some <$> x) ++ tail.

Lemma asearch_paths n : ∀ m C R k sols parts,
  k ≤ length parts →
  ∃ news parts',
    asearch n m 0 C R k (sols, parts) = (sols ++ news, parts') ∧
    Forall2 (pushed k parts) news (paths n m C R) ∧
    take k parts' = take k parts ∧ k ≤ length parts'.
Proof.
  induction n as [|n IH]; intros m C R k sols parts Hk.
  { exists [], parts. simpl. rewrite app_nil_r. split_and!; try done; constructor. }
  destruct (decide (C = [])) as [->|HC].
  { exists [parts], parts. simpl. split_and!; try done.
    constructor; [|constructor]. exists (drop k parts). simpl. by rewrite take_drop. }
  rewrite asearch_S_cons by done. cbn [fst snd].
  assert (paths (S n) m C R = match achoose m C R with
    | Some b => flat_map (λ i, (λ x, i :: x) <$>
                   paths n m (after_row m C R b i).1 (after_row m C R b i).2) (col_rows m R b)
    | None => [] end) as -> by (by destruct C).
  rewrite bool_decide_false by (intros ?; done). cbn [andb].
  destruct (achoose m C R) as [b|].
  2:{ exists [], parts. rewrite app_nil_r. split_and!; try done; constructor. }
  assert (∀ rows sols parts, k ≤ length parts →
    ∃ news parts',
      fold_left (λ acc i,
          asearch n m 0 (after_row m C R b i).1 (after_row m C R b i).2 (k + 1)
            (acc.1, array_set k (Some i) acc.2))
        rows (sols, parts) = (sols ++ news, parts') ∧
      Forall2 (pushed k parts) news
        (flat_map (λ i, (λ x, i :: x) <$>
           paths n m (after_row m C R b i).1 (after_row m C R b i).2) rows) ∧
      take k parts' = take k parts ∧ k ≤ length parts') as Hrows.
  { clear sols parts Hk. induction rows as [|i rows IHr]; intros sols parts Hk.
    - exists [], parts. simpl. rewrite app_nil_r. split_and!; try done; constructor.
    - cbn [fold_left flat_map fst snd].
      pose proof (array_set_length k (Some i) parts Hk) as Hlen.
      destruct (IH m (after_row m C R b i).1 (after_row m C R b i).2 (k + 1) sols
                  (array_set k (Some i) parts)) as (news1 & parts1 & E1 & F1 & T1 & L1); [lia|].
      rewrite E1.
      assert (take k parts1 = take k parts) as T1'.
      { transitivity (take k (take (k + 1) parts1)).
        { by rewrite take_take, Nat.min_l by lia. }
        rewrite T1, take_take, Nat.min_l by lia. by apply array_set_take. }
      destruct (IHr (sols ++ news1) parts1) as (news2 & parts2 & E2 & F2 & T2 & L2); [lia|].
      rewrite E2. exists (news1 ++ news2), parts2. split_and!.
      + by rewrite app_assoc.
      + apply Forall2_app.
        * apply Forall2_fmap_r. eapply Forall2_impl; [exact F1|].
          intros t x [tail ->]. exists tail.
          replace (k + 1) with (S k) by lia.
          rewrite (take_S_lookup k _ (Some i)) by (by apply array_set_lookup).
          rewrite array_set_take by done. rewrite <- !app_assoc. done.
        * eapply Forall2_impl; [exact F2|]. intros t x [tail ->]. exists tail. by rewrite T1'.
      + by rewrite T2.
      + done. }
  case_bool_decide.
  - apply Hrows. done.
  - exists [], parts. rewrite app_nil_r. split_and!; try done.
    assert (col_rows m R b = []) as -> by (destruct (col_rows m R b); [done|simpl in *; lia]).
    constructor.
Qed.

(** With a cap, the search returns the first [max] solutions of the
    search without a cap. *)
Definition capped (max : nat) (c u : list solution * list (option nat)) : Prop :=
  c.1 = take max u.1 ∧ (length u.1 < max → c.2 = u.2).

Lemma asearch_extends n : ∀ m max C R k acc,
  ∃ news, (asearch n m max C R k acc).1 = acc.1 ++ news.
Proof.
  induction n as [|n IH]; intros m max C R k acc.
  { exists []. simpl. by rewrite app_nil_r. }
  simpl. destruct (bool_decide (max ≠ 0) && bool_decide (length acc.1 = max)).
  { exists []. by rewrite app_nil_r. }
  destruct C as [|j C'].
  { by exists [acc.2]. }
  destruct (achoose m (j :: C') R) as [b|]; [|exists []; by rewrite app_nil_r].
  destruct (bool_decide (0 < length (col_rows m R b))); [|exists []; by rewrite app_nil_r].
  generalize (col_rows m R b). intros rows. revert acc.
  induction rows as [|i rows IHr]; intros acc.
  - exists []. simpl. by rewrite app_nil_r.
  - simpl. destruct (IH m max (fold_left (acover m) (sibs m i b) (acover m (j :: C', R) b)).1
      (fold_left (acover m) (sibs m i b) (acover m (j :: C', R) b)).2 (k + 1)
      (acc.1, array_set k (Some i) acc.2)) as (news1 & E1).
    destruct (IHr (asearch n m max
      (fold_left (acover m) (sibs m i b) (acover m (j :: C', R) b)).1
      (fold_left (acover m) (sibs m i b) (acover m (j :: C', R) b)).2 (k + 1)
      (acc.1, array_set k (Some i) acc.2))) as (news2 & E2).
    exists (news1 ++ news2). rewrite E2, E1. simpl. by rewrite app_assoc.
Qed.

Lemma asearch_capped n : ∀ m max C R k c u,
  0 < max → capped max c u →
  capped max (asearch n m max C R k c) (asearch n m 0 C R k u).
Proof.
  induction n as [|n IH]; intros m max C R k c u Hmax Hcu; [done|].
  destruct Hcu as [H1 H2].
  destruct (decide (length c.1 = max)) as [Hfull|Hnot].
  - assert (asearch (S n) m max C R k c = c) as ->.
    { simpl. rewrite bool_decide_true by lia. by rewrite bool_decide_true. }
    destruct (asearch_extends (S n) m 0 C R k u) as (news & E).
    assert (max ≤ length u.1) as Hle.
    { rewrite H1, length_take in Hfull. lia. }
    split.
    + rewrite E, H1. by rewrite take_app_le by lia.
    + rewrite E, length_app. lia.
  - assert (length u.1 < max) as Hlt.
    { rewrite H1, length_take in Hnot. lia. }
    assert (c = u) as ->.
    { destruct c, u. simpl in *. rewrite H2 by done. by rewrite H1, take_ge by lia. }
    clear H1 H2.
    destruct (decide (C = [])) as [->|HC].
    { cbn [asearch]. rewrite (bool_decide_false (length u.1 = max)) by done.
      rewrite andb_false_r. rewrite (bool_decide_false (0 ≠ 0)) by (intros ?; done).
      cbn [andb]. split; simpl; [|done].
      rewrite take_ge; [done|]. rewrite length_app. simpl. lia. }
    rewrite !asearch_S_cons by done.
    rewrite (bool_decide_false (length u.1 = max)) by done. rewrite andb_false_r.
    rewrite (bool_decide_false (0 ≠ 0)) by (intros ?; done). cbn [andb].
    destruct (achoose m C R) as [b|].
    2:{ split; [|done]. by rewrite take_ge by lia. }
    destruct (bool_decide (0 < length (col_rows m R b))).
    2:{ split; [|done]. by rewrite take_ge by lia. }
    assert (capped max u u) as Huu.
    { split; [|done]. by rewrite take_ge by lia. }
    revert Huu. generalize u at 1 3 as c. generalize u. generalize (col_rows m R b).
    clear Hnot Hlt. intros rows. induction rows as [|i rows IHr]; intros u' c Hcu; [done|].
    simpl. apply IHr. apply IH; [done|]. destruct Hcu as [H1 H2]. split; simpl; [done|].
    intros Hlt. by rewrite H2.
Qed.

(** ** The paths of the search are the exact covers *)

(** The rows [S] cover every column of [C] exactly once. *)
Definition covers (m : matrix) (C S : list nat) : Prop :=
  ∀ j, j ∈ C → length (filter (λ i, present m i j) S) = 1.

(** A state of the search: no column and no row twice, and the candidate
    rows have their cells in the columns of the ring. *)
Record search_inv (m : matrix) (C R : list nat) : Prop := {
  si_C : NoDup C;
  si_R : NoDup R;
  si_closed : ∀ i j, i ∈ R → present m i j → j ∈ C
}.

Lemma rep_search_inv m L s C R : rep m L s C R → search_inv m C R.
Proof.
  intros [Hv HR Hcl]. split; [|done|done].
  destruct (vr_hring _ _ _ _ _ _ Hv) as [_ Hnd].
  apply NoDup_cons in Hnd as [_ Hnd]. by apply NoDup_fmap_1 in Hnd.
Qed.

Lemma acover_fold_fst m js : ∀ st j,
  j ∈ (fold_left (acover m) js st).1 ↔ j ∈ st.1 ∧ j ∉ js.
Proof.
  induction js as [|j0 js IH]; intros st j; simpl.
  - set_solver.
  - rewrite IH. simpl. rewrite list_elem_of_filter. set_solver.
Qed.

Lemma acover_fold_snd m js : ∀ st i,
  i ∈ (fold_left (acover m) js st).2 ↔ i ∈ st.2 ∧ ∀ j, j ∈ js → ¬ present m i j.
Proof.
  induction js as [|j0 js IH]; intros st i; simpl.
  - set_solver.
  - rewrite IH. simpl. rewrite list_elem_of_filter. set_solver.
Qed.

Lemma acover_fold_NoDup m js : ∀ st,
  NoDup st.1 → NoDup st.2 →
  NoDup (fold_left (acover m) js st).1 ∧ NoDup (fold_left (acover m) js st).2.
Proof.
  induction js as [|j0 js IH]; intros st H1 H2; simpl; [done|].
  apply IH; simpl; by apply NoDup_filter.
Qed.

Lemma elem_of_after_row_fst m C R b i j :
  present m i b →
  j ∈ (after_row m C R b i).1 ↔ j ∈ C ∧ ¬ present m i j.
Proof.
  intros Hb. unfold after_row. rewrite acover_fold_fst. simpl.
  rewrite list_elem_of_filter, elem_of_sibs. split.
  - intros [[Hne HC] Hs]. split; [done|]. intros Hp. apply Hs. done.
  - intros [HC Hp]. split_and!; [by intros ->|done|]. by intros [? _].
Qed.

Lemma elem_of_after_row_snd m C R b i i' :
  present m i b →
  i' ∈ (after_row m C R b i).2 ↔ i' ∈ R ∧ ∀ j, present m i j → ¬ present m i' j.
Proof.
  intros Hb. unfold after_row. rewrite acover_fold_snd. simpl.
  rewrite list_elem_of_filter. split.
  - intros [[Hnb HR] Hs]. split; [done|]. intros j Hp.
    destruct (decide (j = b)) as [->|Hne]; [done|]. apply Hs. by apply elem_of_sibs.
  - intros [HR Hd]. split_and!; [by apply Hd|done|]. intros j [Hp _]%elem_of_sibs. by apply Hd.
Qed.

Lemma after_row_inv m C R b i :
  search_inv m C R → present m i b →
  search_inv m (after_row m C R b i).1 (after_row m C R b i).2.
Proof.
  intros [HC HR Hcl] Hb.
  destruct (acover_fold_NoDup m (sibs m i b) (acover m (C, R) b)) as [H1 H2];
    [by apply NoDup_filter..|].
  split; [done|done|].
  intros i' j [Hi' Hd]%elem_of_after_row_snd Hp; [|done].
  apply elem_of_after_row_fst; [done|]. split; [by eapply Hcl|].
  intros Hpi. by apply (Hd j).
Qed.

Lemma after_row_length m C R b i :
  b ∈ C → length (after_row m C R b i).1 < length C.
Proof.
  intros Hb. unfold after_row. eapply Nat.le_lt_trans; [apply acover_fst_length|].
  simpl. apply (length_filter_lt _ _ b); [done|]. naive_solver.
Qed.

Lemma achoose_elem_of m C R b : achoose m C R = Some b → b ∈ C.
Proof. apply first_min_elem_of. Qed.

Lemma achoose_is_Some m C R : C ≠ [] → is_Some (achoose m C R).
Proof.
  intros HC. destruct (first_min_spec (λ j, Z.of_nat (length (col_rows m R j))) C HC)
    as (b & _ & _ & Hb & _). by exists b.
Qed.

Lemma paths_S_cons n m C R :
  C ≠ [] →
  paths (S n) m C R =
    match achoose m C R with
    | Some b => flat_map (λ i, (λ x, i :: x) <$>
                   paths n m (after_row m C R b i).1 (after_row m C R b i).2) (col_rows m R b)
    | None => []
    end.
Proof. by destruct C. Qed.

Lemma elem_of_flat_map {A B} (f : A → list B) (l : list A) (x : B) :
  x ∈ flat_map f l ↔ ∃ y, x ∈ f y ∧ y ∈ l.
Proof.
  rewrite list_elem_of_In, in_flat_map. split.
  - intros (y & Hy & Hx). exists y. by rewrite !list_elem_of_In.
  - intros (y & Hx & Hy). exists y. by rewrite <- !list_elem_of_In.
Qed.

Lemma elem_of_paths_S n m C R x :
  C ≠ [] →
  x ∈ paths (S n) m C R ↔
  ∃ b i x', achoose m C R = Some b ∧ i ∈ R ∧ present m i b ∧
            x' ∈ paths n m (after_row m C R b i).1 (after_row m C R b i).2 ∧ x = i :: x'.
Proof.
  intros HC. rewrite paths_S_cons by done. destruct (achoose m C R) as [b|].
  - rewrite elem_of_flat_map. split.
    + intros (i & (x' & -> & Hx')%list_elem_of_fmap & [Hp Hi]%list_elem_of_filter).
      exists b, i, x'. done.
    + intros (b' & i & x' & [= <-] & Hi & Hp & Hx' & ->). exists i. split.
      * apply list_elem_of_fmap. eauto.
      * by apply list_elem_of_filter.
  - split; [set_solver|]. by intros (? & ? & ? & ? & _).
Qed.

Lemma covers_cons_hit m C S i :
  covers m C (i :: S) ↔
  ∀ j, j ∈ C →
    if decide (present m i j) then filter (λ i', present m i' j) S = []
    else length (filter (λ i', present m i' j) S) = 1.
Proof.
  unfold covers. split; intros H j Hj; specialize (H j Hj); rewrite filter_cons in *;
    destruct (decide (present m i j)); simpl in *; try done.
  - destruct (filter _ S); [done|simpl in H; lia].
  - by rewrite H.
Qed.

Theorem paths_sound n : ∀ m C R x,
  search_inv m C R → length C < n → x ∈ paths n m C R →
  NoDup x ∧ (∀ i, i ∈ x → i ∈ R ∧ ∃ j, present m i j) ∧ covers m C x.
Proof.
  induction n as [|n IH]; intros m C R x Hinv Hlen Hx; [lia|].
  destruct (decide (C = [])) as [->|HC].
  { simpl in Hx. apply list_elem_of_singleton in Hx as ->.
    split_and!; [apply NoDup_nil_2|set_solver|]. intros j Hj. set_solver. }
  apply elem_of_paths_S in Hx as (b & i & x' & Hb & Hi & Hp & Hx' & ->); [|done].
  pose proof (achoose_elem_of _ _ _ _ Hb) as HbC.
  pose proof (after_row_length m C R b i HbC) as Hl.
  destruct (IH m _ _ x' (after_row_inv m C R b i Hinv Hp) ltac:(lia) Hx') as (Hnd & Hsub & Hcov).
  assert (∀ i', i' ∈ x' → ∀ j, present m i j → ¬ present m i' j) as Hdisj.
  { intros i' Hi'. destruct (Hsub i' Hi') as [HR _].
    apply elem_of_after_row_snd in HR as [_ ?]; done. }
  split_and!.
  - apply NoDup_cons. split; [|done]. intros Hin. by apply (Hdisj i Hin b).
  - intros i' [->|Hi']%elem_of_cons; [split; eauto|].
    destruct (Hsub i' Hi') as [HR Hnz]. split; [|done].
    apply elem_of_after_row_snd in HR as [? _]; done.
  - apply covers_cons_hit. intros j Hj. destruct (decide (present m i j)) as [Hpj|Hpj].
    + apply filter_none. intros i' Hi' Hp'. by apply (Hdisj i' Hi' j).
    + apply Hcov. by apply elem_of_after_row_fst.
Qed.

Lemma filter_length_1 {A} (P : A → Prop) `{!∀ x, Decision (P x)} (l : list A) :
  length (filter P l) = 1 → ∃ x, x ∈ l ∧ P x ∧ ∀ y, y ∈ l → P y → y = x.
Proof.
  intros Hl. destruct (filter P l) as [|x [|? ?]] eqn:E; simpl in Hl; try lia.
  assert (x ∈ filter P l) as Hx by (rewrite E; set_solver).
  apply list_elem_of_filter in Hx as [HP Hx]. exists x. split_and!; [done..|].
  intros y Hy HPy. assert (y ∈ filter P l) as Hy' by (by apply list_elem_of_filter).
  rewrite E in Hy'. set_solver.
Qed.

Lemma NoDup_remove_perm (l : list nat) i :
  NoDup l → i ∈ l → l ≡ₚ i :: filter (λ i', i' ≠ i) l.
Proof.
  intros Hnd Hi. apply list_elem_of_split in Hi as (l1 & l2 & ->).
  rewrite filter_ne_split by done. by rewrite Permutation_middle.
Qed.

Theorem paths_complete n : ∀ m C R S,
  search_inv m C R → length C < n →
  NoDup S → (∀ i, i ∈ S → i ∈ R ∧ ∃ j, present m i j) → covers m C S →
  ∃ x, x ∈ paths n m C R ∧ x ≡ₚ S.
Proof.
  induction n as [|n IH]; intros m C R S Hinv Hlen Hnd Hsub Hcov; [lia|].
  destruct (decide (C = [])) as [->|HC].
  { exists []. split; [simpl; set_solver|].
    destruct S as [|i S]; [done|]. destruct (Hsub i) as [HR [j Hj]]; [set_solver|].
    pose proof (si_closed _ _ _ Hinv i j HR Hj). set_solver. }
  destruct (achoose_is_Some m C R HC) as [b Hb].
  pose proof (achoose_elem_of _ _ _ _ Hb) as HbC.
  destruct (filter_length_1 _ _ (Hcov b HbC)) as (i & Hi & Hp & Huniq).
  destruct (Hsub i Hi) as [HiR _].
  set (S' := filter (λ i', i' ≠ i) S).
  pose proof (after_row_length m C R b i HbC) as Hl.
  assert (∀ i' j, i' ∈ S' → present m i j → ¬ present m i' j) as Hdisj.
  { intros i' j [Hne Hi']%list_elem_of_filter Hpj Hpj'.
    pose proof (si_closed _ _ _ Hinv i j HiR Hpj) as HjC.
    destruct (filter_length_1 _ _ (Hcov j HjC)) as (i0 & _ & _ & Hu0).
    rewrite (Hu0 i' Hi' Hpj') in Hne. by rewrite (Hu0 i Hi Hpj) in Hne. }
  destruct (IH m (after_row m C R b i).1 (after_row m C R b i).2 S') as (x' & Hx' & Hperm).
  - by apply after_row_inv.
  - lia.
  - by apply NoDup_filter.
  - intros i' Hi'. pose proof Hi' as [Hne HiS]%list_elem_of_filter.
    destruct (Hsub i' HiS) as [HR Hnz]. split; [|done].
    apply elem_of_after_row_snd; [done|]. split; [done|]. intros j Hpj. by apply Hdisj.
  - intros j [HjC Hnp]%elem_of_after_row_fst; [|done].
    rewrite <- (Hcov j HjC). unfold S'. rewrite list_filter_filter. f_equal.
    apply filter_ext_in. intros i' Hi'. split; [naive_solver|].
    intros Hp'. split; [done|]. by intros ->.
  - exists (i :: x'). split.
    + apply elem_of_paths_S; [done|]. exists b, i, x'. done.
    + rewrite Hperm. symmetry. by apply NoDup_remove_perm.
Qed.

(** ** No exact cover is found twice *)

Fixpoint pairwise {A} (Rl : A → A → Prop) (l : list A) : Prop :=
  match l with
  | [] => True
  | x :: l' => Forall (Rl x) l' ∧ pairwise Rl l'
  end.

Lemma pairwise_app {A} (Rl : A → A → Prop) l1 l2 :
  pairwise Rl (l1 ++ l2) ↔
  pairwise Rl l1 ∧ pairwise Rl l2 ∧ ∀ x y, x ∈ l1 → y ∈ l2 → Rl x y.
Proof.
  induction l1 as [|a l1 IH]; simpl.
  - set_solver.
  - rewrite Forall_app, IH, !Forall_forall. split.
    + intros ([H1 H2] & H3 & H4 & H5). split_and!; try done.
      intros x y [->|Hx]%elem_of_cons Hy; [by apply H2|by apply H5].
    + intros ([H1 H2] & H3 & H4). split_and!; try done.
      * intros y Hy. apply H4; set_solver.
      * intros x y Hx Hy. apply H4; set_solver.
Qed.

Lemma pairwise_fmap {A B} (Rl : B → B → Prop) (f : A → B) l :
  pairwise Rl (f <$> l) ↔ pairwise (λ x y, Rl (f x) (f y)) l.
Proof.
  induction l as [|a l IH]; simpl; [done|]. by rewrite Forall_fmap, IH.
Qed.

Lemma pairwise_impl {A} (Rl Rl' : A → A → Prop) l :
  (∀ x y, x ∈ l → y ∈ l → Rl x y → Rl' x y) → pairwise Rl l → pairwise Rl' l.
Proof.
  induction l as [|a l IH]; simpl; [done|]. intros H [H1 H2]. split.
  - rewrite Forall_forall in *. intros y Hy. apply H; [set_solver..|by apply H1].
  - apply IH; [|done]. intros x y Hx Hy. apply H; set_solver.
Qed.


Theorem paths_distinct n : ∀ m C R,
  search_inv m C R → length C < n →
  pairwise (λ x y, ¬ x ≡ₚ y) (paths n m C R).
Proof.
  induction n as [|n IH]; intros m C R Hinv Hlen; [lia|].
  destruct (decide (C = [])) as [->|HC].
  { simpl. split; [constructor|done]. }
  rewrite paths_S_cons by done. destruct (achoose m C R) as [b|] eqn:Hb; [|done].
  pose proof (achoose_elem_of _ _ _ _ Hb) as HbC.
  assert (NoDup (col_rows m R b)) as Hnd by (apply NoDup_filter, (si_R _ _ _ Hinv)).
  assert (∀ i, i ∈ col_rows m R b → i ∈ R ∧ present m i b) as Hrows.
  { intros i [? ?]%list_elem_of_filter. done. }
  revert Hnd Hrows. generalize (col_rows m R b). intros rows.
  induction rows as [|i rows IHr]; intros Hnd Hrows; [done|].
  apply NoDup_cons in Hnd as [Hi Hnd].
  destruct (Hrows i) as [HiR Hpi]; [set_solver|].
  pose proof (after_row_length m C R b i HbC) as Hl.
  simpl. apply pairwise_app. split_and!.
  - apply pairwise_fmap. eapply pairwise_impl; [|apply IH; [by apply after_row_inv|lia]].
    intros x y _ _ Hxy Hp. apply Hxy. by apply Permutation_cons_inv in Hp.
  - apply IHr; [done|]. intros; apply Hrows; set_solver.
  - intros x y (x' & -> & Hx')%list_elem_of_fmap
      (i' & (y' & -> & Hy')%list_elem_of_fmap & Hi')%elem_of_flat_map Hperm.
    destruct (Hrows i') as [Hi'R Hpi']; [set_solver|].
    assert (i ≠ i') as Hne by (intros ->; done).
    assert (i ∈ i' :: y') as Hin by (rewrite <- Hperm; set_solver).
    apply elem_of_cons in Hin as [?|Hin]; [done|].
    pose proof (after_row_length m C R b i' HbC) as Hl'.
    destruct (paths_sound n m _ _ y' (after_row_inv m C R b i' Hinv Hpi') ltac:(lia) Hy')
      as (_ & Hsub & _).
    destruct (Hsub i Hin) as [Hmem _].
    apply elem_of_after_row_snd in Hmem as [_ Hd]; [|done]. by apply (Hd b).
Qed.

(** ** Counting the exact covers *)

(** The rows that have a present cell. *)
Definition nonzero_rows (m : matrix) : list nat :=
  filter (λ i, row_cells m i ≠ []) (seq 0 (nrows m)).


(** The rows [S] are an exact cover of [m]: every column holds exactly one
    present cell in the rows of [S]. *)
Definition exact_cover (m : matrix) (S : list nat) : Prop :=
  Forall (λ j, length (filter (λ i, present m i j) S) = 1) (seq 0 (ncols m)).

#[global] Instance exact_cover_dec m S : Decision (exact_cover m S).
Proof. unfold exact_cover. apply _. Defined.


Lemma exact_cover_covers m S : exact_cover m S ↔ covers m (seq 0 (ncols m)) S.
Proof. unfold exact_cover, covers. by rewrite Forall_forall. Qed.

Lemma elem_of_nonzero_rows m i : i ∈ nonzero_rows m ↔ ∃ j, present m i j.
Proof.
  unfold nonzero_rows. rewrite list_elem_of_filter, elem_of_seq. split.
  - intros [Hne _]. destruct (row_cells m i) as [|j l] eqn:E; [done|].
    exists j. apply elem_of_row_cells. rewrite E. set_solver.
  - intros [j Hj]. split.
    + apply elem_of_row_cells in Hj. intros E. rewrite E in Hj. set_solver.
    + apply present_lt in Hj as [_ ?]. lia.
Qed.






Lemma search_inv_init m : search_inv m (seq 0 (ncols m)) (seq 0 (nrows m)).
Proof.
  split; [apply NoDup_seq..|]. intros i j _ Hp. apply elem_of_seq.
  apply present_lt in Hp as [? _]. lia.
Qed.

(** The paths of the search from the full matrix. *)
Definition all_paths (m : matrix) : list (list nat) :=
  paths (S (ncols m)) m (seq 0 (ncols m)) (seq 0 (nrows m)).


(** * Part IX: [solve] *)

(** Fuel that lets every loop and every level of the recursion finish. *)
Definition enough (m : matrix) (fuel : nat) : Prop :=
  nrows m + 2 * ncols m + 1 < fuel.

(** What [solve] returns, read on the matrix. *)
Definition found (m : matrix) (max : nat) : list solution :=
  (asearch (S (ncols m)) m max (seq 0 (ncols m)) (seq 0 (nrows m)) 0 ([], [])).1.

Theorem solve_in_found m s0 o fuel :
  fits m → 0 < ncols m → enough m fuel →
  solve_in fuel s0 m o = Ok (found m (max_of o)).
Proof.
  intros Hf Hn Hfuel. unfold solve_in.
  destruct (build_rep m s0 Hf Hn) as (s & Hb & Hrep). rewrite Hb. cbn [obind].
  rewrite (recurse_refines (S (ncols m)) m _ s _ _ (max_of o) 0 [] [] fuel Hrep).
  - done.
  - rewrite length_seq. lia.
  - unfold enough in Hfuel. lia.
Qed.

Lemma found_paths m : Forall2 (pushed 0 []) (found m 0) (all_paths m).
Proof.
  unfold found, all_paths.
  destruct (asearch_paths (S (ncols m)) m (seq 0 (ncols m)) (seq 0 (nrows m)) 0 [] [])
    as (news & parts' & E & F & _); [simpl; lia|].
  rewrite E. done.
Qed.

Lemma found_capped m max : 0 < max → found m max = take max (found m 0).
Proof.
  intros Hmax. unfold found.
  destruct (asearch_capped (S (ncols m)) m max (seq 0 (ncols m)) (seq 0 (nrows m)) 0
              ([], []) ([], []) Hmax) as [H1 _]; [split; [by destruct max|done]|]. done.
Qed.


(** ** Inputs used in the examples below *)

(** The matrix of the test suite and of the README. *)
Definition knuth : matrix :=
  [[1;0;0;1;0;0;1]; [1;0;0;1;0;0;0]; [0;0;0;1;1;0;1];
   [0;0;1;0;1;1;0]; [0;1;1;0;0;1;1]; [0;1;0;0;0;0;1]]%Z.

(** A matrix on which a path of three rows is followed by a path of two. *)
Definition stale : matrix := [[1;0;0]; [0;1;0]; [0;0;1]; [0;1;1]]%Z.

(** A matrix on which a returned array holds the same row twice. *)
Definition twice : matrix := [[1;0;1]; [0;0;1]; [0;1;0]; [1;1;0]; [1;0;0]]%Z.

(** A matrix with a row of zeros. *)
Definition zero_row : matrix := [[1]; [0]]%Z.

Example solve_knuth : solve 30 knuth None = Ok [[Some 1; Some 3; Some 5]].
Proof. vm_compute. reflexivity. Qed.

(** * Part X: the properties of [solve] *)

(** ** What a returned array selects *)

(** The value of a cell; a cell outside the matrix counts as 0. *)
Definition cell (m : matrix) (i j : nat) : Z :=
  default 0%Z (m !! i ≫= (λ row, row !! j)).

(** The row indices held by a returned array, holes skipped. *)
Definition rows_of (t : solution) : list nat := omap id t.

(** The sum of column [j] over the rows that the array [t] lists. *)
Definition column_sum (m : matrix) (t : solution) (j : nat) : Z :=
  foldr Z.add 0%Z ((λ i, cell m i j) <$> rows_of t).

(** C1: on the matrix [stale], [solve] returns the two arrays [0,1,2] and
    [0,3,2]; the rows that the second one lists sum to 2 in column 2 (and the
    first one's to 1 everywhere), so a returned solution need not sum to 1 in
    every column: the array pushed on the second path still holds the entry
    that the first, longer path left at index 2. *)
Theorem stale_entry_breaks_exactness :
  solve 30 stale None = Ok [[Some 0; Some 1; Some 2]; [Some 0; Some 3; Some 2]] ∧
  column_sum stale [Some 0; Some 3; Some 2] 2 = 2%Z ∧
  (column_sum stale [Some 0; Some 1; Some 2]) <$> [0; 1; 2] = [1; 1; 1]%Z.
Proof. split_and!; vm_compute; reflexivity. Qed.

(** C2: on the matrix [twice], [solve] returns [2,0], [2,4,1] and [3,1,1]:
    the third array holds row 1 twice, and its last entry is not a row of the
    path [3,1] that produced it. *)
Theorem stale_entry_duplicates_row :
  solve 30 twice None =
    Ok [[Some 2; Some 0]; [Some 2; Some 4; Some 1]; [Some 3; Some 1; Some 1]] ∧
  ¬ NoDup [Some 3; Some 1; Some 1] ∧
  all_paths twice = [[2; 0]; [2; 4; 1]; [3; 1]].
Proof.
  split_and!; [vm_compute; reflexivity| |vm_compute; reflexivity].
  intros Hnd. apply NoDup_cons in Hnd as [_ Hnd]. apply NoDup_cons in Hnd as [Hin _].
  apply Hin. set_solver.
Qed.

(** ** Completeness *)

(** The completeness property in the words of the specification: without a
    cap, every set of rows that is an exact cover is one of the returned
    solutions. *)
Definition complete_as_stated (m : matrix) : Prop :=
  ∀ fuel sols X, solve fuel m None = Ok sols →
    NoDup X → (∀ i, i ∈ X → i < nrows m) → exact_cover m X →
    ∃ t, t ∈ sols ∧ t ≡ₚ Some <$> X.

(** A row of zeros is never chosen: on [[1],[0]] rows 0 and 1 together are
    an exact cover, and [solve] returns [[0]] only. *)
Lemma zero_row_cover_omitted : ¬ complete_as_stated zero_row.
Proof.
  intros H. destruct (H 30 [[Some 0]] [0; 1]) as (t & Ht & Hp).
  - vm_compute. reflexivity.
  - apply NoDup_cons. split; [set_solver|apply NoDup_singleton].
  - intros i Hi. assert (i = 0 ∨ i = 1) as [-> | ->] by set_solver; vm_compute; lia.
  - apply (bool_decide_unpack (exact_cover zero_row [0; 1])). vm_compute. exact I.
  - apply list_elem_of_singleton in Ht as ->. apply Permutation_length in Hp. done.
Qed.

(** C3: on the matrix [stale], without a cap, rows 0 and 3 are an exact
    cover, made of rows that have a nonzero cell, and it is not one of the
    returned solutions: [solve] returns [0,1,2] and [0,3,2], and the array
    pushed for the path of rows 0 and 3 holds a third entry, the one that the
    first path left at index 2. So the set of rows {0,3} is omitted from the
    result. *)
Theorem stale_cover_not_returned :
  solve 30 stale None = Ok [[Some 0; Some 1; Some 2]; [Some 0; Some 3; Some 2]] ∧
  NoDup [0; 3] ∧ exact_cover stale [0; 3] ∧
  (∀ i, i ∈ [0; 3] → i ∈ nonzero_rows stale) ∧
  (¬ ∃ t, t ∈ [[Some 0; Some 1; Some 2]; [Some 0; Some 3; Some 2]] ∧ t ≡ₚ Some <$> [0; 3]) ∧
  ¬ complete_as_stated stale.
Proof.
  assert (∀ i, i ∈ [0; 3] → i = 0 ∨ i = 3) as Hin by set_solver.
  assert (NoDup [0; 3]) as Hnd.
  { apply NoDup_cons. split; [set_solver|apply NoDup_singleton]. }
  assert (exact_cover stale [0; 3]) as Hcov.
  { apply (bool_decide_unpack (exact_cover stale [0; 3])). vm_compute. exact I. }
  assert (¬ ∃ t, t ∈ [[Some 0; Some 1; Some 2]; [Some 0; Some 3; Some 2]] ∧
                 t ≡ₚ Some <$> [0; 3]) as Hout.
  { intros (t & Ht & Hp). apply Permutation_length in Hp.
    apply elem_of_cons in Ht as [->|Ht]; [discriminate Hp|].
    apply list_elem_of_singleton in Ht as ->. discriminate Hp. }
  assert (solve 30 stale None = Ok [[Some 0; Some 1; Some 2]; [Some 0; Some 3; Some 2]])
    as Hsolve by (vm_compute; reflexivity).
  split; [exact Hsolve|]. split; [exact Hnd|]. split; [exact Hcov|].
  split; [|split; [exact Hout|]].
  - intros i Hi. apply elem_of_nonzero_rows.
    destruct (Hin i Hi) as [-> | ->]; [exists 0|exists 1]; exact I.
  - intros H. apply Hout. apply (H 30 _ [0; 3] Hsolve Hnd); [|exact Hcov].
    intros i Hi. destruct (Hin i Hi) as [-> | ->]; vm_compute; lia.
Qed.

(** X19: without a cap, on a rectangular matrix with at least one column,
    [solve] returns, and every exact cover made of rows that have a nonzero
    cell is found: some returned array starts with the rows of the cover, in
    the order of the search. *)
Theorem solve_complete m o s0 fuel :
  rectangular m → 0 < ncols m → enough m fuel → max_of o = 0 →
  ∃ sols, solve_in fuel s0 m o = Ok sols ∧
    ∀ X, NoDup X → (∀ i, i ∈ X → i ∈ nonzero_rows m) → exact_cover m X →
      ∃ t, t ∈ sols ∧ take (length X) t ≡ₚ Some <$> X.
Proof.
  intros Hr Hn Hfuel Ho. exists (found m 0). split.
  { rewrite <- Ho. apply solve_in_found; [by apply rectangular_fits|done..]. }
  intros X Hnd Hnz Hcov.
  destruct (paths_complete (S (ncols m)) m (seq 0 (ncols m)) (seq 0 (nrows m)) X)
    as (x & Hx & Hp).
  - apply search_inv_init.
  - rewrite length_seq. lia.
  - done.
  - intros i Hi. apply Hnz, elem_of_nonzero_rows in Hi as [j Hj]. split; [|by exists j].
    apply elem_of_seq. apply present_lt in Hj. lia.
  - by apply exact_cover_covers.
  - apply list_elem_of_lookup in Hx as [n Hn'].
    destruct (Forall2_lookup_r _ _ _ _ _ (found_paths m) Hn') as (t & Ht & [tail Hpush]).
    exists t. split; [by eapply list_elem_of_lookup_2|].
    rewrite Hpush. simpl. rewrite <- (Permutation_length Hp), <- (length_fmap Some x).
    rewrite take_app_length. by apply fmap_Permutation.
Qed.

Lemma solve_complete_knuth :
  ∃ sols, solve 30 knuth None = Ok sols ∧
    ∀ X, NoDup X → (∀ i, i ∈ X → i ∈ nonzero_rows knuth) → exact_cover knuth X →
      ∃ t, t ∈ sols ∧ take (length X) t ≡ₚ Some <$> X.
Proof.
  apply (solve_complete knuth None empty_heap 30).
  - unfold rectangular. repeat constructor.
  - vm_compute. lia.
  - unfold enough. vm_compute. lia.
  - reflexivity.
Defined.

(** ** The cap *)






(** ** The choice of a column *)

(** What [recurse] does with the header it has chosen, when that header
    has a node. *)
Definition explore (fuel : nat) (root : addr) (max k : nat) (best : addr) (st : search)
    : outcome search :=
  do s <- cover fuel best (s_heap st);
  do hd <- deref (head_of s best);
  do st <- eachNode s_heap fuel hd Down
             (try_row fuel (recurse fuel root max (k + 1)) k) (with_heap st s);
  do s <- uncover fuel best (s_heap st);
  Ok (with_heap st s).

(** The structure that [solve] builds for [knuth], on the empty heap; its
    headers are 0..6 and its root is 7. *)
Definition knuth_heap : heap :=
  match build knuth empty_heap with
  | Ok (_, s) => s
  | _ => empty_heap
  end.

Lemma knuth_heap_rep :
  rep knuth (build_layout knuth 0 0) knuth_heap (seq 0 7) (seq 0 6).
Proof.
  destruct (build_rep knuth empty_heap) as (s & Hb & Hrep).
  - apply rectangular_fits. unfold rectangular. repeat constructor.
  - vm_compute. lia.
  - unfold knuth_heap. rewrite Hb. exact Hrep.
Qed.

Lemma knuth_heap_ring :
  ring (hlink Next knuth_heap) (hlink Prev knuth_heap) 7 (seq 0 7).
Proof. exact (vr_hring _ _ _ _ _ _ (rep_vrep _ _ _ _ _ knuth_heap_rep)). Qed.

(** C5: in an invocation of [recurse] that finds the header ring non-empty
    (and the cap not reached), the header chosen is the first of the ring, from
    the root, among those of the smallest size: every header before it is
    strictly larger and none after it is smaller. If its size is 0 the
    invocation returns the state as it received it: nothing covered, no
    recursive call, no solution added. *)
Theorem recurse_chooses_smallest s root hs (sz : addr → Z) fuel max k sols parts :
  ring (hlink Next s) (hlink Prev s) root hs → hs ≠ [] →
  (∀ h, h ∈ hs → length_of s h = Some (sz h)) →
  length hs < fuel → max = 0 ∨ length sols ≠ max →
  ∃ b hs1 hs2, hs = hs1 ++ b :: hs2 ∧
    (∀ h, h ∈ hs1 → (sz b < sz h)%Z) ∧ (∀ h, h ∈ hs2 → (sz b ≤ sz h)%Z) ∧
    choose_best fuel root s = Ok (Some b) ∧
    recurse (S fuel) root max k (Search s sols parts) =
      (if bool_decide (0 < sz b)%Z
       then explore fuel root max k b (Search s sols parts)
       else Ok (Search s sols parts)).
Proof.
  intros Hring Hne Hsz Hfuel Hcap.
  destruct (first_min_spec sz hs Hne) as (b & hs1 & hs2 & Hb & Hhs & H1 & H2).
  exists b, hs1, hs2. split_and!; [done..| |].
  { rewrite <- Hb. by apply choose_best_first_min. }
  rewrite recurse_S. cbn [s_heap s_solutions s_partials].
  replace (bool_decide (max ≠ 0) && bool_decide (length sols = max)) with false; last first.
  { symmetry. apply andb_false_iff. destruct Hcap as [-> | Hc].
    - left. by apply bool_decide_eq_false_2; intros ?.
    - right. by apply bool_decide_eq_false_2. }
  destruct Hring as [Hc Hnd]. pose proof (chain_hd _ _ _ _ _ Hc) as [Hhd _].
  rewrite Hhd. cbn [deref obind].
  destruct hs as [|h0 hs']; [done|]. cbn [hd].
  rewrite decide_False; last first.
  { intros ->. apply NoDup_cons in Hnd as [Hnd _]. set_solver. }
  rewrite (choose_best_first_min s root (h0 :: hs') sz fuel); [|by split|done..].
  rewrite Hb. cbn [obind]. rewrite Hsz by (rewrite Hhs; set_solver).
  unfold num_lt, explore. cbn [s_heap]. done.
Qed.

Lemma recurse_chooses_smallest_knuth :
  ∃ b hs1 hs2, seq 0 7 = hs1 ++ b :: hs2 ∧
    (∀ h, h ∈ hs1 → (default 0 (length_of knuth_heap b) < default 0 (length_of knuth_heap h))%Z) ∧
    (∀ h, h ∈ hs2 → (default 0 (length_of knuth_heap b) ≤ default 0 (length_of knuth_heap h))%Z) ∧
    choose_best 30 7 knuth_heap = Ok (Some b) ∧
    recurse 31 7 0 0 (Search knuth_heap [] []) =
      (if bool_decide (0 < default 0 (length_of knuth_heap b))%Z
       then explore 30 7 0 0 b (Search knuth_heap [] [])
       else Ok (Search knuth_heap [] [])).
Proof.
  apply (recurse_chooses_smallest knuth_heap 7 (seq 0 7)
           (λ h, default 0%Z (length_of knuth_heap h)) 30 0 0 [] []).
  - exact knuth_heap_ring.
  - discriminate.
  - intros h Hh. apply elem_of_seq in Hh.
    do 7 (destruct h as [|h]; [vm_compute; reflexivity|]). lia.
  - simpl. lia.
  - by left.
Defined.

(** ** [cover] and [uncover] *)

(** C6: on a well-formed structure, covering a column header that is linked
    into the header ring and then uncovering it gives back the very same heap:
    every link of every node and header, and every length. Both calls finish
    as soon as the fuel exceeds a bound given by the structure. *)
Theorem cover_uncover_restores s root c :
  well_formed s root → linked s root c →
  ∃ N, ∀ fuel, N ≤ fuel →
    ∃ s', cover fuel c s = Ok s' ∧ uncover fuel c s' = Ok s.
Proof.
  intros (m & L & C & R & <- & Hrep) (l & [Hc Hnd] & Hin).
  destruct (vr_hring _ _ _ _ _ _ (rep_vrep _ _ _ _ _ Hrep)) as [Hc' Hnd'].
  apply NoDup_cons in Hnd as [Hr _]. apply NoDup_cons in Hnd' as [Hr' _].
  pose proof (chain_unique _ _ _ _ _ _ Hc Hc' Hr Hr') as ->.
  apply list_elem_of_fmap in Hin as (j0 & -> & Hj0).
  exists (S (nrows m + ncols m)). intros fuel Hfuel.
  destruct (cover_spec m L s C R j0 fuel Hrep Hj0) as (s' & H1 & H2 & _); [lia|].
  by exists s'.
Qed.

Lemma cover_uncover_restores_knuth :
  ∃ N, ∀ fuel, N ≤ fuel →
    ∃ s', cover fuel 0 knuth_heap = Ok s' ∧ uncover fuel 0 s' = Ok knuth_heap.
Proof.
  apply (cover_uncover_restores knuth_heap 7 0).
  - exists knuth, (build_layout knuth 0 0), (seq 0 7), (seq 0 6).
    split; [reflexivity|exact knuth_heap_rep].
  - exists (seq 0 7). split; [exact knuth_heap_ring|].
    apply elem_of_seq. lia.
Defined.

(** ** The lengths of the columns during the search *)

(** The number of nodes met on the walk from [head.down] back to [head]. *)
Definition column_count (fuel : nat) (s : heap) (c : addr) : outcome nat :=
  do hd <- deref (head_of s c);
  do r <- eachNode (σ := heap * nat) fst fuel hd Down (λ _ st, Ok (st.1, S st.2)) (s, 0);
  Ok r.2.

(** The states of the structure during the search: the one that [solve]
    builds, then any sequence of calls of [cover] on a header of the ring and
    of [uncover] on the header covered last and not yet uncovered. The list
    holds the covered headers, the last one first. *)
Inductive reach (m : matrix) (root : addr) : list addr → heap → Prop :=
  | reach_build s0 s :
      build m s0 = Ok (root, s) → reach m root [] s
  | reach_cover stk s c fuel s' :
      reach m root stk s → linked s root c → cover fuel c s = Ok s' →
      reach m root (c :: stk) s'
  | reach_uncover stk s c fuel s' :
      reach m root (c :: stk) s → uncover fuel c s = Ok s' →
      reach m root stk s'.

(** More fuel does not change the result of a loop that finished. *)
Lemma eachNode_from_mono {σ} (hp : σ → heap) (fn fn' : addr → σ → outcome σ) node d :
  (∀ x st r, fn x st = Ok r → fn' x st = Ok r) →
  ∀ f f' n st r, f ≤ f' →
    eachNode_from hp f node d fn n st = Ok r → eachNode_from hp f' node d fn' n st = Ok r.
Proof.
  intros Hfn f. induction f as [|f IH]; intros f' n st r Hle H; [done|].
  destruct f' as [|f']; [lia|]. simpl in *.
  destruct (decide (n = node)); [done|].
  destruct (fn n st) as [st'| |] eqn:E; [|done..]. rewrite (Hfn _ _ _ E). simpl in *.
  destruct (deref (link d (hp st') n)) as [n'| |]; [|done..]. simpl in *.
  apply IH; [lia|done].
Qed.

Lemma eachNode_mono {σ} (hp : σ → heap) (fn fn' : addr → σ → outcome σ) node d f f' st r :
  (∀ x st r, fn x st = Ok r → fn' x st = Ok r) → f ≤ f' →
  eachNode hp f node d fn st = Ok r → eachNode hp f' node d fn' st = Ok r.
Proof.
  intros Hfn Hle. unfold eachNode.
  destruct (deref (link d (hp st) node)) as [n| |]; [|done..]. simpl.
  by apply eachNode_from_mono.
Qed.

Ltac step_ok H :=
  match type of H with
  | obind ?m _ = Ok _ =>
      let x := fresh "x" in destruct m as [x| |]; [cbn [obind] in H |- *|done..]
  end.

Lemma cover_mono f f' c s s' : f ≤ f' → cover f c s = Ok s' → cover f' c s = Ok s'.
Proof.
  intros Hle H. unfold cover in *. do 7 step_ok H.
  revert H. apply eachNode_mono; [|done].
  intros y st r. by apply eachNode_mono.
Qed.

Lemma uncover_mono f f' c s s' : f ≤ f' → uncover f c s = Ok s' → uncover f' c s = Ok s'.
Proof.
  intros Hle H. unfold uncover in *. step_ok H.
  destruct (eachNode id f x Up _ s) as [s1| |] eqn:E; [|done..].
  erewrite (eachNode_mono id _ _ x Up f f' s s1); [done| |done|exact E].
  intros y st r. by apply eachNode_mono.
Qed.

(** The walk down a column counts the nodes of its ring. *)
Lemma column_count_ring s c hd l fuel :
  head_of s c = Some hd → ring (link Down s) (link Up s) hd l → length l < fuel →
  column_count fuel s c = Ok (length l).
Proof.
  intros Hhd [Hc Hnd] Hf. unfold column_count, eachNode. rewrite Hhd. cbn [deref obind fst].
  pose proof (chain_hd _ _ _ _ _ Hc) as [H0 _]. rewrite H0. cbn [deref obind].
  destruct (eachNode_from_inv (σ := heap * nat) fst
              (λ todo st, ∃ pre, l = pre ++ todo ∧ st = (s, length pre))
              hd Down (λ _ st, Ok (st.1, S st.2))) with (todo := l) (fuel := fuel) (st := (s, 0))
    as (st' & -> & pre & Hl & ->); [| done | by exists [] |].
  - intros x todo st (pre & Hl & ->). split.
    { intros ->. apply NoDup_cons in Hnd as [Hnd _]. apply Hnd. rewrite Hl. set_solver. }
    eexists. split; [done|]. cbn [fst snd]. split.
    + rewrite Hl in Hc. apply chain_app in Hc as [_ Hc]. by apply chain_hd in Hc as [? _].
    + exists (pre ++ [x]). rewrite <- app_assoc, length_app. simpl.
      split; [done|]. f_equal. lia.
  - rewrite app_nil_r in Hl. by subst.
Qed.

(** The state of the search with the columns that are out of the ring:
    [V j] lists the rows whose node is linked in column [j], for every column
    of the matrix; for a column of the ring these are the candidate rows. *)
Record full (m : matrix) (L : layout) (s : heap) (C R : list nat) (V : nat → list nat)
    : Prop := {
  fu_vrep : vrep m L s C (seq 0 (ncols m)) V;
  fu_live : ∀ j, j ∈ C → V j = col_rows m R j;
  fu_R : NoDup R;
  fu_closed : ∀ i j, i ∈ R → present m i j → j ∈ C
}.

Lemma full_rep m L s C R V : full m L s C R V → rep m L s C R.
Proof.
  intros [Hv Hl Hr Hc]. split; [|done..].
  eapply vrep_ext; [|eapply vrep_weaken; [|exact Hv]].
  - intros j Hj. symmetry. by apply Hl.
  - intros j Hj. apply elem_of_seq. pose proof (vr_C _ _ _ _ _ _ Hv j Hj). lia.
Qed.

Lemma rep_full m L s R :
  rep m L s (seq 0 (ncols m)) R → full m L s (seq 0 (ncols m)) R (col_rows m R).
Proof. intros [Hv Hr Hc]. by split. Qed.

Lemma cover_full m L s C R V j0 fuel :
  full m L s C R V → j0 ∈ C → nrows m + ncols m < fuel →
  ∃ s', cover fuel (colA L j0) s = Ok s' ∧
        uncover fuel (colA L j0) s' = Ok s ∧
        full m L s' (filter (λ j, j ≠ j0) C) (filter (λ i, ¬ present m i j0) R)
          (λ j, if decide (j = j0) then V j else filter (λ i, i ∉ V j0) (V j)) ∧
        ∀ j, j < ncols m → j ∉ filter (λ j, j ≠ j0) C →
          length_of s' (colA L j) = length_of s (colA L j).
Proof.
  intros [Hv Hl Hr Hc] Hj0 Hfuel.
  pose proof (vr_C _ _ _ _ _ _ Hv j0 Hj0) as Hlt.
  pose proof (col_rows_length m R j0 Hr) as Hlen.
  assert (∀ j, j < ncols m → j ∈ seq 0 (ncols m)) as Hseq.
  { intros j Hj. apply elem_of_seq. lia. }
  destruct (cover_vrep m L s C (seq 0 (ncols m)) V j0 fuel) as (s' & Hcov & Hunc & Hv');
    [done|done|by apply Hseq|rewrite Hl by done; lia|lia| |].
  { intros i j Hi Hpj Hne. rewrite Hl in Hi by done.
    apply list_elem_of_filter in Hi as [Hpi HiR].
    assert (j ∈ C) as HjC by (by eapply Hc).
    split; [apply Hseq; by apply present_lt in Hpj as [? _]|].
    rewrite Hl by done. by apply list_elem_of_filter. }
  exists s'. split_and!; [done|done| |].
  - split; [done| |by apply NoDup_filter|].
    + intros j [Hne HjC]%list_elem_of_filter. rewrite decide_False by done.
      rewrite !Hl by done. unfold col_rows. rewrite !list_filter_filter.
      apply filter_ext_in. intros i Hi. rewrite list_elem_of_filter. naive_solver.
    + intros i j [Hnp Hi]%list_elem_of_filter Hpj.
      apply list_elem_of_filter. split; [|by eapply Hc]. intros ->. done.
  - intros j Hj Hout.
    destruct (vr_cols _ _ _ _ _ _ Hv j (Hseq j Hj)) as (_ & Hlen0 & Hpres).
    destruct (vr_cols _ _ _ _ _ _ Hv' j (Hseq j Hj)) as (_ & Hlen1 & _).
    rewrite Hlen0, Hlen1. do 3 f_equal. destruct (decide (j = j0)) as [->|Hne]; [done|].
    apply filter_all, Forall_forall. intros i Hi Hi0.
    rewrite Hl in Hi0 by done. apply list_elem_of_filter in Hi0 as [_ HiR].
    apply Hout. apply list_elem_of_filter. split; [done|]. eapply Hc; [exact HiR|].
    by apply Hpres.
Qed.

(** The invariant of the reachable states: below every covered header lies
    the state in which it was covered. *)
Inductive stack_inv (m : matrix) (L : layout)
    : list addr → heap → list nat → list nat → (nat → list nat) → Prop :=
  | stack_nil s C R V :
      full m L s C R V → stack_inv m L [] s C R V
  | stack_cons stk s0 C R V j fuel s :
      stack_inv m L stk s0 C R V → j ∈ C → nrows m + ncols m < fuel →
      cover fuel (colA L j) s0 = Ok s →
      stack_inv m L (colA L j :: stk) s
        (filter (λ j', j' ≠ j) C) (filter (λ i, ¬ present m i j) R)
        (λ j', if decide (j' = j) then V j' else filter (λ i, i ∉ V j) (V j')).

Lemma stack_inv_full m L stk s C R V : stack_inv m L stk s C R V → full m L s C R V.
Proof.
  induction 1 as [|stk s0 C R V j fuel s _ IH Hj Hfuel Hcov]; [done|].
  destruct (cover_full m L s0 C R V j fuel IH Hj Hfuel) as (s' & Hcov' & _ & Hfull & _).
  rewrite Hcov in Hcov'. by injection Hcov' as ->.
Qed.

Lemma stack_inv_detached m L stk s C R V :
  stack_inv m L stk s C R V →
  ∀ d, d ∈ stk → ∃ j, d = colA L j ∧ j < ncols m ∧ j ∉ C.
Proof.
  induction 1 as [|stk s0 C R V j fuel s H IH Hj Hfuel Hcov]; intros d Hd; [set_solver|].
  apply elem_of_cons in Hd as [->|Hd].
  - exists j. split_and!; [done| |].
    + apply stack_inv_full in H. by apply (vr_C _ _ _ _ _ _ (fu_vrep _ _ _ _ _ _ H)).
    + intros [? _]%list_elem_of_filter. done.
  - destruct (IH d Hd) as (j' & -> & Hlt & Hout). exists j'. split_and!; [done..|].
    intros [_ ?]%list_elem_of_filter. done.
Qed.

(** A header linked into the ring is the header of a column still to cover. *)
Lemma linked_col m L s C R c :
  rep m L s C R → linked s (rootA L) c → ∃ j, c = colA L j ∧ j ∈ C.
Proof.
  intros Hrep (l & [Hc Hnd] & Hin).
  destruct (vr_hring _ _ _ _ _ _ (rep_vrep _ _ _ _ _ Hrep)) as [Hc' Hnd'].
  apply NoDup_cons in Hnd as [Hr _]. apply NoDup_cons in Hnd' as [Hr' _].
  pose proof (chain_unique _ _ _ _ _ _ Hc Hc' Hr Hr') as ->.
  apply list_elem_of_fmap in Hin as (j0 & -> & Hj0). by exists j0.
Qed.

Lemma reach_stack_inv m root stk s :
  fits m → 0 < ncols m → reach m root stk s →
  ∃ L C R V, rootA L = root ∧ stack_inv m L stk s C R V.
Proof.
  intros Hf Hn. induction 1 as [s0 s Hb|stk s c fuel s' _ IH Hl Hcov|stk s c fuel s' _ IH Hunc].
  - destruct (build_rep m s0 Hf Hn) as (s1 & Hb1 & Hrep). rewrite Hb in Hb1.
    injection Hb1 as -> ->.
    exists (build_layout m (length (hdrs s0)) (length (nodes s0))),
      (seq 0 (ncols m)), (seq 0 (nrows m)), (col_rows m (seq 0 (nrows m))).
    split; [reflexivity|]. apply stack_nil. by apply rep_full.
  - destruct IH as (L & C & R & V & <- & Hinv).
    pose proof (stack_inv_full _ _ _ _ _ _ _ Hinv) as Hfull.
    destruct (linked_col m L s C R c (full_rep _ _ _ _ _ _ Hfull) Hl) as (j & -> & Hj).
    eexists L, _, _, _. split; [done|].
    apply (stack_cons m L stk s C R V j (fuel `max` S (nrows m + ncols m))); [done|done|lia|].
    eapply cover_mono; [|exact Hcov]. lia.
  - destruct IH as (L & C & R & V & <- & Hinv).
    inversion Hinv as [|stk0 s0 C0 R0 V0 j F s1 Hinv0 Hj HF Hcov]; subst.
    exists L, C0, R0, V0. split; [done|].
    pose proof (stack_inv_full _ _ _ _ _ _ _ Hinv0) as Hfull.
    destruct (cover_full m L s0 C0 R0 V0 j F Hfull Hj HF) as (s2 & Hcov2 & Hunc2 & _).
    rewrite Hcov in Hcov2. injection Hcov2 as <-.
    apply (uncover_mono _ (fuel `max` F)) in Hunc; [|lia].
    apply (uncover_mono _ (fuel `max` F)) in Hunc2; [|lia].
    rewrite Hunc in Hunc2. by injection Hunc2 as ->.
Qed.

(** C7: in every state of the search (the structure as built, then after
    any sequence of calls of [cover] on a header of the ring and of [uncover]
    on the header covered last), the [length] of every header linked into the
    ring of the root is the number of nodes counted by the walk from
    [head.down] back to [head], a walk that finishes. The [length] of a header
    that is out of the ring is frozen: the next call of [cover] leaves it
    as it is, also for the header it covers, and so does the call of [uncover]
    that brings the last covered header back. *)
Theorem lengths_count_nodes m root stk s :
  fits m → 0 < ncols m → reach m root stk s →
  (∀ c, linked s root c →
     ∃ n N, length_of s c = Some (Z.of_nat n) ∧
       ∀ fuel, N ≤ fuel → column_count fuel s c = Ok n) ∧
  (∀ c fuel s', linked s root c → cover fuel c s = Ok s' →
     ∀ d, d ∈ c :: stk → length_of s' d = length_of s d) ∧
  (∀ c stk' fuel s', stk = c :: stk' → uncover fuel c s = Ok s' →
     ∀ d, d ∈ stk → length_of s' d = length_of s d).
Proof.
  intros Hf Hn Hreach.
  destruct (reach_stack_inv m root stk s Hf Hn Hreach) as (L & C & R & V & <- & Hinv).
  pose proof (stack_inv_full _ _ _ _ _ _ _ Hinv) as Hfull.
  pose proof (full_rep _ _ _ _ _ _ Hfull) as Hrep.
  pose proof (fu_vrep _ _ _ _ _ _ Hfull) as Hv.
  split_and!.
  - intros c Hl. destruct (linked_col m L s C R c Hrep Hl) as (j & -> & Hj).
    pose proof (vr_C _ _ _ _ _ _ Hv j Hj) as Hlt.
    destruct (vr_cols _ _ _ _ _ _ Hv j) as (Hring & Hlen & _); [apply elem_of_seq; lia|].
    exists (length (V j)), (S (length (V j))). split; [done|]. intros fuel Hfuel.
    rewrite (column_count_ring s (colA L j) (headA L j) ((λ i, cellA L i j) <$> V j) fuel).
    + by rewrite length_fmap.
    + by apply (st_head _ _ _ (vr_static _ _ _ _ _ _ Hv)).
    + done.
    + rewrite length_fmap. lia.
  - intros c fuel s' Hl Hcov d Hd.
    destruct (linked_col m L s C R c Hrep Hl) as (j & -> & Hj).
    destruct (cover_full m L s C R V j (fuel `max` S (nrows m + ncols m)) Hfull Hj)
      as (s2 & Hcov2 & _ & _ & Hfrozen); [lia|].
    apply (cover_mono _ (fuel `max` S (nrows m + ncols m))) in Hcov; [|lia].
    rewrite Hcov in Hcov2. injection Hcov2 as <-.
    apply elem_of_cons in Hd as [->|Hd].
    + apply Hfrozen; [by apply (vr_C _ _ _ _ _ _ Hv)|].
      intros [? _]%list_elem_of_filter. done.
    + destruct (stack_inv_detached _ _ _ _ _ _ _ Hinv d Hd) as (j' & -> & Hlt & Hout).
      apply Hfrozen; [done|]. intros [_ ?]%list_elem_of_filter. done.
  - intros c stk' fuel s' -> Hunc d Hd.
    destruct (stack_inv_detached _ _ _ _ _ _ _ Hinv d Hd) as (j' & -> & Hlt & Hout).
    inversion Hinv as [|stk0 s0 C0 R0 V0 j F s1 Hinv0 Hj HF Hcov]; subst.
    pose proof (stack_inv_full _ _ _ _ _ _ _ Hinv0) as Hfull0.
    destruct (cover_full m L s0 C0 R0 V0 j F Hfull0 Hj HF)
      as (s2 & Hcov2 & Hunc2 & _ & Hfrozen).
    rewrite Hcov in Hcov2. injection Hcov2 as <-.
    apply (uncover_mono _ (fuel `max` F)) in Hunc; [|lia].
    apply (uncover_mono _ (fuel `max` F)) in Hunc2; [|lia].
    rewrite Hunc in Hunc2. injection Hunc2 as ->.
    symmetry. by apply Hfrozen.
Qed.

(** The structure of [knuth] after its first column is covered. *)
Definition knuth_covered : heap :=
  match cover 30 0 knuth_heap with
  | Ok s => s
  | _ => knuth_heap
  end.

Lemma lengths_count_nodes_knuth :
  (∀ c, linked knuth_covered 7 c →
     ∃ n N, length_of knuth_covered c = Some (Z.of_nat n) ∧
       ∀ fuel, N ≤ fuel → column_count fuel knuth_covered c = Ok n) ∧
  (∀ c fuel s', linked knuth_covered 7 c → cover fuel c knuth_covered = Ok s' →
     ∀ d, d ∈ [c; 0] → length_of s' d = length_of knuth_covered d) ∧
  (∀ c stk' fuel s', [0] = c :: stk' → uncover fuel c knuth_covered = Ok s' →
     ∀ d, d ∈ [0] → length_of s' d = length_of knuth_covered d).
Proof.
  apply (lengths_count_nodes knuth 7 [0] knuth_covered).
  - apply rectangular_fits. unfold rectangular. repeat constructor.
  - vm_compute. lia.
  - apply (reach_cover knuth 7 [] knuth_heap 0 30).
    + apply (reach_build knuth 7 empty_heap). vm_compute. reflexivity.
    + exists (seq 0 7). split; [exact knuth_heap_ring|]. apply elem_of_seq. lia.
    + vm_compute. reflexivity.
Defined.

(** ** A column of zeros *)

Lemma zero_column_absent m j0 i :
  Forall (λ row, row !! j0 = Some 0%Z) m → present m i j0 = false.
Proof.
  intros Hz. unfold present. destruct (m !! i) as [row|] eqn:E; simpl.
  - rewrite Forall_forall in Hz. rewrite (Hz row) by (by eapply list_elem_of_lookup_2).
    by rewrite andb_false_r.
  - by rewrite andb_false_r.
Qed.

Lemma zero_column_no_path m j0 :
  j0 < ncols m → Forall (λ row, row !! j0 = Some 0%Z) m → all_paths m = [].
Proof.
  intros Hj Hz. destruct (all_paths m) as [|x l] eqn:E; [done|]. exfalso.
  destruct (paths_sound (S (ncols m)) m (seq 0 (ncols m)) (seq 0 (nrows m)) x)
    as (_ & _ & Hcov).
  - apply search_inv_init.
  - rewrite length_seq. lia.
  - fold (all_paths m). rewrite E. set_solver.
  - assert (j0 ∈ seq 0 (ncols m)) as Hin by (apply elem_of_seq; lia).
    specialize (Hcov j0 Hin). rewrite filter_none in Hcov; [done|].
    intros i _. rewrite (zero_column_absent m j0 i Hz). intros [].
Qed.

(** A matrix with a column of zeros. *)
Definition zero_column : matrix := [[1; 0; 1]; [0; 0; 1]]%Z.

(** C8: on a rectangular matrix one of whose columns holds only zeros,
    [solve] returns the empty array, with or without a cap. *)
Theorem zero_column_no_solution m j0 o s0 fuel :
  rectangular m → j0 < ncols m → Forall (λ row, row !! j0 = Some 0%Z) m →
  enough m fuel →
  solve_in fuel s0 m o = Ok [].
Proof.
  intros Hr Hj Hz Hfuel.
  rewrite solve_in_found; [|by apply rectangular_fits|lia|done]. f_equal.
  assert (found m 0 = []) as E0.
  { pose proof (found_paths m) as HF. rewrite (zero_column_no_path m j0 Hj Hz) in HF.
    by apply Forall2_nil_inv_r in HF. }
  destruct (max_of o) as [|n] eqn:Eo; [done|].
  rewrite found_capped by lia. rewrite E0. by rewrite take_nil.
Qed.

Lemma zero_column_no_solution_example :
  solve 30 zero_column (Some (Options (Some 2))) = Ok [] ∧
  solve 30 zero_column None = Ok [].
Proof.
  split.
  - apply (zero_column_no_solution zero_column 1 (Some (Options (Some 2))) empty_heap 30).
    + unfold rectangular. repeat constructor.
    + vm_compute. lia.
    + repeat constructor.
    + unfold enough. vm_compute. lia.
  - apply (zero_column_no_solution zero_column 1 None empty_heap 30).
    + unfold rectangular. repeat constructor.
    + vm_compute. lia.
    + repeat constructor.
    + unfold enough. vm_compute. lia.
Defined.

(** ** Determinism *)

(** C9: two calls of [solve] without a cap ([maxSolutions] absent or 0) on
    equal matrices return equal arrays of solutions: the result depends on the
    options only through the cap, and, on a rectangular matrix with at least
    one column, both calls return, whatever objects the heap holds before
    each of them, so that no call sees what an earlier call left. *)
Theorem solve_deterministic m o1 o2 fuel :
  max_of o1 = 0 → max_of o2 = 0 →
  (∀ s, solve_in fuel s m o1 = solve_in fuel s m o2) ∧
  (rectangular m → 0 < ncols m → enough m fuel →
   ∀ s1 s2, ∃ sols, solve_in fuel s1 m o1 = Ok sols ∧ solve_in fuel s2 m o2 = Ok sols).
Proof.
  intros H1 H2. split.
  - intros s. unfold solve_in. by rewrite H1, H2.
  - intros Hr%rectangular_fits Hn Hfuel s1 s2. exists (found m 0).
    rewrite <- H1 at 1. rewrite <- H2. split; by apply solve_in_found.
Qed.

Lemma solve_deterministic_knuth :
  (∀ s, solve_in 30 s knuth None = solve_in 30 s knuth (Some (Options (Some 0)))) ∧
  (∀ s1 s2, ∃ sols, solve_in 30 s1 knuth None = Ok sols ∧
                    solve_in 30 s2 knuth (Some (Options (Some 0))) = Ok sols).
Proof.
  destruct (solve_deterministic knuth None (Some (Options (Some 0))) 30 eq_refl eq_refl)
    as [H1 H2].
  split; [exact H1|]. apply H2.
  - unfold rectangular. repeat constructor.
  - vm_compute. lia.
  - unfold enough. vm_compute. lia.
Defined.

(** ** A matrix without columns *)

Lemma add_cells_no_columns rowIndex row : ∀ col st,
  add_cells [] rowIndex row col st = Ok st ∨
  ∃ c, add_cells [] rowIndex row col st = Throw (UndefinedColumn c).
Proof.
  induction row as [|v row IH]; intros col [s l]; [by left|]. simpl.
  destruct (truthy v); simpl; [right; by exists col|]. apply IH.
Qed.

Lemma add_rows_no_columns rows : ∀ rowIndex s,
  add_rows [] rows rowIndex s = Ok s ∨
  ∃ c, add_rows [] rows rowIndex s = Throw (UndefinedColumn c).
Proof.
  induction rows as [|row rows IH]; intros rowIndex s; [by left|]. simpl.
  destruct (add_cells_no_columns rowIndex row 0 (s, None)) as [-> | [c ->]]; simpl.
  - apply IH.
  - right. by exists c.
Qed.

Lemma add_rows_empty_rows columns rows : ∀ rowIndex s,
  Forall (λ row : list Z, length row = 0) rows → add_rows columns rows rowIndex s = Ok s.
Proof.
  induction rows as [|row rows IH]; intros rowIndex s Hr; [done|].
  apply Forall_cons in Hr as [H0 Hr]. destruct row; [|done]. simpl. by apply IH.
Qed.

(** C10: on a matrix without rows, or whose first row is empty, [solve]
    does not return: it throws, and no amount of fuel changes that. Without
    rows the failing read is [matrix[0].length]; with an empty first row it is
    a read on an undefined element of [columns], which is [columns[0]] when
    all rows are empty as the first one is. *)
Theorem solve_no_columns_throws m s fuel o :
  ncols m = 0 →
  ∃ e, solve_in fuel s m o = Throw e ∧
    (m = [] → e = UndefinedRow0) ∧
    (m ≠ [] → ∃ col, e = UndefinedColumn col) ∧
    (m ≠ [] → rectangular m → e = UndefinedColumn 0).
Proof.
  intros Hn. unfold solve_in, build. unfold ncols in Hn.
  destruct m as [|row0 m']; simpl in *.
  { exists UndefinedRow0. split_and!; done. }
  destruct row0; [|done]. simpl.
  destruct (add_rows_no_columns m' 1 s) as [E | [c E]]; rewrite E; simpl.
  - exists (UndefinedColumn 0). split_and!; [done|done|by exists 0|done].
  - exists (UndefinedColumn c). split_and!; [done|done|by exists c|].
    intros _ Hr. unfold rectangular in Hr. apply Forall_cons in Hr as [_ Hr].
    rewrite (add_rows_empty_rows [] m' 1 s) in E; [done|]. exact Hr.
Qed.

Lemma solve_no_columns_throws_examples :
  (∃ e, solve 30 [] None = Throw e ∧
    (([] : matrix) = [] → e = UndefinedRow0) ∧
    (([] : matrix) ≠ [] → ∃ col, e = UndefinedColumn col) ∧
    (([] : matrix) ≠ [] → rectangular [] → e = UndefinedColumn 0)) ∧
  (∃ e, solve 30 [[]; []] None = Throw e ∧
    ([[]; []] = ([] : matrix) → e = UndefinedRow0) ∧
    ([[]; []] ≠ ([] : matrix) → ∃ col, e = UndefinedColumn col) ∧
    ([[]; []] ≠ ([] : matrix) → rectangular [[]; []] → e = UndefinedColumn 0)).
Proof.
  split.
  - apply (solve_no_columns_throws [] empty_heap 30 None). reflexivity.
  - apply (solve_no_columns_throws [[]; []] empty_heap 30 None). reflexivity.
Defined.

(** ** What the returned arrays do hold *)

Lemma pairwise_take {A} (Rl : A → A → Prop) n l : pairwise Rl l → pairwise Rl (take n l).
Proof.
  intros H. rewrite <- (take_drop n l) in H. by apply pairwise_app in H as [? _].
Qed.

Lemma all_paths_exact m :
  Forall (λ x, NoDup x ∧ (∀ i, i ∈ x → i ∈ nonzero_rows m) ∧ exact_cover m x) (all_paths m).
Proof.
  apply Forall_forall. intros x Hx.
  destruct (paths_sound (S (ncols m)) m (seq 0 (ncols m)) (seq 0 (nrows m)) x)
    as (Hnd & Hrows & Hcov); [apply search_inv_init|rewrite length_seq; lia|done|].
  split_and!; [done| |by apply exact_cover_covers].
  intros i Hi. apply elem_of_nonzero_rows. by destruct (Hrows i Hi).
Qed.

Lemma all_paths_distinct m : pairwise (λ x y, ¬ x ≡ₚ y) (all_paths m).
Proof.
  apply paths_distinct; [apply search_inv_init|rewrite length_seq; lia].
Qed.

(** X1: on a rectangular matrix with at least one column, with or without
    a cap, [solve] returns, and its solutions are, in order, those of a list of
    exact covers, no two of which hold the same rows: every solution starts
    with the rows of its cover, rows that have a nonzero cell and are pairwise
    different, in the order of the search. What comes after them in the array
    is not said. *)
Theorem solve_prefix_exact m o s0 fuel :
  rectangular m → 0 < ncols m → enough m fuel →
  ∃ sols cs, solve_in fuel s0 m o = Ok sols ∧
    Forall2 (λ (t : solution) x, ∃ tail, t = (Some <$> x) ++ tail) sols cs ∧
    Forall (λ x, NoDup x ∧ (∀ i, i ∈ x → i ∈ nonzero_rows m) ∧ exact_cover m x) cs ∧
    pairwise (λ x y, ¬ x ≡ₚ y) cs.
Proof.
  intros Hr%rectangular_fits Hn Hfuel.
  exists (found m (max_of o)). rewrite (solve_in_found m s0 o fuel Hr Hn Hfuel).
  destruct (max_of o) as [|n] eqn:Eo.
  - exists (all_paths m). split_and!;
      [done|apply found_paths|apply all_paths_exact|apply all_paths_distinct].
  - exists (take (S n) (all_paths m)). rewrite found_capped by lia. split_and!.
    + done.
    + apply Forall2_take, found_paths.
    + apply Forall_take, all_paths_exact.
    + apply pairwise_take, all_paths_distinct.
Qed.

Lemma solve_prefix_exact_twice :
  ∃ sols cs, solve 30 twice None = Ok sols ∧
    Forall2 (λ (t : solution) x, ∃ tail, t = (Some <$> x) ++ tail) sols cs ∧
    Forall (λ x, NoDup x ∧ (∀ i, i ∈ x → i ∈ nonzero_rows twice) ∧ exact_cover twice x) cs ∧
    pairwise (λ x y, ¬ x ≡ₚ y) cs.
Proof.
  apply (solve_prefix_exact twice None empty_heap 30).
  - unfold rectangular. repeat constructor.
  - vm_compute. lia.
  - unfold enough. vm_compute. lia.
Defined.

(** X2: on a well-formed structure, an invocation of [recurse] with enough
    fuel returns, and the heap it returns is the heap it received: every
    [cover] of the search has been undone. *)
Theorem recurse_restores_heap s root max k sols parts :
  well_formed s root →
  ∃ N, ∀ fuel, N ≤ fuel →
    ∃ sols' parts', recurse fuel root max k (Search s sols parts) = Ok (Search s sols' parts').
Proof.
  intros (m & L & C & R & <- & Hrep).
  exists (S (nrows m + ncols m + S (length C))). intros fuel Hfuel.
  eexists _, _. apply (recurse_refines (S (length C)) m L s C R); [done|lia|lia].
Qed.

Lemma recurse_restores_heap_knuth :
  ∃ N, ∀ fuel, N ≤ fuel →
    ∃ sols' parts', recurse fuel 7 0 0 (Search knuth_heap [] []) =
                      Ok (Search knuth_heap sols' parts').
Proof.
  apply (recurse_restores_heap knuth_heap 7 0 0 [] []).
  exists knuth, (build_layout knuth 0 0), (seq 0 7), (seq 0 6).
  split; [reflexivity|exact knuth_heap_rep].
Defined.

(** On the matrix of the test suite, with a cap of 1 as without a cap,
    [solve] returns the one solution [1,3,5]. *)
Theorem solve_test_matrix :
  solve 30 knuth None = Ok [[Some 1; Some 3; Some 5]] ∧
  solve 30 knuth (Some (Options (Some 1))) = Ok [[Some 1; Some 3; Some 5]] ∧
  solve 30 knuth (Some (Options None)) = Ok [[Some 1; Some 3; Some 5]].
Proof. split_and!; vm_compute; reflexivity. Qed.

(** * Part XI: more on the functions of [src/index.js] *)

(** ** [eachNode] and [eachHeader] on a ring *)

(** A callback that leaves the heap alone and updates a value of its own,
    as the callback of [recurse] that looks for the smallest column does. *)
Definition pure_callback {A} (f : addr → A → A) (n : addr) (st : heap * A)
    : outcome (heap * A) :=
  Ok (st.1, f n st.2).

Lemma ring_rev (F B : nat → option nat) hd l : ring F B hd l → ring B F hd (rev l).
Proof.
  intros [Hc Hnd]. split; [by apply chain_rev|].
  apply NoDup_cons in Hnd as [Hhd Hnd]. apply NoDup_cons.
  replace (rev l) with (reverse l) by (symmetry; apply rev_alt).
  split; [by rewrite elem_of_reverse|by rewrite reverse_Permutation].
Qed.

Lemma eachNode_fold {A} s node d d' l (f : addr → A → A) a fuel :
  ring (link d s) (link d' s) node l → length l < fuel →
  eachNode fst fuel node d (pure_callback f) (s, a) = Ok (s, foldl (λ acc n, f n acc) a l).
Proof.
  intros [Hc Hnd] Hf. unfold eachNode. cbn [fst].
  pose proof (chain_hd _ _ _ _ _ Hc) as [H0 _]. rewrite H0. cbn [deref obind].
  destruct (eachNode_from_inv (σ := heap * A) fst
              (λ todo st, ∃ pre, l = pre ++ todo ∧ st = (s, foldl (λ acc n, f n acc) a pre))
              node d (pure_callback f)) with (todo := l) (fuel := fuel) (st := (s, a))
    as (st' & -> & pre & Hl & ->); [| done | by exists [] |].
  - intros x todo st (pre & Hl & ->). split.
    { intros ->. apply NoDup_cons in Hnd as [Hnd _]. apply Hnd. rewrite Hl. set_solver. }
    eexists. split; [done|]. cbn [fst snd]. split.
    + rewrite Hl in Hc. apply chain_app in Hc as [_ Hc]. by apply chain_hd in Hc as [? _].
    + exists (pre ++ [x]). rewrite <- app_assoc. split; [done|]. by rewrite foldl_snoc.
  - rewrite app_nil_r in Hl. by subst.
Qed.

Lemma eachHeader_fold {A} s header d d' l (f : addr → A → A) a fuel :
  ring (hlink d s) (hlink d' s) header l → length l < fuel →
  eachHeader fst fuel header d (pure_callback f) (s, a) = Ok (s, foldl (λ acc n, f n acc) a l).
Proof.
  intros [Hc Hnd] Hf. unfold eachHeader. cbn [fst].
  pose proof (chain_hd _ _ _ _ _ Hc) as [H0 _]. rewrite H0. cbn [deref obind].
  destruct (eachHeader_from_inv (σ := heap * A) fst
              (λ todo st, ∃ pre, l = pre ++ todo ∧ st = (s, foldl (λ acc n, f n acc) a pre))
              header d (pure_callback f)) with (todo := l) (fuel := fuel) (st := (s, a))
    as (st' & -> & pre & Hl & ->); [| done | by exists [] |].
  - intros x todo st (pre & Hl & ->). split.
    { intros ->. apply NoDup_cons in Hnd as [Hnd _]. apply Hnd. rewrite Hl. set_solver. }
    eexists. split; [done|]. cbn [fst snd]. split.
    + rewrite Hl in Hc. apply chain_app in Hc as [_ Hc]. by apply chain_hd in Hc as [? _].
    + exists (pre ++ [x]). rewrite <- app_assoc. split; [done|]. by rewrite foldl_snoc.
  - rewrite app_nil_r in Hl. by subst.
Qed.

(** X3: on a ring of nodes (following [d] from [node] one meets the nodes
    [l], all different, and comes back to [node]; [d'] is the opposite
    direction), [eachNode] in direction [d] calls the callback on the nodes of
    [l] in this order, once each and never on [node] itself, and in direction
    [d'] it calls it on the same nodes in the reverse order; a callback that
    does not write to the heap leaves the heap as it is. *)
Theorem eachNode_visits_ring {A} s node d d' l (f : addr → A → A) a fuel :
  ring (link d s) (link d' s) node l → length l < fuel →
  eachNode fst fuel node d (pure_callback f) (s, a)
    = Ok (s, foldl (λ acc n, f n acc) a l) ∧
  eachNode fst fuel node d' (pure_callback f) (s, a)
    = Ok (s, foldl (λ acc n, f n acc) a (rev l)).
Proof.
  intros Hring Hf. split.
  - by eapply eachNode_fold.
  - eapply eachNode_fold; [by apply ring_rev|]. by rewrite length_rev.
Qed.

(** The head of column 0 of [knuth_heap] is node 0; its column holds the
    nodes 7 and 10, of rows 0 and 1. *)
Lemma eachNode_visits_ring_knuth :
  eachNode fst 30 0 Down (pure_callback (λ n acc, acc ++ [n])) (knuth_heap, [])
    = Ok (knuth_heap, foldl (λ acc n, acc ++ [n]) [] [7; 10]) ∧
  eachNode fst 30 0 Up (pure_callback (λ n acc, acc ++ [n])) (knuth_heap, [])
    = Ok (knuth_heap, foldl (λ acc n, acc ++ [n]) [] (rev [7; 10])).
Proof.
  apply (eachNode_visits_ring knuth_heap 0 Down Up [7; 10]).
  - split; [vm_compute; repeat split; reflexivity|].
    repeat (apply NoDup_cons; split; [set_solver|]). apply NoDup_nil_2.
  - simpl. lia.
Defined.

(** X4: the same for [eachHeader] on a ring of column headers. *)
Theorem eachHeader_visits_ring {A} s header d d' l (f : addr → A → A) a fuel :
  ring (hlink d s) (hlink d' s) header l → length l < fuel →
  eachHeader fst fuel header d (pure_callback f) (s, a)
    = Ok (s, foldl (λ acc n, f n acc) a l) ∧
  eachHeader fst fuel header d' (pure_callback f) (s, a)
    = Ok (s, foldl (λ acc n, f n acc) a (rev l)).
Proof.
  intros Hring Hf. split.
  - by eapply eachHeader_fold.
  - eapply eachHeader_fold; [by apply ring_rev|]. by rewrite length_rev.
Qed.

Lemma eachHeader_visits_ring_knuth :
  eachHeader fst 30 7 Next (pure_callback (λ n acc, acc ++ [n])) (knuth_heap, [])
    = Ok (knuth_heap, foldl (λ acc n, acc ++ [n]) [] (seq 0 7)) ∧
  eachHeader fst 30 7 Prev (pure_callback (λ n acc, acc ++ [n])) (knuth_heap, [])
    = Ok (knuth_heap, foldl (λ acc n, acc ++ [n]) [] (rev (seq 0 7))).
Proof.
  apply (eachHeader_visits_ring knuth_heap 7 Next Prev (seq 0 7)).
  - exact knuth_heap_ring.
  - simpl. lia.
Defined.

(** ** [createNode] *)

(** The ring that holds the new node: with a neighbour [nb], the ring of
    [nb] with the new node right after it; without one, the new node alone. *)
Definition ring_with (F B : nat → option nat) (nb : option addr) (node : addr)
    (others : list addr) : Prop :=
  match nb with
  | Some l => ring F B l (node :: others)
  | None => ring F B node []
  end.

(** The ring of the neighbour before the call. *)
Definition ring_of (F B : nat → option nat) (nb : option addr) (others : list addr) : Prop :=
  match nb with
  | Some l => ring F B l others
  | None => others = []
  end.

Lemma ring_insert_after (F B F' B' : nat → option nat) l ys node :
  ring F B l ys → node ∉ l :: ys →
  (∀ x, F' x = if decide (x = l) then Some node
               else if decide (x = node) then Some (List.hd l ys) else F x) →
  (∀ x, B' x = if decide (x = List.hd l ys) then Some node
               else if decide (x = node) then Some l else B x) →
  ring F' B' l (node :: ys).
Proof.
  intros [Hc Hnd] Hfresh HF HB.
  assert (node ≠ l) as Hnl by set_solver.
  split; [|apply NoDup_cons in Hnd as [? ?]; repeat (apply NoDup_cons; split); set_solver].
  cbn [chain]. split_and!.
  - rewrite HF. by rewrite decide_True.
  - rewrite HB. destruct (decide (node = List.hd l ys)) as [E|_].
    + exfalso. apply Hfresh. rewrite E. apply hd_elem_of.
    + by rewrite decide_True.
  - destruct ys as [|y ys']; cbn [hd chain] in *.
    + rewrite HF, HB. rewrite decide_False by done. by rewrite !decide_True.
    + destruct Hc as (H1 & H2 & Hc).
      apply NoDup_cons in Hnd as [Hl Hnd]. apply NoDup_cons in Hnd as [Hy Hnd].
      rewrite HF, HB. rewrite (decide_False (P := node = l)) by done.
      rewrite !decide_True by done. split_and!; [done..|].
      eapply chain_ext; [| |exact Hc].
      * intros x Hx. rewrite HF. rewrite !decide_False; [done| |]; set_solver.
      * intros x Hx. rewrite HB. rewrite !decide_False; [done| |]; set_solver.
Qed.

Lemma ring_members_valid d d' s l ys x :
  ring (link d s) (link d' s) l ys → x ∈ l :: ys → valid_node s x.
Proof.
  intros Hring Hx. destruct (ring_valid _ _ _ _ _ Hring Hx) as [[y Hy] _].
  by eapply link_valid.
Qed.

(** X5: [createNode] allocates one node, sets its header, and links it
    into two rings: right after [left] in the row ring of [left] and right
    below [up] in the column ring of [up], all other nodes of these rings
    keeping their order; where [left] (or [up]) is not given the new node is a
    ring of its own in that direction. No header is written and no other node
    changes its header. *)
Theorem createNode_inserts column left up s ys zs :
  ring_of (link Right s) (link Left s) left ys →
  ring_of (link Down s) (link Up s) up zs →
  ∃ s', createNode column left up s = Ok (length (nodes s), s') ∧
    length (nodes s') = S (length (nodes s)) ∧ hdrs s' = hdrs s ∧
    ring_with (link Right s') (link Left s') left (length (nodes s)) ys ∧
    ring_with (link Down s') (link Up s') up (length (nodes s)) zs ∧
    header_of s' (length (nodes s)) = Some column ∧
    (∀ x, x ≠ length (nodes s) → header_of s' x = header_of s x).
Proof.
  intros Hl Hu. set (node := length (nodes s)).
  assert (∀ d d' l ys x, ring (link d s) (link d' s) l ys → x ∈ l :: ys → x ≠ node) as Hfresh.
  { intros d d' l ys' x Hr Hx. pose proof (ring_members_valid _ _ _ _ _ _ Hr Hx) as V.
    unfold valid_node in V. unfold node. lia. }
  destruct (createNode_spec column left up s
              (match left with Some l => List.hd l ys | None => node end)
              (match up with Some u => List.hd u zs | None => node end))
    as (s' & Hcr & Hlen & Hh & HR & HL & HD & HU & Hhd & _).
  { destruct left as [l|]; simpl in *; [|done]. destruct Hl as [Hc Hnd].
    apply chain_hd in Hc as [Hc Hb]. split; [done|]. by eapply link_valid. }
  { destruct up as [u|]; simpl in *; [|done]. destruct Hu as [Hc Hnd].
    apply chain_hd in Hc as [Hc Hb]. split; [done|]. by eapply link_valid. }
  exists s'. fold node in HR, HL, HD, HU, Hhd |- *. split_and!; [done..| | | |].
  - destruct left as [l|]; simpl in *.
    + eapply ring_insert_after; [exact Hl| |exact HR|exact HL].
      intros Hin. by apply (Hfresh _ _ _ _ _ Hl Hin).
    + split; [|apply NoDup_singleton]. simpl. rewrite HR, HL. by rewrite !decide_True.
  - destruct up as [u|]; simpl in *.
    + eapply ring_insert_after; [exact Hu| |exact HD|exact HU].
      intros Hin. by apply (Hfresh _ _ _ _ _ Hu Hin).
    + split; [|apply NoDup_singleton]. simpl. rewrite HD, HU. by rewrite !decide_True.
  - rewrite Hhd. by rewrite decide_True.
  - intros x Hx. rewrite Hhd. by rewrite decide_False.
Qed.

(** In [knuth_heap], node 7 (row 0, column 0) is followed in its row by the
    nodes 8 and 9, and the head 0 of column 0 by the nodes 7 and 10; the heap
    holds 23 nodes. *)
Lemma createNode_inserts_knuth :
  ∃ s', createNode 0 (Some 7) (Some 0) knuth_heap = Ok (length (nodes knuth_heap), s') ∧
    length (nodes s') = S (length (nodes knuth_heap)) ∧ hdrs s' = hdrs knuth_heap ∧
    ring_with (link Right s') (link Left s') (Some 7) (length (nodes knuth_heap)) [8; 9] ∧
    ring_with (link Down s') (link Up s') (Some 0) (length (nodes knuth_heap)) [7; 10] ∧
    header_of s' (length (nodes knuth_heap)) = Some 0 ∧
    (∀ x, x ≠ length (nodes knuth_heap) → header_of s' x = header_of knuth_heap x).
Proof.
  apply (createNode_inserts 0 (Some 7) (Some 0) knuth_heap [8; 9] [7; 10]).
  - split; [vm_compute; repeat split; reflexivity|].
    repeat (apply NoDup_cons; split; [set_solver|]). apply NoDup_nil_2.
  - split; [vm_compute; repeat split; reflexivity|].
    repeat (apply NoDup_cons; split; [set_solver|]). apply NoDup_nil_2.
Defined.

(** ** The structure that [solve] builds *)

(** The rows with a truthy cell in column [j], top to bottom. *)
Definition column_rows (m : matrix) (j : nat) : list nat :=
  filter (λ i, truthy (cell m i j)) (seq 0 (nrows m)).

Lemma present_cell m i j :
  present m i j = bool_decide (j < ncols m) && truthy (cell m i j).
Proof.
  unfold present, cell. by destruct (m !! i ≫= (λ row, row !! j)).
Qed.

Lemma col_rows_column_rows m j :
  j < ncols m → col_rows m (seq 0 (nrows m)) j = column_rows m j.
Proof.
  intros Hj. apply filter_ext_in. intros i _. rewrite present_cell.
  rewrite bool_decide_true by done. done.
Qed.

(** X6: on a matrix whose truthy cells lie in the columns of its first row,
    and with at least one column, the construction of [solve] succeeds and
    gives a root whose ring holds one header per column, in column order; the
    column ring of header [j] holds, top to bottom, one node per truthy cell
    of column [j], carrying the index of its row and pointing to its header,
    and the [length] of the header is the number of these nodes. *)
Theorem build_columns m s0 :
  fits m → 0 < ncols m →
  ∃ root s cols, build m s0 = Ok (root, s) ∧
    ring (hlink Next s) (hlink Prev s) root cols ∧ length cols = ncols m ∧
    ∀ j c, cols !! j = Some c →
      ∃ hd ns, head_of s c = Some hd ∧ ring (link Down s) (link Up s) hd ns ∧
        rowNumber_of s <$> ns = Some <$> column_rows m j ∧
        Forall (λ n, header_of s n = Some c) ns ∧
        length_of s c = Some (Z.of_nat (length ns)).
Proof.
  intros Hf Hn. destruct (build_rep m s0 Hf Hn) as (s & Hb & Hrep).
  set (L := build_layout m (length (hdrs s0)) (length (nodes s0))) in *.
  pose proof (rep_vrep _ _ _ _ _ Hrep) as Hv.
  pose proof (vr_static _ _ _ _ _ _ Hv) as Hst.
  exists (rootA L), s, (colA L <$> seq 0 (ncols m)). split_and!.
  - done.
  - apply (vr_hring _ _ _ _ _ _ Hv).
  - by rewrite length_fmap, length_seq.
  - intros j c Hc. rewrite list_lookup_fmap in Hc.
    destruct (seq 0 (ncols m) !! j) as [j'|] eqn:Ej; [|done].
    apply lookup_seq in Ej as [-> Hj]. simpl in Hc. injection Hc as <-.
    destruct (vr_cols _ _ _ _ _ _ Hv j) as (Hring & Hlen & Hpres); [apply elem_of_seq; lia|].
    exists (headA L j), ((λ i, cellA L i j) <$> col_rows m (seq 0 (nrows m)) j).
    split_and!.
    + by apply (st_head _ _ _ Hst).
    + done.
    + rewrite <- col_rows_column_rows by done. rewrite <- list_fmap_compose.
      apply list_fmap_ext. intros k i Hi. simpl.
      apply (st_rowNumber _ _ _ Hst). apply Hpres. by eapply list_elem_of_lookup_2.
    + apply Forall_fmap, Forall_forall. intros i Hi. simpl.
      apply (st_header _ _ _ Hst). by apply Hpres.
    + by rewrite length_fmap.
Qed.

Lemma build_columns_knuth :
  ∃ root s cols, build knuth empty_heap = Ok (root, s) ∧
    ring (hlink Next s) (hlink Prev s) root cols ∧ length cols = ncols knuth ∧
    ∀ j c, cols !! j = Some c →
      ∃ hd ns, head_of s c = Some hd ∧ ring (link Down s) (link Up s) hd ns ∧
        rowNumber_of s <$> ns = Some <$> column_rows knuth j ∧
        Forall (λ n, header_of s n = Some c) ns ∧
        length_of s c = Some (Z.of_nat (length ns)).
Proof.
  apply (build_columns knuth empty_heap).
  - apply rectangular_fits. unfold rectangular. repeat constructor.
  - vm_compute. lia.
Defined.

(** The columns of the truthy cells of row [i] other than [j], in the order
    in which they follow column [j] cyclically, written on the cells. *)
Definition row_after (m : matrix) (i j : nat) : list nat :=
  filter (λ j', truthy (cell m i j')) (seq (S j) (ncols m - S j)) ++
  filter (λ j', truthy (cell m i j')) (seq 0 j).

Lemma sibs_row_after m i j : j < ncols m → sibs m i j = row_after m i j.
Proof.
  intros Hj. unfold sibs, row_after. f_equal; apply filter_ext_in; intros j' Hj';
    apply elem_of_seq in Hj'; rewrite present_cell;
    rewrite bool_decide_true by lia; done.
Qed.

(** X7: in the structure that [solve] builds there is one node per truthy
    cell; the node of cell (i, j) carries the row index [i], points to the
    header of column [j], and its row ring (by [right], with [left] as the
    opposite direction) holds the nodes of the other truthy cells of row [i],
    in the cyclic order of their columns. *)
Theorem build_rows m s0 :
  fits m → 0 < ncols m →
  ∃ root s cols (node_of : nat → nat → addr), build m s0 = Ok (root, s) ∧
    ring (hlink Next s) (hlink Prev s) root cols ∧
    ∀ i j, j < ncols m → truthy (cell m i j) →
      rowNumber_of s (node_of i j) = Some i ∧
      header_of s (node_of i j) = cols !! j ∧
      ring (link Right s) (link Left s) (node_of i j) (node_of i <$> row_after m i j).
Proof.
  intros Hf Hn. destruct (build_rep m s0 Hf Hn) as (s & Hb & Hrep).
  set (L := build_layout m (length (hdrs s0)) (length (nodes s0))) in *.
  pose proof (rep_vrep _ _ _ _ _ Hrep) as Hv.
  pose proof (vr_static _ _ _ _ _ _ Hv) as Hst.
  pose proof (st_layout _ _ _ Hst) as HL.
  exists (rootA L), s, (colA L <$> seq 0 (ncols m)), (cellA L).
  split_and!; [done|apply (vr_hring _ _ _ _ _ _ Hv)|].
  intros i j Hj Ht.
  assert (present m i j) as Hp.
  { rewrite present_cell. rewrite bool_decide_true by done. done. }
  split_and!.
  - by apply (st_rowNumber _ _ _ Hst).
  - rewrite (st_header _ _ _ Hst i j Hp). rewrite list_lookup_fmap.
    by rewrite lookup_seq_lt.
  - rewrite <- sibs_row_after by done. split; [by apply (st_row _ _ _ Hst)|].
    rewrite <- fmap_cons. apply NoDup_fmap_2_strong.
    + intros j1 j2 H1 H2 E.
      assert (∀ j', j' ∈ j :: sibs m i j → present m i j') as Hall.
      { intros j' [->|Hj']%elem_of_cons; [done|]. by apply elem_of_sibs in Hj' as [? _]. }
      by destruct (lo_cell _ _ HL _ _ _ _ (Hall _ H1) (Hall _ H2) E).
    + apply NoDup_cons. split; [|apply NoDup_sibs].
      intros Hin. apply elem_of_sibs in Hin as [_ ?]. done.
Qed.

Lemma build_rows_knuth :
  ∃ root s cols (node_of : nat → nat → addr), build knuth empty_heap = Ok (root, s) ∧
    ring (hlink Next s) (hlink Prev s) root cols ∧
    ∀ i j, j < ncols knuth → truthy (cell knuth i j) →
      rowNumber_of s (node_of i j) = Some i ∧
      header_of s (node_of i j) = cols !! j ∧
      ring (link Right s) (link Left s) (node_of i j) (node_of i <$> row_after knuth i j).
Proof.
  apply (build_rows knuth empty_heap).
  - apply rectangular_fits. unfold rectangular. repeat constructor.
  - vm_compute. lia.
Defined.

(** ** What [cover] and [uncover] leave alone *)

(** The properties that neither [cover] nor [uncover] writes: the [left]
    and [right] links, the [header] and the [rowNumber] of every node, the
    [head] of every header; and no object is created. *)
Definition untouched (s s' : heap) : Prop :=
  (∀ n, link Left s' n = link Left s n) ∧
  (∀ n, link Right s' n = link Right s n) ∧
  (∀ n, header_of s' n = header_of s n) ∧
  (∀ n, rowNumber_of s' n = rowNumber_of s n) ∧
  (∀ h, head_of s' h = head_of s h) ∧
  length (nodes s') = length (nodes s) ∧
  length (hdrs s') = length (hdrs s).

(** What the loops of [cover] and [uncover] leave alone: the above and the
    links between the headers. *)
Definition rows_untouched (s s' : heap) : Prop :=
  untouched s s' ∧ ∀ d h, hlink d s' h = hlink d s h.

Lemma untouched_refl s : untouched s s.
Proof. by repeat split. Qed.

Lemma untouched_trans a b c : untouched a b → untouched b c → untouched a c.
Proof.
  intros (A1 & A2 & A3 & A4 & A5 & A6 & A7) (B1 & B2 & B3 & B4 & B5 & B6 & B7).
  repeat split; intros; congruence.
Qed.

Lemma rows_untouched_refl s : rows_untouched s s.
Proof. split; [apply untouched_refl|done]. Qed.

Lemma rows_untouched_trans a b c :
  rows_untouched a b → rows_untouched b c → rows_untouched a c.
Proof.
  intros [A1 A2] [B1 B2]. split; [by eapply untouched_trans|]. intros; congruence.
Qed.

Lemma set_link_vertical d n v s s' :
  d = Up ∨ d = Down → set_link d n v s = Ok s' → rows_untouched s s'.
Proof.
  intros Hd H. apply upd_node_inv in H as [V ->]. fold (put_link d n v s).
  split; [|done]. repeat split; intros; try done.
  - rewrite link_put_link by done. rewrite decide_False; [done|]. intros [_ ?]. naive_solver.
  - rewrite link_put_link by done. rewrite decide_False; [done|]. intros [_ ?]. naive_solver.
  - apply header_of_put_link.
  - apply rowNumber_of_put_link.
  - apply length_nodes_put_link.
Qed.

Lemma add_length_rows h z s s' : add_length h z s = Ok s' → rows_untouched s s'.
Proof.
  intros H. apply upd_hdr_inv in H as [V ->]. fold (put_length h z s).
  split; [|intros; apply hlink_put_length]. repeat split; intros; try done.
  - apply head_of_put_length.
  - apply length_hdrs_put_length.
Qed.

Lemma set_hlink_untouched d h v s s' : set_hlink d h v s = Ok s' → untouched s s'.
Proof.
  intros H. apply upd_hdr_inv in H as [V ->]. fold (put_hlink d h v s).
  repeat split; intros; try done.
  - apply head_of_put_hlink.
  - apply length_hdrs_put_hlink.
Qed.

Ltac open_bind H :=
  let x := fresh "x" in let E := fresh "E" in
  apply obind_ok in H as (x & E & H).

Lemma cover_node_rows x s s' : cover_node x s = Ok s' → rows_untouched s s'.
Proof.
  intros H. unfold cover_node in H. do 7 open_bind H.
  apply set_link_vertical in E1; [|by right]. apply set_link_vertical in E4; [|by left].
  apply add_length_rows in H.
  eapply rows_untouched_trans; [exact E1|]. eapply rows_untouched_trans; [exact E4|done].
Qed.

Lemma uncover_node_rows x s s' : uncover_node x s = Ok s' → rows_untouched s s'.
Proof.
  intros H. unfold uncover_node in H. do 5 open_bind H.
  apply add_length_rows in E0. apply set_link_vertical in E2; [|by right].
  apply set_link_vertical in H; [|by left].
  eapply rows_untouched_trans; [exact E0|]. eapply rows_untouched_trans; [exact E2|done].
Qed.

(** A loop keeps what its callback keeps. *)
Lemma eachNode_from_preserves {σ} (hp : σ → heap) (Q : heap → heap → Prop)
    (fn : addr → σ → outcome σ) node d :
  (∀ s, Q s s) → (∀ a b c, Q a b → Q b c → Q a c) →
  (∀ x st st', fn x st = Ok st' → Q (hp st) (hp st')) →
  ∀ fuel n st st', eachNode_from hp fuel node d fn n st = Ok st' → Q (hp st) (hp st').
Proof.
  intros Hrefl Htrans Hfn fuel. induction fuel as [|fuel IH]; intros n st st' H; [done|].
  simpl in H. destruct (decide (n = node)); [injection H as ->; apply Hrefl|].
  open_bind H. open_bind H. eapply Htrans; [by eapply Hfn|by eapply IH].
Qed.

Lemma eachNode_preserves {σ} (hp : σ → heap) (Q : heap → heap → Prop)
    (fn : addr → σ → outcome σ) node d fuel st st' :
  (∀ s, Q s s) → (∀ a b c, Q a b → Q b c → Q a c) →
  (∀ x st st', fn x st = Ok st' → Q (hp st) (hp st')) →
  eachNode hp fuel node d fn st = Ok st' → Q (hp st) (hp st').
Proof.
  intros Hrefl Htrans Hfn H. unfold eachNode in H. open_bind H.
  by eapply eachNode_from_preserves.
Qed.

Lemma row_loops_rows fuel fuel' hd d d' fn s s' :
  (∀ x s s', fn x s = Ok s' → rows_untouched s s') →
  eachNode id fuel hd d (λ rowNode s, eachNode id fuel' rowNode d' fn s) s = Ok s' →
  rows_untouched s s'.
Proof.
  intros Hfn H.
  apply (eachNode_preserves id rows_untouched) in H;
    [done|apply rows_untouched_refl|apply rows_untouched_trans|].
  intros x st st' Hx.
  by apply (eachNode_preserves id rows_untouched) in Hx;
    [|apply rows_untouched_refl|apply rows_untouched_trans|].
Qed.

(** The links between headers that a call on the column [c] may write:
    the [prev] of the header that [c.next] names before the call and the
    [next] of the header that [c.prev] names; every other [prev] and [next]
    is as it was. A column that is its own [next] is the one exception: its
    own links may then be written. *)
Definition neighbours_only (c : addr) (s s' : heap) : Prop :=
  ∀ d h,
    ¬ (hlink Next s c = Some h ∧ d = Prev) →
    ¬ (hlink Prev s c = Some h ∧ d = Next) →
    ¬ (h = c ∧ hlink Next s c = Some c) →
    hlink d s' h = hlink d s h.

Lemma cover_neighbours fuel c s s' : cover fuel c s = Ok s' → neighbours_only c s s'.
Proof.
  intros H d h Hnx Hpv _. unfold cover in H.
  apply obind_ok in H as (nx & Enx & H). apply obind_ok in H as (pv & Epv & H).
  apply obind_ok in H as (s1 & E1 & H). apply obind_ok in H as (pv' & Epv' & H).
  apply obind_ok in H as (nx' & Enx' & H). apply obind_ok in H as (s2 & E2 & H).
  apply obind_ok in H as (hd & Ehd & H).
  apply row_loops_rows in H as [_ H]; [|apply cover_node_rows]. rewrite H.
  apply deref_ok in Enx, Epv, Epv'.
  apply upd_hdr_inv in E1 as [V1 ->]. fold (put_hlink Prev nx pv s) in *.
  apply upd_hdr_inv in E2 as [V2 ->].
  fold (put_hlink Next pv' nx' (put_hlink Prev nx pv s)).
  assert (pv' = pv) as ->.
  { rewrite hlink_put_hlink in Epv' by done. case_decide; congruence. }
  rewrite !hlink_put_hlink by done.
  rewrite !decide_False; [done|intros [-> ->]; tauto..].
Qed.

Lemma uncover_neighbours fuel c s s' : uncover fuel c s = Ok s' → neighbours_only c s s'.
Proof.
  intros H d h Hnx Hpv Hself. unfold uncover in H.
  apply obind_ok in H as (hd & Ehd & H). apply obind_ok in H as (s1 & E1 & H).
  apply obind_ok in H as (nx & Enx & H). apply obind_ok in H as (s2 & E2 & H).
  apply obind_ok in H as (pv' & Epv' & H).
  apply row_loops_rows in E1 as [_ E1]; [|apply uncover_node_rows].
  apply deref_ok in Enx, Epv'. rewrite E1 in Enx.
  apply upd_hdr_inv in E2 as [V2 ->]. fold (put_hlink Prev nx c s1) in *.
  apply upd_hdr_inv in H as [V ->].
  fold (put_hlink Next pv' c (put_hlink Prev nx c s1)).
  rewrite !hlink_put_hlink by done.
  rewrite !decide_False; [apply E1| |].
  - intros [-> ->]. tauto.
  - intros [-> ->]. rewrite hlink_put_hlink in Epv' by done. case_decide as Hc.
    + destruct Hc as [<- _]. injection Epv' as <-. tauto.
    + rewrite E1 in Epv'. tauto.
Qed.

(** X8: whatever the heap, a call of [cover] or of [uncover] that returns
    has written no [left] or [right] link, no [header], no [rowNumber] and no
    [head], and has created no object; and of the links between headers it has
    changed none but the [prev] of the header that the column's [next] names
    before the call and the [next] of the header that its [prev] names (and,
    where the column is its own [next], the column's own links). What it
    changes apart from these are [up] and [down] links and [length]s. *)
Theorem cover_uncover_untouched fuel c s s' :
  cover fuel c s = Ok s' ∨ uncover fuel c s = Ok s' →
  untouched s s' ∧ neighbours_only c s s'.
Proof.
  intros [H|H].
  - split; [|by eapply cover_neighbours].
    unfold cover in H. do 7 open_bind H.
    apply set_hlink_untouched in E1, E4.
    apply row_loops_rows in H as [H _]; [|apply cover_node_rows].
    eapply untouched_trans; [exact E1|]. eapply untouched_trans; [exact E4|done].
  - split; [|by eapply uncover_neighbours].
    unfold uncover in H. do 5 open_bind H.
    apply row_loops_rows in E0 as [E0 _]; [|apply uncover_node_rows].
    apply set_hlink_untouched in E2, H.
    eapply untouched_trans; [exact E0|]. eapply untouched_trans; [exact E2|done].
Qed.

Lemma cover_uncover_untouched_knuth :
  untouched knuth_heap knuth_covered ∧ neighbours_only 0 knuth_heap knuth_covered.
Proof.
  apply (cover_uncover_untouched 30 0 knuth_heap knuth_covered).
  left. vm_compute. reflexivity.
Defined.

(** ** What [cover] does to the header ring *)

(** X9: on a well-formed structure, [cover] of a header of the ring takes
    this header, and no other, out of the ring of the root, the others keeping
    their order; the covered header keeps its own [prev], [next] and [length];
    and the structure is well formed again. *)
Theorem cover_unlinks s root c :
  well_formed s root → linked s root c →
  ∃ N, ∀ fuel, N ≤ fuel → ∃ s' l1 l2,
    cover fuel c s = Ok s' ∧
    ring (hlink Next s) (hlink Prev s) root (l1 ++ c :: l2) ∧
    ring (hlink Next s') (hlink Prev s') root (l1 ++ l2) ∧
    hlink Next s' c = hlink Next s c ∧ hlink Prev s' c = hlink Prev s c ∧
    length_of s' c = length_of s c ∧
    well_formed s' root.
Proof.
  intros (m & L & C & R & <- & Hrep) Hl.
  destruct (linked_col m L s C R c Hrep Hl) as (j0 & -> & Hj0).
  exists (S (nrows m + ncols m)). intros fuel Hfuel.
  destruct (cover_spec m L s C R j0 fuel Hrep Hj0) as (s' & Hcov & _ & Hrep' & _); [lia|].
  pose proof (rep_vrep _ _ _ _ _ Hrep) as Hv.
  pose proof (vr_hring _ _ _ _ _ _ Hv) as Hhr.
  pose proof (vr_hring _ _ _ _ _ _ (rep_vrep _ _ _ _ _ Hrep')) as Hhr'.
  assert (NoDup C) as HndC.
  { destruct Hhr as [_ Hnd]. apply NoDup_cons in Hnd as [_ Hnd]. by apply NoDup_fmap_1 in Hnd. }
  pose proof Hj0 as Hsplit. apply list_elem_of_split in Hsplit as (C1 & C2 & HC).
  rewrite HC in Hhr. rewrite fmap_app, fmap_cons in Hhr.
  rewrite HC, filter_ne_split, fmap_app in Hhr' by (by rewrite <- HC).
  destruct (ring_unlink_links _ _ _ _ _ _ Hhr) as (Hn & Hp & Hpc & Hnc & Hpne & Hnne).
  set (nx := List.hd (rootA L) (colA L <$> C2)) in *.
  set (pv := List.last (colA L <$> C1) (rootA L)) in *.
  assert (valid_hdr s nx) as Vn by (by eapply hlink_valid).
  assert (valid_hdr s pv) as Vp by (by eapply hlink_valid).
  pose proof (vr_C _ _ _ _ _ _ Hv j0 Hj0) as Hlt.
  pose proof (st_head _ _ _ (vr_static _ _ _ _ _ _ Hv) j0 Hlt) as Hhd.
  assert (∀ d, hlink d s' (colA L j0) = hlink d s (colA L j0)) as Hown.
  { intros d. pose proof Hcov as Hc.
    rewrite (cover_unfold fuel s (colA L j0) nx pv (headA L j0)) in Hc by done.
    apply row_loops_rows in Hc as [_ Hc]; [|apply cover_node_rows].
    rewrite Hc. rewrite !hlink_put_hlink by (by rewrite ?valid_hdr_put_hlink).
    rewrite !decide_False; [done|intros [? _]; congruence..]. }
  exists s', (colA L <$> C1), (colA L <$> C2). split_and!; [done|done|done|apply Hown..| |].
  - destruct (cover_vrep m L s C C (col_rows m R) j0 fuel) as (s2 & Hcov2 & _ & Hv2);
      [done|done|done| | | |].
    + pose proof (col_rows_length m R j0 (rep_R_nodup _ _ _ _ _ Hrep)). lia.
    + lia.
    + intros i j [Hpi HiR]%list_elem_of_filter Hpj Hne.
      split; [by eapply (rep_R_closed _ _ _ _ _ Hrep)|]. by apply list_elem_of_filter.
    + rewrite Hcov in Hcov2. injection Hcov2 as <-.
      destruct (vr_cols _ _ _ _ _ _ Hv j0 Hj0) as (_ & Hlen & _).
      destruct (vr_cols _ _ _ _ _ _ Hv2 j0 Hj0) as (_ & Hlen2 & _).
      rewrite Hlen, Hlen2. by rewrite decide_True.
  - by exists m, L, (filter (λ j, j ≠ j0) C), (filter (λ i, ¬ present m i j0) R).
Qed.

Lemma cover_unlinks_knuth :
  ∃ N, ∀ fuel, N ≤ fuel → ∃ s' l1 l2,
    cover fuel 3 knuth_heap = Ok s' ∧
    ring (hlink Next knuth_heap) (hlink Prev knuth_heap) 7 (l1 ++ 3 :: l2) ∧
    ring (hlink Next s') (hlink Prev s') 7 (l1 ++ l2) ∧
    hlink Next s' 3 = hlink Next knuth_heap 3 ∧ hlink Prev s' 3 = hlink Prev knuth_heap 3 ∧
    length_of s' 3 = length_of knuth_heap 3 ∧
    well_formed s' 7.
Proof.
  apply (cover_unlinks knuth_heap 7 3).
  - exists knuth, (build_layout knuth 0 0), (seq 0 7), (seq 0 6).
    split; [reflexivity|exact knuth_heap_rep].
  - exists (seq 0 7). split; [exact knuth_heap_ring|]. apply elem_of_seq. lia.
Defined.

(** ** Covering several columns and uncovering them in the reverse order *)

Fixpoint cover_all (fuel : nat) (cs : list addr) (s : heap) : outcome heap :=
  match cs with
  | [] => Ok s
  | c :: cs' => do s <- cover fuel c s; cover_all fuel cs' s
  end.

Fixpoint uncover_all (fuel : nat) (cs : list addr) (s : heap) : outcome heap :=
  match cs with
  | [] => Ok s
  | c :: cs' => do s <- uncover fuel c s; uncover_all fuel cs' s
  end.

Lemma uncover_all_app fuel cs1 cs2 s :
  uncover_all fuel (cs1 ++ cs2) s = do s <- uncover_all fuel cs1 s; uncover_all fuel cs2 s.
Proof.
  revert s. induction cs1 as [|c cs1 IH]; intros s; [done|]. simpl.
  destruct (uncover fuel c s); [|done..]. simpl. apply IH.
Qed.

Lemma cover_all_rep m L fuel js :
  nrows m + ncols m < fuel → NoDup js →
  ∀ s C R, rep m L s C R → (∀ j, j ∈ js → j ∈ C) →
  ∃ s', cover_all fuel (colA L <$> js) s = Ok s' ∧
        uncover_all fuel (reverse (colA L <$> js)) s' = Ok s.
Proof.
  intros Hfuel. induction js as [|j js IH]; intros Hnd s C R Hrep Hin.
  { exists s. done. }
  apply NoDup_cons in Hnd as [Hj Hnd].
  destruct (cover_spec m L s C R j fuel Hrep) as (s1 & Hcov & Hunc & Hrep1 & _);
    [set_solver|lia|].
  destruct (IH Hnd s1 _ _ Hrep1) as (s' & Hc' & Hu').
  { intros j' Hj'. apply list_elem_of_filter. split; [|set_solver]. intros ->. done. }
  exists s'. rewrite fmap_cons. cbn [cover_all]. rewrite Hcov. cbn [obind].
  split; [done|]. rewrite reverse_cons, uncover_all_app, Hu'. cbn [obind uncover_all].
  by rewrite Hunc.
Qed.

(** X10: on a well-formed structure, covering any pairwise different
    headers of the ring one after the other and then uncovering them in the
    reverse order gives back the heap as it was, every link and every
    [length]. *)
Theorem cover_all_uncover_all s root cs :
  well_formed s root → NoDup cs → (∀ c, c ∈ cs → linked s root c) →
  ∃ N, ∀ fuel, N ≤ fuel →
    ∃ s', cover_all fuel cs s = Ok s' ∧ uncover_all fuel (reverse cs) s' = Ok s.
Proof.
  intros (m & L & C & R & <- & Hrep) Hnd Hl.
  assert (∃ js, cs = colA L <$> js ∧ ∀ j, j ∈ js → j ∈ C) as (js & -> & Hjs).
  { clear Hnd. induction cs as [|c cs IH]; [exists []; split; [done|set_solver]|].
    destruct IH as (js & -> & Hjs); [intros; apply Hl; set_solver|].
    destruct (linked_col m L s C R c Hrep) as (j & -> & Hj); [apply Hl; set_solver|].
    exists (j :: js). split; [done|]. set_solver. }
  exists (S (nrows m + ncols m)). intros fuel Hfuel.
  apply (cover_all_rep m L fuel js) with (C := C) (R := R); [lia| |done|done].
  by apply NoDup_fmap_1 in Hnd.
Qed.

Lemma cover_all_uncover_all_knuth :
  ∃ N, ∀ fuel, N ≤ fuel →
    ∃ s', cover_all fuel [3; 0; 6] knuth_heap = Ok s' ∧
          uncover_all fuel (reverse [3; 0; 6]) s' = Ok knuth_heap.
Proof.
  apply (cover_all_uncover_all knuth_heap 7 [3; 0; 6]).
  - exists knuth, (build_layout knuth 0 0), (seq 0 7), (seq 0 6).
    split; [reflexivity|exact knuth_heap_rep].
  - repeat (apply NoDup_cons; split; [set_solver|]). apply NoDup_nil_2.
  - intros c Hc. exists (seq 0 7). split; [exact knuth_heap_ring|].
    apply elem_of_seq. assert (c = 3 ∨ c = 0 ∨ c = 6) by set_solver. lia.
Defined.

(** ** [solve] sees the matrix through its truthy cells *)

Lemma fold_left_ext_in {A B} (f g : A → B → A) l :
  (∀ a x, x ∈ l → f a x = g a x) → ∀ a, fold_left f l a = fold_left g l a.
Proof.
  induction l as [|x l IH]; intros Hfg a; [done|]. simpl.
  rewrite Hfg by set_solver. apply IH. intros; apply Hfg; set_solver.
Qed.

Lemma filter_filter_comm {A} (P Q : A → Prop) `{!∀ x, Decision (P x)} `{!∀ x, Decision (Q x)}
    (l : list A) :
  filter P (filter Q l) = filter Q (filter P l).
Proof. rewrite !list_filter_filter. apply filter_ext_in. intros x _. tauto. Qed.

Section same_cells.
Context (m m' : matrix).
Hypothesis Hcols : ncols m = ncols m'.
Hypothesis Hcells : ∀ i j, present m i j = present m' i j.

(** Two lists of candidate rows that give every column the same rows. *)
Definition same_rows (R R' : list nat) : Prop :=
  ∀ j, col_rows m R j = col_rows m' R' j.

Lemma sibs_same i j : sibs m i j = sibs m' i j.
Proof using Hcols Hcells.
  unfold sibs. rewrite Hcols.
  f_equal; apply filter_ext_in; intros j' _; by rewrite Hcells.
Qed.

Lemma acover_same st st' j :
  st.1 = st'.1 → same_rows st.2 st'.2 →
  (acover m st j).1 = (acover m' st' j).1 ∧ same_rows (acover m st j).2 (acover m' st' j).2.
Proof using Hcells.
  intros H1 H2. unfold acover. cbn [fst snd]. split; [by rewrite H1|].
  intros j'. unfold col_rows.
  rewrite (filter_filter_comm _ (λ i, ¬ present m i j)).
  rewrite (filter_filter_comm _ (λ i, ¬ present m' i j)).
  fold (col_rows m st.2 j'). fold (col_rows m' st'.2 j'). rewrite H2.
  apply filter_ext_in. intros i _. by rewrite Hcells.
Qed.

Lemma acover_fold_same js : ∀ st st',
  st.1 = st'.1 → same_rows st.2 st'.2 →
  (fold_left (acover m) js st).1 = (fold_left (acover m') js st').1 ∧
  same_rows (fold_left (acover m) js st).2 (fold_left (acover m') js st').2.
Proof using Hcells.
  induction js as [|j js IH]; intros st st' H1 H2; [done|]. simpl.
  destruct (acover_same st st' j H1 H2). by apply IH.
Qed.

Lemma asearch_same n : ∀ max C R R' k acc,
  same_rows R R' → asearch n m max C R k acc = asearch n m' max C R' k acc.
Proof using Hcols Hcells.
  induction n as [|n IH]; intros max C R R' k acc HR; [done|]. simpl.
  destruct (bool_decide (max ≠ 0) && bool_decide (length acc.1 = max)); [done|].
  destruct C as [|c C']; [done|]. set (C := c :: C') in *.
  assert (achoose m C R = achoose m' C R') as Hch.
  { unfold achoose. apply first_min_ext_in. intros j _. by rewrite HR. }
  rewrite Hch. destruct (achoose m' C R') as [b|]; [|done].
  rewrite (HR b). destruct (bool_decide (0 < length (col_rows m' R' b))); [|done].
  apply fold_left_ext_in. intros a i _. cbn beta zeta.
  rewrite <- (sibs_same i b).
  destruct (acover_fold_same (sibs m i b) (acover m (C, R) b) (acover m' (C, R') b))
    as [E1 E2]; [by apply acover_same..|].
  rewrite E1. by apply IH.
Qed.
End same_cells.

Lemma col_rows_seq_ge m j n :
  nrows m ≤ n → col_rows m (seq 0 n) j = col_rows m (seq 0 (nrows m)) j.
Proof.
  intros Hn. replace n with (nrows m + (n - nrows m)) by lia.
  rewrite seq_app. unfold col_rows. rewrite filter_app.
  rewrite (filter_none _ (seq (0 + nrows m) _)); [by rewrite app_nil_r|].
  intros i Hi Hp. apply elem_of_seq in Hi. apply present_lt in Hp. lia.
Qed.

Lemma found_same m m' max :
  ncols m = ncols m' → (∀ i j, present m i j = present m' i j) →
  found m max = found m' max.
Proof.
  intros Hc Hp. unfold found. rewrite <- Hc.
  rewrite (asearch_same m m' Hc Hp (S (ncols m)) max _ (seq 0 (nrows m)) (seq 0 (nrows m')));
    [done|].
  intros j. rewrite <- (col_rows_seq_ge m j (nrows m `max` nrows m')) by lia.
  rewrite <- (col_rows_seq_ge m' j (nrows m `max` nrows m')) by lia.
  apply filter_ext_in. intros i _. by rewrite Hp.
Qed.

(** X11: the result of [solve] depends on the matrix only through the
    length of its first row and the positions of its truthy cells, a missing
    cell counting as falsy: two matrices that agree on these give the same
    array of solutions. So the value of a truthy cell, the padding of a short
    row with zeros, and rows of zeros added at the end make no difference. *)
Theorem solve_truthy_cells m m' o s s' fuel :
  fits m → fits m' → 0 < ncols m → ncols m = ncols m' →
  (∀ i j, truthy (cell m i j) = truthy (cell m' i j)) →
  enough m fuel → enough m' fuel →
  ∃ sols, solve_in fuel s m o = Ok sols ∧ solve_in fuel s' m' o = Ok sols.
Proof.
  intros Hf Hf' Hn Hc Hcells Hfuel Hfuel'. exists (found m (max_of o)).
  split; [by apply solve_in_found|].
  rewrite (found_same m m' (max_of o) Hc).
  - apply solve_in_found; [done|lia|done].
  - intros i j. rewrite !present_cell. by rewrite Hc, Hcells.
Qed.

(** A matrix with the cells of [twice], written with other truthy values,
    a short row, and a last row of zeros. *)
Definition twice_ragged : matrix := [[5; 0; -1]; [0; 0; 2]; [0; 1]; [3; 7; 0]; [1]; [0; 0]]%Z.

Lemma solve_truthy_cells_twice :
  ∃ sols, solve 30 twice None = Ok sols ∧ solve 30 twice_ragged None = Ok sols.
Proof.
  apply (solve_truthy_cells twice twice_ragged None empty_heap empty_heap 30).
  - apply rectangular_fits. unfold rectangular. repeat constructor.
  - intros i row j v Hi Hj Hv.
    do 6 (destruct i as [|i]; [injection Hi as <-;
      do 3 (destruct j as [|j]; [vm_compute; lia|]); by destruct j|]).
    done.
  - vm_compute. lia.
  - reflexivity.
  - intros i j.
    do 6 (destruct i as [|i]; [do 3 (destruct j as [|j]; [reflexivity|]); by destruct j|]).
    by destruct j.
  - unfold enough. vm_compute. lia.
  - unfold enough. vm_compute. lia.
Defined.

(** ** The entries of the returned arrays *)

(** An entry that is the index of a row with a truthy cell. *)
Definition row_entry (m : matrix) (e : option nat) : Prop :=
  ∃ i, e = Some i ∧ i ∈ nonzero_rows m.

Lemma array_set_Forall {A} (P : option A → Prop) k v a :
  k ≤ length a → P v → Forall P a → Forall P (array_set k v a).
Proof.
  intros Hk Hv Ha. unfold array_set. case_decide.
  - by apply Forall_insert.
  - replace (k - length a) with 0 by lia. simpl. apply Forall_app. split; [done|].
    by repeat constructor.
Qed.

(** What an invocation keeps: the entries below its depth, entries that
    are row indices, and the cap. *)
Record search_ok (m : matrix) (max k : nat) (acc : list solution * list (option nat))
    : Prop := {
  so_depth : k ≤ length acc.2;
  so_parts : Forall (row_entry m) acc.2;
  so_sols : Forall (Forall (row_entry m)) acc.1;
  so_cap : 0 < max → length acc.1 ≤ max
}.

Lemma search_ok_deeper m max k i acc :
  search_ok m max k acc → i ∈ nonzero_rows m →
  search_ok m max (k + 1) (acc.1, array_set k (Some i) acc.2).
Proof.
  intros [H1 H2 H3 H4] Hi. split; cbn [fst snd]; [|by apply array_set_Forall; [|exists i|]|done..].
  pose proof (array_set_length k (Some i) acc.2 H1). lia.
Qed.

Lemma search_ok_back m max k i acc r :
  search_ok m max k acc →
  search_ok m max (k + 1) r → take (k + 1) r.2 = take (k + 1) (array_set k (Some i) acc.2) →
  search_ok m max k r ∧ take k r.2 = take k acc.2.
Proof.
  intros Hok [H1 H2 H3 H4] Ht. split; [split; [lia|done..]|].
  rewrite <- (array_set_take k (Some i) acc.2) by apply Hok.
  transitivity (take k (take (k + 1) r.2)).
  - rewrite take_take. f_equal. lia.
  - rewrite Ht, take_take. f_equal. lia.
Qed.

Lemma rows_fold_ok m max k (step : list solution * list (option nat) → nat →
                                   list solution * list (option nat)) rows :
  (∀ i acc, i ∈ rows → search_ok m max k acc →
     search_ok m max k (step acc i) ∧ take k (step acc i).2 = take k acc.2) →
  ∀ acc, search_ok m max k acc →
    search_ok m max k (fold_left step rows acc) ∧
    take k (fold_left step rows acc).2 = take k acc.2.
Proof.
  induction rows as [|i rows IH]; intros Hstep acc Hok; [done|]. cbn [fold_left].
  destruct (Hstep i acc) as [Hok1 Ht1]; [set_solver|done|].
  destruct (IH (λ i' acc' Hi', Hstep i' acc' ltac:(set_solver)) (step acc i) Hok1)
    as [Hok2 Ht2].
  split; [done|]. by rewrite Ht2.
Qed.

Lemma asearch_ok n : ∀ m max C R k acc,
  search_ok m max k acc →
  search_ok m max k (asearch n m max C R k acc) ∧
  take k (asearch n m max C R k acc).2 = take k acc.2.
Proof.
  induction n as [|n IH]; intros m max C R k acc Hok; [done|]. simpl.
  destruct (bool_decide (max ≠ 0) && bool_decide (length acc.1 = max)) eqn:Ecap; [done|].
  destruct C as [|c C'].
  { split; [|done]. destruct Hok as [H1 H2 H3 H4]. split; cbn [fst snd]; [done|done| |].
    - apply Forall_app. split; [done|]. by repeat constructor.
    - intros Hmax. rewrite length_app. simpl. specialize (H4 Hmax).
      apply andb_false_iff in Ecap as [E|E]; apply bool_decide_eq_false in E; lia. }
  set (C := c :: C') in *. destruct (achoose m C R) as [b|]; [|done].
  destruct (bool_decide (0 < length (col_rows m R b))); [|done].
  apply rows_fold_ok; [|done]. intros i acc' Hi Hok'. cbn beta zeta.
  assert (i ∈ nonzero_rows m) as Hnz.
  { apply list_elem_of_filter in Hi as [Hp _]. apply elem_of_nonzero_rows. by exists b. }
  set (st := fold_left (acover m) (sibs m i b) (acover m (C, R) b)).
  destruct (IH m max st.1 st.2 (k + 1) (acc'.1, array_set k (Some i) acc'.2))
    as [Hok1 Ht1]; [by apply search_ok_deeper|].
  by eapply search_ok_back.
Qed.

Lemma found_ok m max : search_ok m max 0 (asearch (S (ncols m)) m max
                         (seq 0 (ncols m)) (seq 0 (nrows m)) 0 ([], [])).
Proof. apply asearch_ok. split; simpl; [lia|constructor|constructor|lia]. Qed.

(** X12: on a matrix whose truthy cells lie in the columns of its first
    row, with at least one column, every entry of every array that [solve]
    returns is the index of a row of the matrix that has a truthy cell: no
    entry is undefined, out of range, or the index of a row of zeros. *)
Theorem solve_entries_are_rows m o s0 fuel :
  fits m → 0 < ncols m → enough m fuel →
  ∃ sols, solve_in fuel s0 m o = Ok sols ∧
    ∀ t e, t ∈ sols → e ∈ t →
      ∃ i j, e = Some i ∧ i < nrows m ∧ j < ncols m ∧ truthy (cell m i j).
Proof.
  intros Hf Hn Hfuel. exists (found m (max_of o)). split; [by apply solve_in_found|].
  intros t e Ht He. pose proof (so_sols _ _ _ _ (found_ok m (max_of o))) as Hs.
  fold (found m (max_of o)) in Hs. rewrite Forall_forall in Hs.
  specialize (Hs t Ht). rewrite Forall_forall in Hs.
  destruct (Hs e He) as (i & -> & Hi). apply elem_of_nonzero_rows in Hi as [j Hj].
  exists i, j. pose proof (present_lt _ _ _ Hj) as [? ?].
  rewrite present_cell in Hj. apply andb_prop_elim in Hj as [_ Hj].
  split_and!; [done|done|done|]. by destruct (truthy (cell m i j)).
Qed.

Lemma solve_entries_are_rows_twice :
  ∃ sols, solve 30 twice None = Ok sols ∧
    ∀ t e, t ∈ sols → e ∈ t →
      ∃ i j, e = Some i ∧ i < nrows twice ∧ j < ncols twice ∧ truthy (cell twice i j).
Proof.
  apply (solve_entries_are_rows twice None empty_heap 30).
  - apply rectangular_fits. unfold rectangular. repeat constructor.
  - vm_compute. lia.
  - unfold enough. vm_compute. lia.
Defined.

(** ** What an invocation of [recurse] does to the two arrays *)

(** X13: on a well-formed structure, an invocation of [recurse] at depth
    [k], given arrays [solutions] and [partials] with [k] no more than the
    length of [partials], returns with [solutions] extended at its end, the
    solutions it received still there in their order, and with the first [k]
    entries of [partials] as they were. *)
Theorem recurse_appends s root max k sols parts :
  well_formed s root → k ≤ length parts →
  ∃ N, ∀ fuel, N ≤ fuel → ∃ news parts',
    recurse fuel root max k (Search s sols parts) = Ok (Search s (sols ++ news) parts') ∧
    take k parts' = take k parts.
Proof.
  intros (m & L & C & R & <- & Hrep) Hk.
  exists (S (nrows m + ncols m + S (length C))). intros fuel Hfuel.
  rewrite (recurse_refines (S (length C)) m L s C R max k sols parts fuel Hrep) by lia.
  set (r := asearch (S (length C)) m max C R k (sols, parts)).
  destruct (asearch_extends (S (length C)) m max C R k (sols, parts)) as [news Hnews].
  fold r in Hnews. exists news, r.2. rewrite Hnews. split; [done|].
  clear Hnews. subst r. revert sols parts Hk. generalize (S (length C)) as n. clear.
  intros n. revert C R k. induction n as [|n IH]; intros C R k sols parts Hk; [done|].
  simpl. destruct (bool_decide (max ≠ 0) && bool_decide (length sols = max)); [done|].
  destruct C as [|c C']; [done|]. set (C := c :: C') in *.
  destruct (achoose m C R) as [b|]; [|done].
  destruct (bool_decide (0 < length (col_rows m R b))); [|done].
  revert sols parts Hk. generalize (col_rows m R b) as rows.
  induction rows as [|i rows IHr]; intros sols parts Hk; [done|]. cbn [fold_left fst snd].
  set (st := fold_left (acover m) (sibs m i b) (acover m (C, R) b)).
  pose proof (IH st.1 st.2 (k + 1) sols (array_set k (Some i) parts)) as Ht.
  pose proof (array_set_length k (Some i) parts Hk) as Hlen.
  specialize (Ht ltac:(lia)).
  destruct (asearch n m max st.1 st.2 (k + 1) (sols, array_set k (Some i) parts))
    as [sols1 parts1] eqn:E1. cbn [fst snd] in *.
  assert (take k parts1 = take k parts) as Hk1.
  { rewrite <- (array_set_take k (Some i) parts) by done.
    transitivity (take k (take (k + 1) parts1)).
    - rewrite take_take. f_equal. lia.
    - rewrite Ht, take_take. f_equal. lia. }
  rewrite <- Hk1. apply IHr.
  assert (length (take (k + 1) parts1) = k + 1) as Hl.
  { rewrite Ht, length_take. lia. }
  rewrite length_take in Hl. lia.
Qed.

Lemma recurse_appends_knuth :
  ∃ N, ∀ fuel, N ≤ fuel → ∃ news parts',
    recurse fuel 7 0 1 (Search knuth_heap [[Some 9]] [Some 4; Some 2]) =
      Ok (Search knuth_heap ([[Some 9]] ++ news) parts') ∧
    take 1 parts' = take 1 [Some 4; Some 2].
Proof.
  apply (recurse_appends knuth_heap 7 0 1 [[Some 9]] [Some 4; Some 2]).
  - exists knuth, (build_layout knuth 0 0), (seq 0 7), (seq 0 6).
    split; [reflexivity|exact knuth_heap_rep].
  - simpl. lia.
Defined.

(** ** The cap *)

(** X14: on a matrix whose truthy cells lie in the columns of its first
    row, with at least one column, [solve] with a cap never returns more
    solutions than the cap, and the solutions returned under a cap are the
    first ones returned under any larger cap, in the same order. *)
Theorem solve_cap_prefix m s0 fuel max1 max2 :
  fits m → 0 < ncols m → enough m fuel → 0 < max1 → max1 ≤ max2 →
  ∃ sols1 sols2,
    solve_in fuel s0 m (Some (Options (Some max1))) = Ok sols1 ∧
    solve_in fuel s0 m (Some (Options (Some max2))) = Ok sols2 ∧
    sols1 = take max1 sols2 ∧ length sols1 ≤ max1.
Proof.
  intros Hf Hn Hfuel H1 H2. exists (found m max1), (found m max2).
  split_and!; [by apply (solve_in_found m s0 (Some (Options (Some max1))))
              |by apply (solve_in_found m s0 (Some (Options (Some max2))))| |].
  - rewrite (found_capped m max1), (found_capped m max2) by lia.
    rewrite take_take. f_equal. lia.
  - rewrite (found_capped m max1) by lia. rewrite length_take. lia.
Qed.

Lemma solve_cap_prefix_twice :
  ∃ sols1 sols2,
    solve 30 twice (Some (Options (Some 1))) = Ok sols1 ∧
    solve 30 twice (Some (Options (Some 2))) = Ok sols2 ∧
    sols1 = take 1 sols2 ∧ length sols1 ≤ 1.
Proof.
  apply (solve_cap_prefix twice empty_heap 30 1 2).
  - apply rectangular_fits. unfold rectangular. repeat constructor.
  - vm_compute. lia.
  - unfold enough. vm_compute. lia.
  - lia.
  - lia.
Defined.

(** ** A truthy cell beyond the columns of the first row *)

Lemma add_cells_app columns i a b : ∀ c st,
  add_cells columns i (a ++ b) c st =
    do st' <- add_cells columns i a c st; add_cells columns i b (c + length a) st'.
Proof.
  induction a as [|v a IH]; intros c st; simpl.
  - by rewrite Nat.add_0_r.
  - destruct (add_cell columns i v c st); [|done..]. simpl.
    rewrite IH. by replace (S c + length a) with (c + S (length a)) by lia.
Qed.

Lemma add_rows_app columns a b : ∀ k s,
  add_rows columns (a ++ b) k s =
    do s' <- add_rows columns a k s; add_rows columns b (k + length a) s'.
Proof.
  induction a as [|row a IH]; intros k s; simpl.
  - by rewrite Nat.add_0_r.
  - destruct (add_cells columns k row 0 (s, None)); [|done..]. simpl.
    rewrite IH. by replace (S k + length a) with (k + S (length a)) by lia.
Qed.

(** X15: when a row holds a truthy cell at an index that the first row
    does not have, and no cell before it (in the order in which [solve] reads
    the matrix) does, [solve] throws at that cell, on the read of the missing
    element of [columns]; it returns nothing, whatever the options. *)
Theorem solve_cell_beyond_columns m i row j v fuel s o :
  0 < ncols m → m !! i = Some row → row !! j = Some v → truthy v → ncols m ≤ j →
  (∀ i' row' j' v', m !! i' = Some row' → row' !! j' = Some v' → truthy v' →
     i' < i ∨ (i' = i ∧ j' < j) → j' < ncols m) →
  solve_in fuel s m o = Throw (UndefinedColumn j).
Proof.
  intros Hn Hi Hj Hv Hout Hfirst.
  assert (0 < i) as Hi0.
  { destruct i; [|lia]. unfold ncols in Hout. rewrite Hi in Hout.
    apply lookup_lt_Some in Hj. lia. }
  pose proof (lookup_lt_Some _ _ _ Hi) as Hil. pose proof (lookup_lt_Some _ _ _ Hj) as Hjl.
  set (m0 := take i m ++ [take j row]).
  assert (m0 !! 0 = m !! 0) as H0.
  { unfold m0. rewrite lookup_app_l by (rewrite length_take; lia).
    by rewrite lookup_take_lt by lia. }
  assert (ncols m0 = ncols m) as Hc by (unfold ncols; by rewrite H0).
  assert (fits m0) as Hf.
  { intros i' row' j' v' Hi' Hj' Hv'. rewrite Hc. unfold m0 in Hi'.
    destruct (decide (i' < i)) as [Hlt|Hge].
    - rewrite lookup_app_l in Hi' by (rewrite length_take; lia).
      rewrite lookup_take_lt in Hi' by lia. eapply Hfirst; [done..|by left].
    - rewrite lookup_app_r in Hi' by (rewrite length_take; lia).
      rewrite length_take in Hi'. replace (i `min` length m) with i in Hi' by lia.
      destruct (i' - i) as [|d] eqn:Ed; [|by destruct d]. injection Hi' as <-.
      assert (j' < j) as Hj'l.
      { apply lookup_lt_Some in Hj'. rewrite length_take in Hj'. lia. }
      rewrite lookup_take_lt in Hj' by done.
      eapply (Hfirst i row j' v'); [done..|]. right. lia. }
  unfold solve_in, build. destruct (m !! 0) as [row0|] eqn:E0;
    [|unfold ncols in Hn; rewrite E0 in Hn; lia].
  assert (length row0 = ncols m) as Hrow0 by (unfold ncols; by rewrite E0).
  set (hb := length (hdrs s)). set (nb := length (nodes s)).
  destruct (make_columns_spec (length row0) hb nb 0 s (cols_built_init s))
    as (s1 & Hmk & Hb1).
  simpl in Hmk. rewrite Hmk. cbn [obind]. rewrite Hrow0 in *.
  rewrite <- Hc in Hb1. apply (rows_built_init m0) in Hb1; [|lia].
  destruct (add_rows_spec m0 hb nb Hf m0 [] s1 eq_refl Hb1) as (s2 & Hrows & _).
  rewrite Hc in Hrows. simpl in Hrows. unfold m0 in Hrows.
  rewrite add_rows_app in Hrows. apply obind_ok in Hrows as (s3 & Hpre & Hrow).
  simpl in Hrow. apply obind_ok in Hrow as (st & Hcells & _).
  set (cols := (λ j, hb + j) <$> seq 0 (ncols m)) in *.
  assert (add_rows cols m 0 s1 = Throw (UndefinedColumn j)) as ->; [|done].
  assert (cols !! j = None) as Hnone.
  { apply lookup_ge_None. unfold cols. rewrite length_fmap, length_seq. lia. }
  rewrite <- (take_drop_middle m i row Hi), add_rows_app, Hpre. cbn [obind add_rows].
  rewrite Nat.add_0_l.
  assert (add_cells cols (length (take i m)) row 0 (s3, None) = Throw (UndefinedColumn j))
    as ->; [|done].
  rewrite <- (take_drop_middle row j v Hj), add_cells_app, Hcells. cbn [obind add_cells].
  destruct st as [s4 left']. unfold add_cell. apply Is_true_true in Hv. rewrite Hv.
  rewrite length_take. replace (0 + j `min` length row) with j by lia.
  by rewrite Hnone.
Qed.

(** A matrix whose second row has a truthy cell at index 3, with a first
    row of two cells. *)
Definition long_row : matrix := [[1; 0]; [0; 1; 0; 1]]%Z.

Lemma solve_cell_beyond_columns_long_row :
  solve 30 long_row None = Throw (UndefinedColumn 3).
Proof.
  apply (solve_cell_beyond_columns long_row 1 [0; 1; 0; 1]%Z 3 1%Z 30 empty_heap None).
  - vm_compute. lia.
  - reflexivity.
  - reflexivity.
  - exact I.
  - vm_compute. lia.
  - intros i' row' j' v' Hi' Hj' Hv' [Hlt|[-> Hlt]].
    + destruct i' as [|i']; [|lia]. injection Hi' as <-.
      apply lookup_lt_Some in Hj'. exact Hj'.
    + injection Hi' as <-.
      destruct j' as [|[|[|j']]]; [vm_compute; lia|vm_compute; lia| |lia].
      injection Hj' as <-. done.
Defined.

(** ** The lengths of the returned arrays *)

Lemma array_set_length_ge {A} k (v : option A) a : length a ≤ length (array_set k v a).
Proof.
  unfold array_set. case_decide.
  - by rewrite length_insert.
  - rewrite length_app. lia.
Qed.

(** The arrays pushed by an invocation are at least as long as [partials]
    was when the invocation began, at most as long as it is when the invocation
    ends, and each is at least as long as the ones pushed before it. *)
Definition grows (parts : list (option nat)) (news : list solution)
    (parts' : list (option nat)) : Prop :=
  length parts ≤ length parts' ∧
  Forall (λ t, length parts ≤ length t ≤ length parts') news ∧
  pairwise (λ t u : solution, length t ≤ length u) news.

Lemma grows_nil parts : grows parts [] parts.
Proof. split_and!; [done|constructor|done]. Qed.

Lemma grows_app p0 n1 p1 n2 p2 : grows p0 n1 p1 → grows p1 n2 p2 → grows p0 (n1 ++ n2) p2.
Proof.
  intros (A1 & A2 & A3) (B1 & B2 & B3). split_and!; [lia| |].
  - apply Forall_app. split; (eapply Forall_impl; [eassumption|]); simpl; intros; lia.
  - apply pairwise_app. split_and!; [done..|]. intros x y Hx Hy.
    rewrite Forall_forall in A2, B2. specialize (A2 x Hx). specialize (B2 y Hy). lia.
Qed.

Lemma grows_from p0 p0' news p1 : length p0 ≤ length p0' → grows p0' news p1 → grows p0 news p1.
Proof.
  intros Hle (A1 & A2 & A3). split_and!; [lia| |done].
  eapply Forall_impl; [eassumption|]. simpl. intros; lia.
Qed.

Lemma asearch_grows n : ∀ m max C R k acc,
  ∃ news, (asearch n m max C R k acc).1 = acc.1 ++ news ∧
          grows acc.2 news (asearch n m max C R k acc).2.
Proof.
  induction n as [|n IH]; intros m max C R k acc.
  { exists []. simpl. rewrite app_nil_r. split; [done|apply grows_nil]. }
  simpl. destruct (bool_decide (max ≠ 0) && bool_decide (length acc.1 = max)).
  { exists []. rewrite app_nil_r. split; [done|apply grows_nil]. }
  destruct C as [|c C'].
  { exists [acc.2]. split; [done|]. split_and!; [done|by repeat constructor|].
    simpl. split; [constructor|done]. }
  set (C := c :: C') in *.
  destruct (achoose m C R) as [b|]; [|exists []; rewrite app_nil_r; split; [done|apply grows_nil]].
  destruct (bool_decide (0 < length (col_rows m R b)));
    [|exists []; rewrite app_nil_r; split; [done|apply grows_nil]].
  generalize (col_rows m R b) as rows. intros rows. revert acc.
  induction rows as [|i rows IHr]; intros acc.
  { exists []. simpl. rewrite app_nil_r. split; [done|apply grows_nil]. }
  cbn [fold_left].
  set (st := fold_left (acover m) (sibs m i b) (acover m (C, R) b)).
  destruct (IH m max st.1 st.2 (k + 1) (acc.1, array_set k (Some i) acc.2))
    as (n1 & E1 & G1). cbn [fst snd] in E1, G1.
  destruct (IHr (asearch n m max st.1 st.2 (k + 1) (acc.1, array_set k (Some i) acc.2)))
    as (n2 & E2 & G2).
  exists (n1 ++ n2). split.
  - rewrite E2, E1. by rewrite app_assoc.
  - eapply grows_app; [|exact G2]. eapply grows_from; [|exact G1].
    apply array_set_length_ge.
Qed.

(** X16: on a matrix whose truthy cells lie in the columns of its first
    row, with at least one column, the arrays that [solve] returns never get
    shorter along the result: each returned array is at least as long as every
    array returned before it. *)
Theorem solve_lengths_grow m o s0 fuel :
  fits m → 0 < ncols m → enough m fuel →
  ∃ sols, solve_in fuel s0 m o = Ok sols ∧
    pairwise (λ t u : solution, length t ≤ length u) sols.
Proof.
  intros Hf Hn Hfuel. exists (found m (max_of o)). split; [by apply solve_in_found|].
  unfold found.
  destruct (asearch_grows (S (ncols m)) m (max_of o) (seq 0 (ncols m)) (seq 0 (nrows m))
              0 ([], [])) as (news & E & _ & _ & Hs).
  rewrite E. done.
Qed.

Lemma solve_lengths_grow_twice :
  ∃ sols, solve 30 twice None = Ok sols ∧
    pairwise (λ t u : solution, length t ≤ length u) sols.
Proof.
  apply (solve_lengths_grow twice None empty_heap 30).
  - apply rectangular_fits. unfold rectangular. repeat constructor.
  - vm_compute. lia.
  - unfold enough. vm_compute. lia.
Defined.

(** ** The objects that [solve] creates *)

(** The number of truthy cells of the matrix that lie in its columns. *)
Definition cells_count (m : matrix) : nat :=
  length (flat_map (λ i, filter (λ j, truthy (cell m i j)) (seq 0 (ncols m)))
            (seq 0 (nrows m))).

Lemma make_root_hdrs columns s root s' :
  make_root columns s = Ok (root, s') → length (hdrs s') = S (length (hdrs s)).
Proof.
  unfold make_root, alloc_hdr. destruct (columns !! 0) as [c0|]; [|done]. intros H.
  do 6 open_bind H. injection H as _ <-.
  apply upd_hdr_inv in E0 as [_ ->], E1 as [_ ->], E3 as [_ ->], E4 as [_ ->].
  rewrite !length_hdrs_put_hdr. simpl. rewrite length_app. simpl. lia.
Qed.

Lemma rank_cells_count m : rank m (nrows m) 0 = cells_count m.
Proof.
  unfold rank, cells_count. simpl. rewrite Nat.add_0_r. f_equal.
  apply flat_map_ext. intros i. unfold row_cells. apply filter_ext_in.
  intros j Hj. apply elem_of_seq in Hj. rewrite present_cell.
  rewrite bool_decide_true by lia. done.
Qed.

(** X17: on a matrix whose truthy cells lie in the columns of its first
    row, with at least one column, the construction of [solve] creates one
    header per column and one for the root, which is the last one created, and
    one node per column (its head) and one per truthy cell; nothing else. *)
Theorem build_allocates m s0 :
  fits m → 0 < ncols m →
  ∃ root s, build m s0 = Ok (root, s) ∧
    root = length (hdrs s0) + ncols m ∧
    length (hdrs s) = length (hdrs s0) + ncols m + 1 ∧
    length (nodes s) = length (nodes s0) + ncols m + cells_count m.
Proof.
  intros Hf Hn. destruct (build_rep m s0 Hf Hn) as (s & Hb & _).
  exists (length (hdrs s0) + ncols m), s. split; [done|]. split; [done|].
  set (hb := length (hdrs s0)) in *. set (nb := length (nodes s0)) in *.
  unfold build in Hb. unfold ncols in Hn. destruct (m !! 0) as [row0|] eqn:E0; [|lia].
  assert (length row0 = ncols m) as Hrow0 by (unfold ncols; by rewrite E0).
  destruct (make_columns_spec (length row0) hb nb 0 s0 (cols_built_init s0))
    as (s1 & Hmk & Hb1).
  simpl in Hmk. rewrite Hmk in Hb. cbn [obind] in Hb. rewrite Hrow0 in *.
  apply (rows_built_init m) in Hb1; [|lia].
  destruct (add_rows_spec m hb nb Hf m [] s1 eq_refl Hb1) as (s2 & Hrows & Hb2).
  simpl in Hrows. rewrite Hrows in Hb. cbn [obind] in Hb.
  destruct Hb2 as [Hh Hnn _ Hhr _ _ _ _].
  pose proof (make_root_hdrs _ _ _ _ Hb) as Hlen.
  pose proof (chain_last _ _ _ _ _ Hhr) as [Hlast Hprev].
  destruct (make_root_spec s2 ((λ j, hb + j) <$> seq 0 (ncols m)) hb
              (List.last ((λ j, hb + j) <$> seq 1 (ncols m - 1)) hb))
    as (s' & Hroot & Hns & _); [|done|by eapply hlink_valid|].
  { rewrite list_lookup_fmap, lookup_seq_lt by lia. simpl. f_equal. lia. }
  rewrite Hroot in Hb. injection Hb as _ ->.
  split; [lia|]. rewrite Hns, Hnn. by rewrite rank_cells_count.
Qed.

Lemma build_allocates_knuth :
  ∃ root s, build knuth empty_heap = Ok (root, s) ∧
    root = length (hdrs empty_heap) + ncols knuth ∧
    length (hdrs s) = length (hdrs empty_heap) + ncols knuth + 1 ∧
    length (nodes s) = length (nodes empty_heap) + ncols knuth + cells_count knuth.
Proof.
  apply (build_allocates knuth empty_heap).
  - apply rectangular_fits. unfold rectangular. repeat constructor.
  - vm_compute. lia.
Defined.

(** ** Whether an exact cover exists *)

Lemma exact_cover_nonzero m X :
  exact_cover m X → exact_cover m (filter (λ i, i ∈ nonzero_rows m) X).
Proof.
  unfold exact_cover. intros H. eapply Forall_impl; [exact H|]. simpl.
  intros j Hj. rewrite <- Hj. f_equal. rewrite list_filter_filter.
  apply filter_ext_in. intros i _. split; [tauto|]. intros Hp. split; [done|].
  apply elem_of_nonzero_rows. by exists j.
Qed.

(** X18: on a matrix whose truthy cells lie in the columns of its first
    row, with at least one column, and with or without a cap, [solve] returns
    the empty array exactly when the matrix has no exact cover, that is, no
    list of pairwise different rows with exactly one truthy cell in every
    column. *)
Theorem solve_empty_iff m o s0 fuel :
  fits m → 0 < ncols m → enough m fuel →
  ∃ sols, solve_in fuel s0 m o = Ok sols ∧
    (sols = [] ↔ ¬ ∃ X, NoDup X ∧ exact_cover m X).
Proof.
  intros Hf Hn Hfuel. exists (found m (max_of o)). split; [by apply solve_in_found|].
  assert (found m (max_of o) = [] ↔ all_paths m = []) as ->.
  { pose proof (found_paths m) as HF. destruct (max_of o) as [|n] eqn:Eo.
    - split; intros E; rewrite E in HF;
        [by apply Forall2_nil_inv_l in HF|by apply Forall2_nil_inv_r in HF].
    - rewrite found_capped by lia. split; intros E.
      + destruct (found m 0) as [|t l]; [by apply Forall2_nil_inv_l in HF|done].
      + rewrite E in HF. apply Forall2_nil_inv_r in HF. by rewrite HF. }
  split.
  - intros E (X & Hnd & Hcov).
    destruct (paths_complete (S (ncols m)) m (seq 0 (ncols m)) (seq 0 (nrows m))
                (filter (λ i, i ∈ nonzero_rows m) X)) as (x & Hx & _).
    + apply search_inv_init.
    + rewrite length_seq. lia.
    + by apply NoDup_filter.
    + intros i [Hi _]%list_elem_of_filter. pose proof Hi as Hi'.
      apply elem_of_nonzero_rows in Hi as [j Hj]. split; [|by exists j].
      apply elem_of_seq. apply present_lt in Hj. lia.
    + by apply exact_cover_covers, exact_cover_nonzero.
    + fold (all_paths m) in Hx. rewrite E in Hx. set_solver.
  - intros Hno. destruct (all_paths m) as [|x l] eqn:E; [done|]. exfalso. apply Hno.
    exists x. pose proof (all_paths_exact m) as Hall. rewrite E in Hall.
    apply Forall_cons in Hall as [(Hnd & _ & Hcov) _]. done.
Qed.

Lemma solve_empty_iff_zero_column :
  ∃ sols, solve 30 zero_column None = Ok sols ∧
    (sols = [] ↔ ¬ ∃ X, NoDup X ∧ exact_cover zero_column X).
Proof.
  apply (solve_empty_iff zero_column None empty_heap 30).
  - apply rectangular_fits. unfold rectangular. repeat constructor.
  - vm_compute. lia.
  - unfold enough. vm_compute. lia.
Defined.
